(** * GitLens Repositories view: lazy tree search and reveal

    A shallow embedding of [src/views/repositoriesView.ts]: the query builders
    ([findBranch], [findCommit], ...), the reveal operations built on them, and
    the collaborators they call.  Asynchronous code is written in explicit
    state-passing style over an event log: every operation takes the log so far
    and returns its result together with the extended log.  An [await] is the
    sequencing of the log; a promise that resolves to [undefined] is [None]. *)

From stdpp Require Import base list strings gmap.
From Stdlib Require Import Ascii Lia.

Open Scope string_scope.
Open Scope list_scope.
Open Scope nat_scope.

(** ** Git models (only the fields the view reads) *)

Record GitBranchReference := {
  br_repoPath : string;
  br_name : string;
  br_ref : string;
  br_remote : bool
}.

Record GitRemote := { rm_repoPath : string; rm_name : string }.

Record GitRevisionReference := { rev_repoPath : string; rev_ref : string }.

Record GitCommit := {
  gc_repoPath : string;
  gc_ref : string;
  gc_committer_date : Z
}.

Record GitStashReference := { st_repoPath : string; st_ref : string }.

Record GitTagReference := { tg_repoPath : string; tg_ref : string }.

Record GitContributor := {
  ct_repoPath : string;
  ct_name : string;
  ct_email : option string;
  ct_username : option string
}.

Record GitWorktree := { wt_repoPath : string; wt_uri : string; wt_name : string }.

(** The argument of [findCommit]: [GitCommit | { repoPath: string; ref: string }]. *)
Inductive CommitArg :=
| IsGitCommit (c : GitCommit)
| RefOnly (r : GitRevisionReference).

Definition commit_repoPath (c : CommitArg) : string :=
  match c with IsGitCommit g => gc_repoPath g | RefOnly r => rev_repoPath r end.

Definition commit_ref (c : CommitArg) : string :=
  match c with IsGitCommit g => gc_ref g | RefOnly r => rev_ref r end.

(** What [GitReference.toString] is applied to by the reveal operations. *)
Inductive GitReference :=
| RefBranch (b : GitBranchReference)
| RefCommit (c : CommitArg)
| RefStash (s : GitStashReference)
| RefTag (t : GitTagReference).

(** Options of [container.git.getCommitBranches]. *)
Record CommitBranchesOptions := {
  commitDate : option Z;
  remotes : option bool
}.

(** ** View nodes

    The node classes imported from [./nodes].  A class that declares a git
    model property carries it: [BranchNode.branch], [RemoteNode.remote], the
    [commit] of a commit node and the [tag] of a tag node; [OtherNode] stands
    for every class the view does not name. *)

Inductive NodeKind :=
| RepositoriesNode
| RepositoryNode
| BranchesNode
| BranchNode (branch : GitBranchReference)
| BranchOrTagFolderNode
| BranchTrackingStatusNode
| CompareBranchNode
| ContributorNode
| ContributorsNode
| ReflogNode
| RemoteNode (remote : GitRemote)
| RemotesNode
| StashesNode
| StashNode
| TagsNode
| WorktreeNode
| WorktreesNode
| CommitNode (commit : GitRevisionReference)
| TagNode (tag : GitTagReference)
| OtherNode.

(** A node with its lazily produced children: [node_pages] lists the pages in
    which the children arrive, the first on [getChildren], each later one on a
    'load more'. *)
#[warnings="-register-all"]
Inductive Node := MkNode {
  node_id : string;
  node_kind : NodeKind;
  node_pages : list (list Node)
}.

(** [n instanceof C] for the classes the query builders test. *)
Definition isRepositoriesNode (n : Node) : bool :=
  match node_kind n with RepositoriesNode => true | _ => false end.
Definition isRepositoryNode (n : Node) : bool :=
  match node_kind n with RepositoryNode => true | _ => false end.
Definition isBranchesNode (n : Node) : bool :=
  match node_kind n with BranchesNode => true | _ => false end.
Definition isBranchNode (n : Node) : bool :=
  match node_kind n with BranchNode _ => true | _ => false end.
Definition isBranchOrTagFolderNode (n : Node) : bool :=
  match node_kind n with BranchOrTagFolderNode => true | _ => false end.
Definition isContributorsNode (n : Node) : bool :=
  match node_kind n with ContributorsNode => true | _ => false end.
Definition isRemoteNode (n : Node) : bool :=
  match node_kind n with RemoteNode _ => true | _ => false end.
Definition isRemotesNode (n : Node) : bool :=
  match node_kind n with RemotesNode => true | _ => false end.
Definition isStashesNode (n : Node) : bool :=
  match node_kind n with StashesNode => true | _ => false end.
Definition isTagsNode (n : Node) : bool :=
  match node_kind n with TagsNode => true | _ => false end.
Definition isWorktreesNode (n : Node) : bool :=
  match node_kind n with WorktreesNode => true | _ => false end.

(** The properties the matchers read through [(n: any)]; [None] is
    [undefined]. *)
Definition node_branch (n : Node) : option GitBranchReference :=
  match node_kind n with BranchNode b => Some b | _ => None end.
Definition node_remote (n : Node) : option GitRemote :=
  match node_kind n with RemoteNode r => Some r | _ => None end.
Definition node_commit (n : Node) : option GitRevisionReference :=
  match node_kind n with CommitNode c => Some c | _ => None end.
Definition node_tag (n : Node) : option GitTagReference :=
  match node_kind n with TagNode t => Some t | _ => None end.

(** [id.startsWith(prefix)] and [list.includes(x)]. *)
Definition startsWith (s pre : string) : bool := String.prefix pre s.

Definition includes (l : list string) (x : string) : bool :=
  existsb (String.eqb x) l.

(** [b.split('/', 1)[0]]: the text before the first slash, all of [b] when it
    has none. *)
Fixpoint split_slash_first (b : string) : string :=
  match b with
  | EmptyString => EmptyString
  | String c rest =>
      if Ascii.eqb c "/"%char then EmptyString
      else String c (split_slash_first rest)
  end.

(** ** Search options and the event log *)

(** A position in the tree: the child indices from the search root down.  A
    located node is returned with its position. *)
Abbreviation Path := (list nat).

(** A cancellation token, seen from the search: the length of the event log
    from which [isCancellationRequested] reads true. *)
Inductive CancellationToken :=
| NeverCancelled
| CancelledFrom (t : nat).

(** The node methods a [canTraverse] callback awaits before it answers. *)
Inductive NodeCall :=
| LoadMoreUntil (ref : string).

(** The options object of [findNode].  [canTraverse] answers with the calls it
    awaited on the node and its verdict. *)
Record FindOptions := {
  allowPaging : option bool;
  maxDepth : nat;
  canTraverse : option (Node → list NodeCall * bool);
  token : option CancellationToken
}.

Record RevealOptions := {
  select : option bool;
  focus : option bool;
  expand : option (bool + nat)
}.

(** What the view does that is seen outside it, in the order it happens:
    the provider call [getCommitBranches]; in a walk, a node popped from the
    frontier ([EvVisit]), the matcher applied to a node ([EvTest]),
    [canTraverse] evaluated on it ([EvCanTraverse]) with the [loadMore] it
    awaits ([EvLoadMoreUntil]), the children of a node asked for
    ([EvChildren]) and one more page of them ([EvLoadMore]); the progress
    notification of [window.withProgress]; the calls of [ensureRevealNode]
    and [reveal]; a message dialog. *)
Inductive Event :=
| EvGetCommitBranches (repoPath ref : string) (o : option CommitBranchesOptions)
| EvVisit (p : Path)
| EvTest (p : Path)
| EvCanTraverse (p : Path)
| EvLoadMoreUntil (p : Path) (ref : string)
| EvChildren (p : Path)
| EvLoadMore (p : Path)
| EvWithProgress (title : string)
| EvEnsureRevealNode (p : Path) (o : option RevealOptions)
| EvReveal (p : Path) (o : option RevealOptions)
| EvShowMessage (text : string).

Abbreviation Trace := (list Event).

(** ** The traversal engine ([ViewBase.findNode])

    [RepositoriesView] inherits [findNode] from [ViewBase] ([./viewBase]).
    The definitions of this section follow the algorithm the specification
    gives for it (section 4.1, steps 1 to 7, and the options table of
    section 3).  The Tree Index of the specification is a cache in front of
    [getChildren]; the model asks the node each time and logs the request. *)

(** Modelled from the spec: the first argument of [ViewBase.findNode], a node
    id (matched by exact equality) or a predicate on nodes. *)
Inductive Matcher :=
| ById (id : string)
| ByPredicate (f : Node → bool).

Definition matches (m : Matcher) (n : Node) : bool :=
  match m with
  | ById id => String.eqb (node_id n) id
  | ByPredicate f => f n
  end.

(** Modelled from the spec: how a walk of [ViewBase.findNode] ends; a
    cancelled walk is a terminal state of its own, not a failure. *)
Inductive Outcome :=
| Found (r : Path * Node)
| NotFound
| Cancelled.

(** Modelled from the spec: the token read of [ViewBase.findNode],
    [token?.isCancellationRequested], when the event log is [tr]; an absent
    token is never cancelled. *)
Definition isCancellationRequested (tok : option CancellationToken) (tr : Trace) : bool :=
  match tok with
  | Some (CancelledFrom t) => Nat.leb t (length tr)
  | _ => false
  end.

(** All the children a node can ever produce, in their natural order. *)
Definition children_of (n : Node) : list Node := concat (node_pages n).

Fixpoint nodeAt (root : Node) (p : Path) : option Node :=
  match p with
  | [] => Some root
  | i :: p' =>
      match children_of root !! i with
      | Some c => nodeAt c p'
      | None => None
      end
  end.

(** The children [cs] of the node at [p], paired with their positions, the
    first of them being child number [i]. *)
Fixpoint indexed (p : Path) (i : nat) (cs : list Node) : list (Path * Node) :=
  match cs with
  | [] => []
  | c :: cs' => (p ++ [i], c) :: indexed p (S i) cs'
  end.

Definition has_commit_ref (ref : string) (n : Node) : bool :=
  match node_commit n with
  | Some c => String.eqb (rev_ref c) ref
  | None => false
  end.

(** Modelled from the spec: [getChildren] of a node class ([./nodes])
    materializes the first page of the node's children; the second component
    is what is left to page in. *)
Definition firstPage (pages : list (list Node)) : list Node * list (list Node) :=
  match pages with
  | [] => ([], [])
  | pg :: rest => (pg, rest)
  end.

(** Modelled from the spec: [BranchNode.loadMore({ until: ref })] ([./nodes]),
    the 'load more until ref' operation, which pages the children in until a
    child for the reference has arrived (or no page is left). *)
Fixpoint loadUntil (ref : string) (pages : list (list Node)) : list Node * list (list Node) :=
  match pages with
  | [] => ([], [])
  | pg :: rest =>
      if existsb (has_commit_ref ref) pg then (pg, rest)
      else let '(m, r) := loadUntil ref rest in (pg ++ m, r)
  end.

(** Modelled from the spec: what [getChildren] hands [ViewBase.findNode] for
    the node [n], given the calls [canTraverse] awaited on [n] before. *)
Definition materialize (calls : list NodeCall) (n : Node) : list Node * list (list Node) :=
  match calls with
  | LoadMoreUntil ref :: _ => loadUntil ref (node_pages n)
  | [] => firstPage (node_pages n)
  end.

Definition callEvents (p : Path) (calls : list NodeCall) : Trace :=
  map (λ c, match c with LoadMoreUntil ref => EvLoadMoreUntil p ref end) calls.

(** Modelled from the spec: inside [ViewBase.findNode], the matcher applied
    to the children [cs] of the node at [p] in order, up to the first match. *)
Fixpoint scan (m : Matcher) (p : Path) (i : nat) (cs : list Node) (tr : Trace)
  : option (Path * Node) * Trace :=
  match cs with
  | [] => (None, tr)
  | c :: cs' =>
      let tr1 := tr ++ [EvTest (p ++ [i])] in
      if matches m c then (Some (p ++ [i], c), tr1)
      else scan m p (S i) cs' tr1
  end.

Inductive PageResult :=
| PageFound (r : Path * Node) (tr : Trace)
| PageCancelled (tr : Trace)
| PageExhausted (tr : Trace).

(** Modelled from the spec: the paging of [ViewBase.findNode] (step 6).  Once
    the materialized children [cur] hold no match, one more page is requested
    and evaluated, as long as pages are left; the token is read before each
    request and again when the request has completed. *)
Fixpoint pageLoop (tok : option CancellationToken) (m : Matcher) (p : Path)
    (i : nat) (cur : list Node) (rest : list (list Node)) (tr : Trace) : PageResult :=
  match scan m p i cur tr with
  | (Some r, tr1) => PageFound r tr1
  | (None, tr1) =>
      match rest with
      | [] => PageExhausted tr1
      | pg :: rest' =>
          if isCancellationRequested tok tr1 then PageCancelled tr1
          else
            let tr2 := tr1 ++ [EvLoadMore p] in
            if isCancellationRequested tok tr2 then PageCancelled tr2
            else pageLoop tok m p (i + length cur) pg rest' tr2
      end
  end.

Definition pagingAllowed (opts : FindOptions) : bool :=
  match allowPaging opts with Some b => b | None => false end.

Definition hasMore (rest : list (list Node)) : bool :=
  match rest with [] => false | _ :: _ => true end.

Inductive StepResult :=
| Done (o : Outcome) (tr : Trace)
| Next (q : list (Path * Node)) (tr : Trace).

(** Modelled from the spec: one turn of the loop of [ViewBase.findNode]
    (steps 2 to 7) on the frontier [q].  The token is read when a node is
    popped, before a fetch, and when the fetch has completed (section 5: a
    cancellation is observed at the suspension boundary).  The depth of a node
    is the length of its position, so the children of the search root are at
    depth 1. *)
Definition step (opts : FindOptions) (m : Matcher) (q : list (Path * Node)) (tr : Trace)
  : StepResult :=
  match q with
  | [] => Done NotFound tr
  | (p, n) :: q' =>
      if isCancellationRequested (token opts) tr then Done Cancelled tr
      else
        let tr1 := tr ++ [EvVisit p; EvTest p] in
        if matches m n then Done (Found (p, n)) tr1
        else if Nat.leb (maxDepth opts) (length p) then Next q' tr1
        else
          let '(calls, ok, tr2) :=
            match canTraverse opts with
            | Some f =>
                let '(calls, ok) := f n in
                (calls, ok, tr1 ++ EvCanTraverse p :: callEvents p calls)
            | None => ([], true, tr1)
            end in
          if negb ok then Next q' tr2
          else if isCancellationRequested (token opts) tr2 then Done Cancelled tr2
          else
            let '(cs, rest) := materialize calls n in
            let tr3 := tr2 ++ [EvChildren p] in
            if isCancellationRequested (token opts) tr3 then Done Cancelled tr3
            else if pagingAllowed opts && hasMore rest then
              match pageLoop (token opts) m p 0 cs rest tr3 with
              | PageFound r tr4 => Done (Found r) tr4
              | PageCancelled tr4 => Done Cancelled tr4
              | PageExhausted tr4 => Next (q' ++ indexed p 0 (cs ++ concat rest)) tr4
              end
            else Next (q' ++ indexed p 0 cs) tr3
  end.

(** Modelled from the spec: the loop of [ViewBase.findNode], run for at most
    [fuel] turns; [None] when the turns run out ([run_terminates]: they do
    not, from the size of the frontier on). *)
Fixpoint run (opts : FindOptions) (m : Matcher) (fuel : nat)
    (q : list (Path * Node)) (tr : Trace) : option Outcome * Trace :=
  match fuel with
  | 0 => (None, tr)
  | S fuel' =>
      match step opts m q tr with
      | Done o tr' => (Some o, tr')
      | Next q' tr' => run opts m fuel' q' tr'
      end
  end.

Fixpoint node_size (n : Node) : nat :=
  S (list_sum (map (λ pg, list_sum (map node_size pg)) (node_pages n))).

Definition queue_size (q : list (Path * Node)) : nat :=
  list_sum (map (λ e, node_size (snd e)) q).

(** Modelled from the spec: [ViewBase.findNode] from its start (step 1).  The
    frontier is seeded with the children of the root, which is itself never
    tested; the walk then runs to its end. *)
Definition findNodeCore (root : Node) (m : Matcher) (opts : FindOptions) (tr : Trace)
  : option Outcome * Trace :=
  if isCancellationRequested (token opts) tr then (Some Cancelled, tr)
  else
    let '(cs, _) := firstPage (node_pages root) in
    run opts m (node_size root) (indexed [] 0 cs) (tr ++ [EvChildren []]).

(** Modelled from the spec: [ViewBase.findNode(matcher, options)] on the tree
    under [root] resolves to the located node or to [undefined]; a cancelled
    walk is 'not found'. *)
Definition findNode (root : Node) (m : Matcher) (opts : FindOptions) (tr : Trace)
  : option (Path * Node) * Trace :=
  match findNodeCore root m opts tr with
  | (Some (Found r), tr') => (Some r, tr')
  | (_, tr') => (None, tr')
  end.

(** ** Declarations the view imports

    Static helpers of the node classes ([./nodes]) and git models
    ([../git/models]), and the git provider call of the container.  The view
    uses them through their signatures only, so they are parameters here. *)
Class Host := {
  RepositoryNode_getId : string → string;
  BranchesNode_getId : string → string;
  StashesNode_getId : string → string;
  TagsNode_getId : string → string;
  WorktreesNode_getId : string → string;
  StashNode_getId : string → string → string;
  WorktreeNode_getId : string → string → string;
  ContributorNode_getId : string → string → option string → option string → string;
  GitBranch_getRemote : string → string;
  (** [GitReference.toString(ref, { icon: false, quoted: true })] *)
  GitReference_toString : GitReference → string;
  (** [container.git.getCommitBranches(repoPath, ref, options)] *)
  getCommitBranches : string → string → option CommitBranchesOptions → list string
}.

Section QueryBuilders.
Context {host : Host}.

(** A synchronous [canTraverse] verdict. *)
Definition verdict (b : bool) : list NodeCall * bool := ([], b).

(** *** findBranch *)

Definition branchMatcher (branch : GitBranchReference) (n : Node) : bool :=
  match node_branch n with
  | Some b => String.eqb (br_ref b) (br_ref branch)
  | None => false
  end.

Definition findBranch_remote_canTraverse (repoNodeId : string)
    (branch : GitBranchReference) (n : Node) : list NodeCall * bool :=
  if isRepositoriesNode n then verdict true
  else
    match node_kind n with
    | RemoteNode remote =>
        if negb (startsWith (node_id n) repoNodeId) then verdict false
        else verdict (br_remote branch
                      && String.eqb (rm_name remote) (GitBranch_getRemote (br_name branch)))
    | _ =>
        if isRepositoryNode n || isBranchesNode n || isRemotesNode n
           || isBranchOrTagFolderNode n
        then verdict (startsWith (node_id n) repoNodeId)
        else verdict false
    end.

Definition findBranch_local_canTraverse (repoNodeId : string) (n : Node)
  : list NodeCall * bool :=
  if isRepositoriesNode n then verdict true
  else if isRepositoryNode n || isBranchesNode n || isBranchOrTagFolderNode n
  then verdict (startsWith (node_id n) repoNodeId)
  else verdict false.

Definition findBranch_remote_options (branch : GitBranchReference)
    (tok : option CancellationToken) : FindOptions :=
  {| allowPaging := Some true;
     maxDepth := 6;
     canTraverse :=
       Some (findBranch_remote_canTraverse (RepositoryNode_getId (br_repoPath branch)) branch);
     token := tok |}.

Definition findBranch_local_options (branch : GitBranchReference)
    (tok : option CancellationToken) : FindOptions :=
  {| allowPaging := Some true;
     maxDepth := 5;
     canTraverse :=
       Some (findBranch_local_canTraverse (RepositoryNode_getId (br_repoPath branch)));
     token := tok |}.

Definition findBranch (root : Node) (branch : GitBranchReference)
    (tok : option CancellationToken) (tr : Trace) : option (Path * Node) * Trace :=
  if br_remote branch then
    findNode root (ByPredicate (branchMatcher branch)) (findBranch_remote_options branch tok) tr
  else
    findNode root (ByPredicate (branchMatcher branch)) (findBranch_local_options branch tok) tr.

(** *** findCommit *)

Definition commitMatcher (commit : CommitArg) (n : Node) : bool :=
  match node_commit n with
  | Some c => String.eqb (rev_ref c) (commit_ref commit)
  | None => false
  end.

(** The first [if] on a [BranchNode] either answers or falls through. *)
Definition findCommit_local_branchCase (repoNodeId : string) (branches : list string)
    (commit : CommitArg) (n : Node) : option (list NodeCall * bool) :=
  match node_kind n with
  | BranchNode branch =>
      if startsWith (node_id n) repoNodeId && includes branches (br_name branch)
      then Some ([LoadMoreUntil (commit_ref commit)], true)
      else None
  | _ => None
  end.

Definition findCommit_local_canTraverse (repoNodeId : string) (branches : list string)
    (commit : CommitArg) (n : Node) : list NodeCall * bool :=
  if isRepositoriesNode n then verdict true
  else
    match findCommit_local_branchCase repoNodeId branches commit n with
    | Some answer => answer
    | None =>
        if isRepositoryNode n || isBranchesNode n || isBranchOrTagFolderNode n
        then verdict (startsWith (node_id n) repoNodeId)
        else verdict false
    end.

Definition findCommit_remote_canTraverse (repoNodeId : string)
    (branches remoteNames : list string) (n : Node) : list NodeCall * bool :=
  if isRepositoriesNode n then verdict true
  else
    match node_kind n with
    | RemoteNode remote =>
        verdict (startsWith (node_id n) repoNodeId && includes remoteNames (rm_name remote))
    | BranchNode branch =>
        verdict (startsWith (node_id n) repoNodeId && includes branches (br_name branch))
    | _ =>
        if isRepositoryNode n || isRemotesNode n || isBranchOrTagFolderNode n
        then verdict (startsWith (node_id n) repoNodeId)
        else verdict false
    end.

Definition findCommit_local_options (commit : CommitArg) (branches : list string)
    (tok : option CancellationToken) : FindOptions :=
  {| allowPaging := Some true;
     maxDepth := 6;
     canTraverse :=
       Some (findCommit_local_canTraverse
               (RepositoryNode_getId (commit_repoPath commit)) branches commit);
     token := tok |}.

Definition findCommit_remote_options (commit : CommitArg) (branches : list string)
    (tok : option CancellationToken) : FindOptions :=
  {| allowPaging := Some true;
     maxDepth := 8;
     canTraverse :=
       Some (findCommit_remote_canTraverse
               (RepositoryNode_getId (commit_repoPath commit)) branches
               (map split_slash_first branches));
     token := tok |}.

Definition findCommit_local_query (commit : CommitArg) : option CommitBranchesOptions :=
  match commit with
  | IsGitCommit c => Some {| commitDate := Some (gc_committer_date c); remotes := None |}
  | RefOnly _ => None
  end.

Definition findCommit_remote_query (commit : CommitArg) : option CommitBranchesOptions :=
  match commit with
  | IsGitCommit c => Some {| commitDate := Some (gc_committer_date c); remotes := Some true |}
  | RefOnly _ => Some {| commitDate := None; remotes := Some true |}
  end.

Definition findCommit (root : Node) (commit : CommitArg)
    (tok : option CancellationToken) (tr : Trace) : option (Path * Node) * Trace :=
  let q1 := findCommit_local_query commit in
  let branches := getCommitBranches (commit_repoPath commit) (commit_ref commit) q1 in
  let tr1 := tr ++ [EvGetCommitBranches (commit_repoPath commit) (commit_ref commit) q1] in
  if negb (Nat.eqb (length branches) 0) then
    findNode root (ByPredicate (commitMatcher commit))
      (findCommit_local_options commit branches tok) tr1
  else
    let q2 := findCommit_remote_query commit in
    let branches := getCommitBranches (commit_repoPath commit) (commit_ref commit) q2 in
    let tr2 := tr1 ++ [EvGetCommitBranches (commit_repoPath commit) (commit_ref commit) q2] in
    if Nat.eqb (length branches) 0 then (None, tr2)
    else
      findNode root (ByPredicate (commitMatcher commit))
        (findCommit_remote_options commit branches tok) tr2.

(** *** findContributor, findRemote, findStash, findTag, findWorktree *)

Definition findContributor_canTraverse (repoNodeId : string) (n : Node)
  : list NodeCall * bool :=
  if isRepositoriesNode n then verdict true
  else if isRepositoryNode n || isContributorsNode n
  then verdict (startsWith (node_id n) repoNodeId)
  else verdict false.

Definition findContributor_options (contributor : GitContributor)
    (tok : option CancellationToken) : FindOptions :=
  {| allowPaging := None;
     maxDepth := 2;
     canTraverse :=
       Some (findContributor_canTraverse (RepositoryNode_getId (ct_repoPath contributor)));
     token := tok |}.

Definition findContributor (root : Node) (contributor : GitContributor)
    (tok : option CancellationToken) (tr : Trace) : option (Path * Node) * Trace :=
  findNode root
    (ById (ContributorNode_getId (ct_repoPath contributor) (ct_name contributor)
             (ct_email contributor) (ct_username contributor)))
    (findContributor_options contributor tok) tr.

Definition remoteMatcher (remote : GitRemote) (n : Node) : bool :=
  match node_remote n with
  | Some r => String.eqb (rm_name r) (rm_name remote)
  | None => false
  end.

Definition findRemote_canTraverse (repoNodeId : string) (n : Node)
  : list NodeCall * bool :=
  if isRepositoriesNode n then verdict true
  else if isRepositoryNode n || isRemotesNode n
  then verdict (startsWith (node_id n) repoNodeId)
  else verdict false.

Definition findRemote_options (remote : GitRemote) (tok : option CancellationToken)
  : FindOptions :=
  {| allowPaging := Some true;
     maxDepth := 2;
     canTraverse := Some (findRemote_canTraverse (RepositoryNode_getId (rm_repoPath remote)));
     token := tok |}.

Definition findRemote (root : Node) (remote : GitRemote)
    (tok : option CancellationToken) (tr : Trace) : option (Path * Node) * Trace :=
  findNode root (ByPredicate (remoteMatcher remote)) (findRemote_options remote tok) tr.

Definition findStash_canTraverse (repoNodeId : string) (n : Node)
  : list NodeCall * bool :=
  if isRepositoriesNode n then verdict true
  else if isRepositoryNode n || isStashesNode n
  then verdict (startsWith (node_id n) repoNodeId)
  else verdict false.

Definition findStash_options (stash : GitStashReference) (tok : option CancellationToken)
  : FindOptions :=
  {| allowPaging := None;
     maxDepth := 3;
     canTraverse := Some (findStash_canTraverse (RepositoryNode_getId (st_repoPath stash)));
     token := tok |}.

Definition findStash (root : Node) (stash : GitStashReference)
    (tok : option CancellationToken) (tr : Trace) : option (Path * Node) * Trace :=
  findNode root (ById (StashNode_getId (st_repoPath stash) (st_ref stash)))
    (findStash_options stash tok) tr.

Definition tagMatcher (tag : GitTagReference) (n : Node) : bool :=
  match node_tag n with
  | Some t => String.eqb (tg_ref t) (tg_ref tag)
  | None => false
  end.

Definition findTag_canTraverse (repoNodeId : string) (n : Node)
  : list NodeCall * bool :=
  if isRepositoriesNode n then verdict true
  else if isRepositoryNode n || isTagsNode n || isBranchOrTagFolderNode n
  then verdict (startsWith (node_id n) repoNodeId)
  else verdict false.

Definition findTag_options (tag : GitTagReference) (tok : option CancellationToken)
  : FindOptions :=
  {| allowPaging := Some true;
     maxDepth := 5;
     canTraverse := Some (findTag_canTraverse (RepositoryNode_getId (tg_repoPath tag)));
     token := tok |}.

Definition findTag (root : Node) (tag : GitTagReference)
    (tok : option CancellationToken) (tr : Trace) : option (Path * Node) * Trace :=
  findNode root (ByPredicate (tagMatcher tag)) (findTag_options tag tok) tr.

Definition findWorktree_canTraverse (repoNodeId : string) (n : Node)
  : list NodeCall * bool :=
  if isRepositoriesNode n then verdict true
  else if isRepositoryNode n || isWorktreesNode n
  then verdict (startsWith (node_id n) repoNodeId)
  else verdict false.

Definition findWorktree_options (worktree : GitWorktree) (tok : option CancellationToken)
  : FindOptions :=
  {| allowPaging := None;
     maxDepth := 2;
     canTraverse :=
       Some (findWorktree_canTraverse (RepositoryNode_getId (wt_repoPath worktree)));
     token := tok |}.

Definition findWorktree (root : Node) (worktree : GitWorktree)
    (tok : option CancellationToken) (tr : Trace) : option (Path * Node) * Trace :=
  findNode root (ById (WorktreeNode_getId (wt_repoPath worktree) (wt_uri worktree)))
    (findWorktree_options worktree tok) tr.

(** *** The reveal operations

    [reveal] and [ensureRevealNode] belong to [ViewBase]; every expand, select
    and focus request of the view is issued inside one of them, so a call is
    logged as a single event.  [window.withProgress] logs the progress
    notification and hands its task the token of the notification's cancel
    button.  The [@gate] decorator of the methods is treated apart, below. *)

Definition withProgress {A} (title : string) (userToken : CancellationToken)
    (task : option CancellationToken → Trace → A * Trace) (tr : Trace) : A * Trace :=
  task (Some userToken) (tr ++ [EvWithProgress title]).

(** [if (node == null) return undefined; await this.ensureRevealNode(node, options);
    return node;] *)
Definition ensureRevealFound (options : option RevealOptions)
    (found : option (Path * Node) * Trace) : option (Path * Node) * Trace :=
  match found with
  | (None, tr) => (None, tr)
  | (Some (p, n), tr) => (Some (p, n), tr ++ [EvEnsureRevealNode p options])
  end.

(** [if (node !== undefined) { await this.reveal(node, options); } return node;] *)
Definition revealFound (options : option RevealOptions)
    (found : option (Path * Node) * Trace) : option (Path * Node) * Trace :=
  match found with
  | (Some (p, n), tr) => (Some (p, n), tr ++ [EvReveal p options])
  | (None, tr) => (None, tr)
  end.

Definition revealBranch (root : Node) (branch : GitBranchReference)
    (options : option RevealOptions) (userToken : CancellationToken) (tr : Trace)
  : option (Path * Node) * Trace :=
  withProgress
    ("Revealing " +:+ GitReference_toString (RefBranch branch)
       +:+ " in the Repositories view...")
    userToken
    (λ token tr, ensureRevealFound options (findBranch root branch token tr)) tr.

(** The parent-only [canTraverse] shared, word for word, by [revealBranches],
    [revealStashes], [revealTags] and [revealWorktrees]. *)
Definition section_canTraverse (repoNodeId : string) (n : Node) : list NodeCall * bool :=
  if isRepositoriesNode n then verdict true
  else if isRepositoryNode n then verdict (startsWith (node_id n) repoNodeId)
  else verdict false.

Definition section_options (repoPath : string) : FindOptions :=
  {| allowPaging := None;
     maxDepth := 2;
     canTraverse := Some (section_canTraverse (RepositoryNode_getId repoPath));
     token := None |}.

Definition revealBranches (root : Node) (repoPath : string)
    (options : option RevealOptions) (tr : Trace) : option (Path * Node) * Trace :=
  revealFound options
    (findNode root (ById (BranchesNode_getId repoPath)) (section_options repoPath) tr).

Definition revealCommit (root : Node) (commit : CommitArg)
    (options : option RevealOptions) (userToken : CancellationToken) (tr : Trace)
  : option (Path * Node) * Trace :=
  withProgress
    ("Revealing " +:+ GitReference_toString (RefCommit commit)
       +:+ " in the Repositories view...")
    userToken
    (λ token tr, ensureRevealFound options (findCommit root commit token tr)) tr.

Definition revealContributor (root : Node) (contributor : GitContributor)
    (options : option RevealOptions) (userToken : CancellationToken) (tr : Trace)
  : option (Path * Node) * Trace :=
  withProgress
    ("Revealing contributor '" +:+ ct_name contributor +:+ " in the Repositories view...")
    userToken
    (λ token tr, ensureRevealFound options (findContributor root contributor token tr)) tr.

Definition revealRemote (root : Node) (remote : GitRemote)
    (options : option RevealOptions) (userToken : CancellationToken) (tr : Trace)
  : option (Path * Node) * Trace :=
  withProgress
    ("Revealing remote '" +:+ rm_name remote +:+ "' in the side bar...")
    userToken
    (λ token tr, ensureRevealFound options (findRemote root remote token tr)) tr.

Definition revealRepository_options : FindOptions :=
  {| allowPaging := None;
     maxDepth := 1;
     canTraverse := Some (λ n, verdict (isRepositoriesNode n));
     token := None |}.

Definition revealRepository (root : Node) (repoPath : string)
    (options : option RevealOptions) (tr : Trace) : option (Path * Node) * Trace :=
  revealFound options
    (findNode root (ById (RepositoryNode_getId repoPath)) revealRepository_options tr).

Definition revealStash (root : Node) (stash : GitStashReference)
    (options : option RevealOptions) (userToken : CancellationToken) (tr : Trace)
  : option (Path * Node) * Trace :=
  withProgress
    ("Revealing " +:+ GitReference_toString (RefStash stash)
       +:+ " in the Repositories view...")
    userToken
    (λ token tr, revealFound options (findStash root stash token tr)) tr.

Definition revealStashes (root : Node) (repoPath : string)
    (options : option RevealOptions) (tr : Trace) : option (Path * Node) * Trace :=
  revealFound options
    (findNode root (ById (StashesNode_getId repoPath)) (section_options repoPath) tr).

Definition revealTag (root : Node) (tag : GitTagReference)
    (options : option RevealOptions) (userToken : CancellationToken) (tr : Trace)
  : option (Path * Node) * Trace :=
  withProgress
    ("Revealing " +:+ GitReference_toString (RefTag tag)
       +:+ " in the Repositories view...")
    userToken
    (λ token tr, ensureRevealFound options (findTag root tag token tr)) tr.

Definition revealTags (root : Node) (repoPath : string)
    (options : option RevealOptions) (tr : Trace) : option (Path * Node) * Trace :=
  revealFound options
    (findNode root (ById (TagsNode_getId repoPath)) (section_options repoPath) tr).

Definition revealWorktree (root : Node) (worktree : GitWorktree)
    (options : option RevealOptions) (userToken : CancellationToken) (tr : Trace)
  : option (Path * Node) * Trace :=
  withProgress
    ("Revealing worktree '" +:+ wt_name worktree +:+ "' in the side bar...")
    userToken
    (λ token tr, ensureRevealFound options (findWorktree root worktree token tr)) tr.

Definition revealWorktrees (root : Node) (repoPath : string)
    (options : option RevealOptions) (tr : Trace) : option (Path * Node) * Trace :=
  revealFound options
    (findNode root (ById (WorktreesNode_getId repoPath)) (section_options repoPath) tr).

End QueryBuilders.

(** ** A sample repository tree *)

Definition sampleHost : Host := {|
  RepositoryNode_getId := λ repoPath, "gitlens:repository(" +:+ repoPath +:+ ")";
  BranchesNode_getId := λ repoPath, "gitlens:repository(" +:+ repoPath +:+ "):branches";
  StashesNode_getId := λ repoPath, "gitlens:repository(" +:+ repoPath +:+ "):stashes";
  TagsNode_getId := λ repoPath, "gitlens:repository(" +:+ repoPath +:+ "):tags";
  WorktreesNode_getId := λ repoPath, "gitlens:repository(" +:+ repoPath +:+ "):worktrees";
  StashNode_getId := λ repoPath ref,
    "gitlens:repository(" +:+ repoPath +:+ "):stash(" +:+ ref +:+ ")";
  WorktreeNode_getId := λ repoPath uri,
    "gitlens:repository(" +:+ repoPath +:+ "):worktree(" +:+ uri +:+ ")";
  ContributorNode_getId := λ repoPath name email username,
    "gitlens:repository(" +:+ repoPath +:+ "):contributor(" +:+ name +:+ ")";
  GitBranch_getRemote := split_slash_first;
  GitReference_toString := λ r,
    match r with
    | RefBranch b => "branch '" +:+ br_name b +:+ "'"
    | RefCommit c => "commit '" +:+ commit_ref c +:+ "'"
    | RefStash s => "stash '" +:+ st_ref s +:+ "'"
    | RefTag t => "tag '" +:+ tg_ref t +:+ "'"
    end;
  getCommitBranches := λ repoPath ref o,
    match o with
    | Some {| remotes := Some true |} =>
        if String.eqb ref "c3" then ["origin/feature"] else []
    | _ => if String.eqb ref "c2" then ["main"] else []
    end
|}.

Definition leaf (id : string) (k : NodeKind) : Node := MkNode id k [].

Definition sampleCommit (repo branch ref : string) : Node :=
  leaf (repo +:+ ":branch(" +:+ branch +:+ "):commit(" +:+ ref +:+ ")")
       (CommitNode {| rev_repoPath := "/r"; rev_ref := ref |}).

Definition sampleBranch (repo name : string) (isRemote : bool) (pages : list (list Node))
  : Node :=
  MkNode (repo +:+ ":branch(" +:+ name +:+ ")")
         (BranchNode {| br_repoPath := "/r"; br_name := name; br_ref := name;
                        br_remote := isRemote |})
         pages.

Definition sampleRemote (repo name : string) (branches : list Node) : Node :=
  MkNode (repo +:+ ":remote(" +:+ name +:+ ")")
         (RemoteNode {| rm_repoPath := "/r"; rm_name := name |})
         [branches].

(** One repository [/r]: local branches [main] (history in two pages) and
    [feature/x], remotes [origin] and [upstream], a stash, a tag and a
    worktree. *)
Definition sampleRepoId : string := "gitlens:repository(/r)".

Definition sampleMain : Node :=
  sampleBranch sampleRepoId "main" false
    [[sampleCommit sampleRepoId "main" "c1"]; [sampleCommit sampleRepoId "main" "c2"]].

Definition sampleBranches : Node :=
  MkNode (sampleRepoId +:+ ":branches") BranchesNode
    [[ sampleMain;
       sampleBranch sampleRepoId "feature/x" false
         [[sampleCommit sampleRepoId "feature/x" "c4"]] ]].

Definition sampleOrigin : Node :=
  sampleRemote sampleRepoId "origin"
    [sampleBranch sampleRepoId "origin/feature" true
       [[sampleCommit sampleRepoId "origin/feature" "c3"]]].

Definition sampleUpstream : Node :=
  sampleRemote sampleRepoId "upstream"
    [sampleBranch sampleRepoId "upstream/main" true
       [[sampleCommit sampleRepoId "upstream/main" "c1"]]].

Definition sampleRemotes : Node :=
  MkNode (sampleRepoId +:+ ":remotes") RemotesNode [[sampleOrigin; sampleUpstream]].

Definition sampleRepo : Node :=
  MkNode sampleRepoId RepositoryNode
    [[ sampleBranches;
       sampleRemotes;
       MkNode (sampleRepoId +:+ ":stashes") StashesNode
         [[leaf (sampleRepoId +:+ ":stash(s0)") StashNode]];
       MkNode (sampleRepoId +:+ ":tags") TagsNode
         [[leaf (sampleRepoId +:+ ":tag(v1)")
             (TagNode {| tg_repoPath := "/r"; tg_ref := "v1" |})]];
       MkNode (sampleRepoId +:+ ":worktrees") WorktreesNode
         [[leaf (sampleRepoId +:+ ":worktree(file:///w)") WorktreeNode]] ]].

Definition sampleRoot : Node :=
  MkNode "gitlens:repositories" RepositoriesNode [[sampleRepo]].

(** The same repository when it is the only one open: the root then shows
    the sections of the repository directly. *)
Definition singleRepoRoot : Node :=
  MkNode "gitlens:repositories" RepositoriesNode (node_pages sampleRepo).

Definition worktreeW : GitWorktree :=
  {| wt_repoPath := "/r"; wt_uri := "file:///w"; wt_name := "w" |}.

Definition mainBranch : GitBranchReference :=
  {| br_repoPath := "/r"; br_name := "main"; br_ref := "main"; br_remote := false |}.

Definition originFeature : GitBranchReference :=
  {| br_repoPath := "/r"; br_name := "origin/feature"; br_ref := "origin/feature";
     br_remote := true |}.

Definition commitC2 : CommitArg := RefOnly {| rev_repoPath := "/r"; rev_ref := "c2" |}.
Definition commitC3 : CommitArg := RefOnly {| rev_repoPath := "/r"; rev_ref := "c3" |}.
Definition commitUnknown : CommitArg := RefOnly {| rev_repoPath := "/r"; rev_ref := "zz" |}.

Definition stashS0 : GitStashReference := {| st_repoPath := "/r"; st_ref := "s0" |}.
Definition stashMissing : GitStashReference := {| st_repoPath := "/r"; st_ref := "s9" |}.

(** A branch whose history arrives in three pages, the commit [a3] on the
    third; and a search for that commit with and without paging. *)
Definition pagedRoot : Node :=
  MkNode "gitlens:repositories" RepositoriesNode
    [[ sampleBranch sampleRepoId "paged" false
         [[sampleCommit sampleRepoId "paged" "a1"];
          [sampleCommit sampleRepoId "paged" "a2"];
          [sampleCommit sampleRepoId "paged" "a3"]] ]].

Definition commitA3 : CommitArg := RefOnly {| rev_repoPath := "/r"; rev_ref := "a3" |}.

Definition pagedOptions (paging : option bool) : FindOptions :=
  {| allowPaging := paging; maxDepth := 3; canTraverse := None; token := None |}.

(** ** The searches and reveals of the view, enumerated *)

Section Enumerations.
Context {host : Host}.

(** One constructor for each options object the view hands to [findNode];
    for a commit search, [branches] is what the provider answered. *)
Inductive Query :=
| QBranch (branch : GitBranchReference)
| QCommitLocal (commit : CommitArg) (branches : list string)
| QCommitRemote (commit : CommitArg) (branches : list string)
| QContributor (contributor : GitContributor)
| QRemote (remote : GitRemote)
| QStash (stash : GitStashReference)
| QTag (tag : GitTagReference)
| QWorktree (worktree : GitWorktree)
| QSection (repoPath : string)
| QRepository (repoPath : string).

Definition query_options (q : Query) (tok : option CancellationToken) : FindOptions :=
  match q with
  | QBranch branch =>
      if br_remote branch then findBranch_remote_options branch tok
      else findBranch_local_options branch tok
  | QCommitLocal commit branches => findCommit_local_options commit branches tok
  | QCommitRemote commit branches => findCommit_remote_options commit branches tok
  | QContributor contributor => findContributor_options contributor tok
  | QRemote remote => findRemote_options remote tok
  | QStash stash => findStash_options stash tok
  | QTag tag => findTag_options tag tok
  | QWorktree worktree => findWorktree_options worktree tok
  | QSection repoPath => section_options repoPath
  | QRepository _ => revealRepository_options
  end.

Definition query_repoPath (q : Query) : string :=
  match q with
  | QBranch branch => br_repoPath branch
  | QCommitLocal commit _ | QCommitRemote commit _ => commit_repoPath commit
  | QContributor contributor => ct_repoPath contributor
  | QRemote remote => rm_repoPath remote
  | QStash stash => st_repoPath stash
  | QTag tag => tg_repoPath tag
  | QWorktree worktree => wt_repoPath worktree
  | QSection repoPath | QRepository repoPath => repoPath
  end.

(** A call of one of the reveal operations, with its arguments; the token is
    the one [withProgress] creates for the call. *)
Inductive RevealCall :=
| CallRevealBranch (branch : GitBranchReference) (userToken : CancellationToken)
| CallRevealBranches (repoPath : string)
| CallRevealCommit (commit : CommitArg) (userToken : CancellationToken)
| CallRevealContributor (contributor : GitContributor) (userToken : CancellationToken)
| CallRevealRemote (remote : GitRemote) (userToken : CancellationToken)
| CallRevealRepository (repoPath : string)
| CallRevealStash (stash : GitStashReference) (userToken : CancellationToken)
| CallRevealStashes (repoPath : string)
| CallRevealTag (tag : GitTagReference) (userToken : CancellationToken)
| CallRevealTags (repoPath : string)
| CallRevealWorktree (worktree : GitWorktree) (userToken : CancellationToken)
| CallRevealWorktrees (repoPath : string).

Definition runReveal (root : Node) (c : RevealCall) (options : option RevealOptions)
    (tr : Trace) : option (Path * Node) * Trace :=
  match c with
  | CallRevealBranch branch t => revealBranch root branch options t tr
  | CallRevealBranches repoPath => revealBranches root repoPath options tr
  | CallRevealCommit commit t => revealCommit root commit options t tr
  | CallRevealContributor contributor t => revealContributor root contributor options t tr
  | CallRevealRemote remote t => revealRemote root remote options t tr
  | CallRevealRepository repoPath => revealRepository root repoPath options tr
  | CallRevealStash stash t => revealStash root stash options t tr
  | CallRevealStashes repoPath => revealStashes root repoPath options tr
  | CallRevealTag tag t => revealTag root tag options t tr
  | CallRevealTags repoPath => revealTags root repoPath options tr
  | CallRevealWorktree worktree t => revealWorktree root worktree options t tr
  | CallRevealWorktrees repoPath => revealWorktrees root repoPath options tr
  end.

(** The find a reveal call awaits first, on the log as it stands when the
    find starts. *)
Definition underlyingFind (root : Node) (c : RevealCall) (tr : Trace)
  : option (Path * Node) * Trace :=
  match c with
  | CallRevealBranch branch t =>
      findBranch root branch (Some t)
        (tr ++ [EvWithProgress ("Revealing " +:+ GitReference_toString (RefBranch branch)
                                  +:+ " in the Repositories view...")])
  | CallRevealBranches repoPath =>
      findNode root (ById (BranchesNode_getId repoPath)) (section_options repoPath) tr
  | CallRevealCommit commit t =>
      findCommit root commit (Some t)
        (tr ++ [EvWithProgress ("Revealing " +:+ GitReference_toString (RefCommit commit)
                                  +:+ " in the Repositories view...")])
  | CallRevealContributor contributor t =>
      findContributor root contributor (Some t)
        (tr ++ [EvWithProgress ("Revealing contributor '" +:+ ct_name contributor
                                  +:+ " in the Repositories view...")])
  | CallRevealRemote remote t =>
      findRemote root remote (Some t)
        (tr ++ [EvWithProgress ("Revealing remote '" +:+ rm_name remote
                                  +:+ "' in the side bar...")])
  | CallRevealRepository repoPath =>
      findNode root (ById (RepositoryNode_getId repoPath)) revealRepository_options tr
  | CallRevealStash stash t =>
      findStash root stash (Some t)
        (tr ++ [EvWithProgress ("Revealing " +:+ GitReference_toString (RefStash stash)
                                  +:+ " in the Repositories view...")])
  | CallRevealStashes repoPath =>
      findNode root (ById (StashesNode_getId repoPath)) (section_options repoPath) tr
  | CallRevealTag tag t =>
      findTag root tag (Some t)
        (tr ++ [EvWithProgress ("Revealing " +:+ GitReference_toString (RefTag tag)
                                  +:+ " in the Repositories view...")])
  | CallRevealTags repoPath =>
      findNode root (ById (TagsNode_getId repoPath)) (section_options repoPath) tr
  | CallRevealWorktree worktree t =>
      findWorktree root worktree (Some t)
        (tr ++ [EvWithProgress ("Revealing worktree '" +:+ wt_name worktree
                                  +:+ "' in the side bar...")])
  | CallRevealWorktrees repoPath =>
      findNode root (ById (WorktreesNode_getId repoPath)) (section_options repoPath) tr
  end.

End Enumerations.

(** The method a call goes to. *)
Definition revealName (c : RevealCall) : string :=
  match c with
  | CallRevealBranch _ _ => "revealBranch"
  | CallRevealBranches _ => "revealBranches"
  | CallRevealCommit _ _ => "revealCommit"
  | CallRevealContributor _ _ => "revealContributor"
  | CallRevealRemote _ _ => "revealRemote"
  | CallRevealRepository _ => "revealRepository"
  | CallRevealStash _ _ => "revealStash"
  | CallRevealStashes _ => "revealStashes"
  | CallRevealTag _ _ => "revealTag"
  | CallRevealTags _ => "revealTags"
  | CallRevealWorktree _ _ => "revealWorktree"
  | CallRevealWorktrees _ => "revealWorktrees"
  end.

(** The requests that reach the UI surface: reveals (which expand, select and
    focus) and message dialogs.  The progress notification of [withProgress]
    is not among them. *)
Definition is_ui_request (e : Event) : bool :=
  match e with
  | EvEnsureRevealNode _ _ | EvReveal _ _ | EvShowMessage _ => true
  | _ => false
  end.

(** A request for further pages of a node's children: by the engine, or by a
    [canTraverse] callback through [loadMore]. *)
Definition is_page_request (e : Event) : bool :=
  match e with
  | EvLoadMore _ | EvLoadMoreUntil _ _ => true
  | _ => false
  end.

(** ** Vocabulary for the properties of a walk *)

(** The verdict of [canTraverse] on a node; an absent predicate admits all. *)
Definition traversable (opts : FindOptions) (n : Node) : bool :=
  match canTraverse opts with
  | Some f => snd (f n)
  | None => true
  end.

Definition result_trace (r : StepResult) : Trace :=
  match r with Done _ tr => tr | Next _ tr => tr end.

Definition page_trace (r : PageResult) : Trace :=
  match r with PageFound _ tr | PageCancelled tr | PageExhausted tr => tr end.

(** What one turn of the loop on the node [n] at [p] may log. *)
Definition turn_event (opts : FindOptions) (p : Path) (n : Node) (e : Event) : Prop :=
  e = EvVisit p ∨ e = EvTest p
  ∨ (length p < maxDepth opts
     ∧ (e = EvCanTraverse p
        ∨ ∃ f ref, canTraverse opts = Some f ∧ LoadMoreUntil ref ∈ (f n).1
                   ∧ e = EvLoadMoreUntil p ref))
  ∨ (length p < maxDepth opts ∧ traversable opts n = true
     ∧ (e = EvChildren p
        ∨ (∃ j c, e = EvTest (p ++ [j]) ∧ children_of n !! j = Some c)
        ∨ (e = EvLoadMore p ∧ pagingAllowed opts = true))).

(** What the paging loop on the node at [p], whose children are [all], may
    log. *)
Definition page_event (p : Path) (all : list Node) (e : Event) : Prop :=
  (∃ j c, e = EvTest (p ++ [j]) ∧ all !! j = Some c) ∨ e = EvLoadMore p.

(** Every node strictly between the root and [p] was admitted by
    [canTraverse], above the depth bound. *)
Definition okPath (root : Node) (opts : FindOptions) (p : Path) : Prop :=
  ∀ p1 s, p = p1 ++ s → p1 ≠ [] → s ≠ [] →
    ∃ n1, nodeAt root p1 = Some n1 ∧ traversable opts n1 = true
          ∧ length p1 < maxDepth opts.

(** What holds of every entry of the frontier. *)
Definition entry_ok (root : Node) (opts : FindOptions) (e : Path * Node) : Prop :=
  nodeAt root e.1 = Some e.2 ∧ e.1 ≠ [] ∧ okPath root opts e.1
  ∧ length e.1 ≤ Nat.max 1 (maxDepth opts).

Definition walk_event (root : Node) (opts : FindOptions) (e : Event) : Prop :=
  ∃ p n, entry_ok root opts (p, n) ∧ turn_event opts p n e.

(** The events at which the walk moves on: a node visit or a fetch. *)
Definition is_walk_step (e : Event) : bool :=
  match e with
  | EvVisit _ | EvChildren _ | EvLoadMore _ => true
  | _ => false
  end.

(** The events that are, or may hold, an await of the walk: a fetch by the
    engine, the evaluation of [canTraverse], a call awaited inside it. *)
Definition is_suspension (e : Event) : bool :=
  match e with
  | EvCanTraverse _ | EvLoadMoreUntil _ _ | EvChildren _ | EvLoadMore _ => true
  | _ => false
  end.

(** A log that ends with a token read of 'not cancelled' followed by events
    free of awaits. *)
Definition fresh_match (tok : option CancellationToken) (tr : Trace) : Prop :=
  ∃ tr1 seg, tr = tr1 ++ seg
    ∧ isCancellationRequested tok tr1 = false
    ∧ Forall (λ e, is_suspension e = false) seg.

(** [legal G tr ev]: each event of [ev], logged after [tr] and the events
    before it, satisfies the guard [G] on the log it is appended to. *)
Inductive legal (G : Trace → Event → Prop) : Trace → Trace → Prop :=
| legal_nil tr : legal G tr []
| legal_cons tr e ev : G tr e → legal G (tr ++ [e]) ev → legal G tr (e :: ev).

(** The guard of the engine: a walk step is logged only when the token reads
    'not cancelled', and [canTraverse] is evaluated right after the matcher
    was applied to the same node. *)
Definition guarded (tok : option CancellationToken) (tr : Trace) (e : Event) : Prop :=
  (is_walk_step e = true → isCancellationRequested tok tr = false)
  ∧ (∀ p, e = EvCanTraverse p → last tr = Some (EvTest p)).

Definition withoutToken (opts : FindOptions) : FindOptions :=
  {| allowPaging := allowPaging opts;
     maxDepth := maxDepth opts;
     canTraverse := canTraverse opts;
     token := None |}.

(** The position an engine event is about. *)
Definition event_path (e : Event) : option Path :=
  match e with
  | EvVisit p | EvTest p | EvCanTraverse p | EvLoadMoreUntil p _
  | EvChildren p | EvLoadMore p => Some p
  | _ => None
  end.

(** What the evaluation of [canTraverse] on the node [n] at [p] logs: the
    evaluation itself and the calls awaited inside it. *)
Definition callbackLog (opts : FindOptions) (p : Path) (n : Node) : Trace :=
  match canTraverse opts with
  | Some f => EvCanTraverse p :: callEvents p (f n).1
  | None => []
  end.

(** The guard of a fetch: the children of a node below the search root are
    produced right after the node was tested and [canTraverse] admitted it,
    the calls awaited inside [canTraverse] done. *)
Definition fetch_guard (root : Node) (opts : FindOptions) (tr : Trace) (e : Event) : Prop :=
  ∀ p, e = EvChildren p → p ≠ [] →
    ∃ n tr0, nodeAt root p = Some n ∧ traversable opts n = true
             ∧ tr = tr0 ++ EvTest p :: callbackLog opts p n.

(** ** The re-entrancy guard of the reveal operations ([@gate])

    Every reveal method carries the decorator [@gate(() => '')], imported from
    [../system/decorators/gate].  The guard below follows what the
    specification says of it (section 5). *)

(** The resolver of the decorator, [() => '']: it ignores the arguments. *)
Definition gateResolver (c : RevealCall) : string := "".

(** Modelled from the spec: the key of the [gate] decorator, the operation's
    identity completed by what the resolver makes of the arguments. *)
Definition gateKey (c : RevealCall) : string := revealName c +:+ gateResolver c.

Inductive GateEvent :=
| GBegin (key : string) (id : nat)
| GWalk (key : string) (id : nat)
| GSettle (key : string) (id : nat).

(** Modelled from the spec: the state the [gate] decorator keeps on one view
    instance, which is the call in flight for each key and the calls held
    back; with it, the history of the view, most recent first. *)
Record ViewGate := {
  pending : gmap string nat;
  waiting : list (string * nat);
  history : list GateEvent
}.

Definition gate_init : ViewGate :=
  {| pending := ∅; waiting := []; history := [] |}.

(** What can happen on the view: a caller invokes a reveal; the walk of a call
    in flight resumes at a suspension point; a call in flight settles. *)
Inductive GateAction :=
| Invoke (c : RevealCall) (id : nat)
| Resume (key : string) (id : nat)
| Settle (key : string) (id : nat).

(** The first call held back for [key], and the others. *)
Fixpoint take_waiting (key : string) (w : list (string * nat))
  : option (nat * list (string * nat)) :=
  match w with
  | [] => None
  | (k, id) :: w' =>
      if decide (k = key) then Some (id, w')
      else match take_waiting key w' with
           | Some (id', w'') => Some (id', (k, id) :: w'')
           | None => None
           end
  end.

(** Modelled from the spec: the [gate] decorator at work.  A reveal invoked
    while another one with the same key is in flight is held back, and begins
    once that one has settled; requests are serialized, not interleaved.
    [None]: the action is not enabled. *)
Definition gate_step (s : ViewGate) (a : GateAction) : option ViewGate :=
  match a with
  | Invoke c id =>
      let key := gateKey c in
      match pending s !! key with
      | None =>
          Some {| pending := <[key := id]> (pending s);
                  waiting := waiting s;
                  history := GBegin key id :: history s |}
      | Some _ =>
          Some {| pending := pending s;
                  waiting := waiting s ++ [(key, id)];
                  history := history s |}
      end
  | Resume key id =>
      if decide (pending s !! key = Some id) then
        Some {| pending := pending s;
                waiting := waiting s;
                history := GWalk key id :: history s |}
      else None
  | Settle key id =>
      if decide (pending s !! key = Some id) then
        match take_waiting key (waiting s) with
        | Some (next, w) =>
            Some {| pending := <[key := next]> (pending s);
                    waiting := w;
                    history := GBegin key next :: GSettle key id :: history s |}
        | None =>
            Some {| pending := delete key (pending s);
                    waiting := waiting s;
                    history := GSettle key id :: history s |}
        end
      else None
  end.

Fixpoint gate_run (s : ViewGate) (schedule : list GateAction) : option ViewGate :=
  match schedule with
  | [] => Some s
  | a :: rest =>
      match gate_step s a with
      | Some s' => gate_run s' rest
      | None => None
      end
  end.

(** The call whose walk is open for [key] after a history. *)
Fixpoint open_call (key : string) (h : list GateEvent) : option nat :=
  match h with
  | [] => None
  | GBegin k id :: h' => if decide (k = key) then Some id else open_call key h'
  | GSettle k id :: h' => if decide (k = key) then None else open_call key h'
  | GWalk _ _ :: h' => open_call key h'
  end.

(** A history in which a walk begins only when none is open for its key, and
    only the open walk of a key resumes or settles. *)
Fixpoint serial (h : list GateEvent) : Prop :=
  match h with
  | [] => True
  | e :: h' =>
      serial h'
      ∧ match e with
        | GBegin k id => open_call k h' = None
        | GWalk k id | GSettle k id => open_call k h' = Some id
        end
  end.

#[local] Instance GateEvent_eq_dec : EqDecision GateEvent.
Proof. solve_decision. Defined.

(** What holds of the guard state along every schedule. *)
Definition gate_inv (s : ViewGate) : Prop :=
  serial (history s) ∧ ∀ key, pending s !! key = open_call key (history s).

(** Two callers ask for a branch reveal while the first is still walking. *)
Definition sampleSchedule : list GateAction :=
  [ Invoke (CallRevealBranch mainBranch NeverCancelled) 1;
    Resume "revealBranch" 1;
    Invoke (CallRevealBranch originFeature NeverCancelled) 2;
    Resume "revealBranch" 1;
    Settle "revealBranch" 1;
    Resume "revealBranch" 2;
    Settle "revealBranch" 2 ].

(** ** The settings commands of the view

    The rest of [RepositoriesView]: the handlers behind the view's commands.
    They act on collaborators only ([configuration.updateEffective], the
    workspace storage, [setContext], the view's own event emitter and
    refresh), so a handler is its list of requests, in order. *)

Inductive ViewBranchesLayout := BranchesLayoutList | BranchesLayoutTree.

Inductive ViewFilesLayout := FilesLayoutAuto | FilesLayoutList | FilesLayoutTree.

Inductive ViewShowBranchComparison := ComparisonBranch | ComparisonWorking.

(** The values the view hands to [configuration.updateEffective]. *)
Inductive ConfigValue :=
| VBool (b : bool)
| VBranchesLayout (l : ViewBranchesLayout)
| VFilesLayout (l : ViewFilesLayout)
| VComparison (c : ViewShowBranchComparison).

(** JavaScript truthiness of such a value: only [false] is falsy. *)
Definition truthy (v : ConfigValue) : bool :=
  match v with VBool b => b | _ => true end.

Inductive ViewEffect :=
| UpdateEffective (key : string) (value : ConfigValue)
| StoreWorkspaceAutoRefresh (value : bool)
| SetContextAutoRefresh (value : bool)
| FireDidChangeAutoRefresh
| ExecuteViewsCopy
| ResetCaches (caches : list string)
| RefreshView (reset : bool).

(** [configKey]. *)
Definition configKey : string := "repositories".

(** [`views.${this.configKey}.${key}`]. *)
Definition viewSetting (key : string) : string :=
  "views." +:+ configKey +:+ "." +:+ key.

Definition setBranchesLayout (layout : ViewBranchesLayout) : list ViewEffect :=
  [UpdateEffective (viewSetting "branches.layout") (VBranchesLayout layout)].

Definition setFilesLayout (layout : ViewFilesLayout) : list ViewEffect :=
  [UpdateEffective (viewSetting "files.layout") (VFilesLayout layout)].

Definition setShowAvatars (enabled : bool) : list ViewEffect :=
  [UpdateEffective (viewSetting "avatars") (VBool enabled)].

Definition setShowBranchComparison (enabled : bool) : list ViewEffect :=
  [UpdateEffective (viewSetting "showBranchComparison")
     (if enabled then VComparison ComparisonWorking else VBool false)].

Definition setBranchShowBranchComparison (enabled : bool) : list ViewEffect :=
  [UpdateEffective (viewSetting "branches.showBranchComparison")
     (if enabled then VComparison ComparisonBranch else VBool false)].

(** The string literals [toggleSection] accepts as its key. *)
Inductive SectionKey :=
| ShowBranches | ShowCommits | ShowContributors | ShowRemotes
| ShowStashes | ShowTags | ShowWorktrees | ShowUpstreamStatus.

Definition sectionKeyName (k : SectionKey) : string :=
  match k with
  | ShowBranches => "showBranches"
  | ShowCommits => "showCommits"
  | ShowContributors => "showContributors"
  | ShowRemotes => "showRemotes"
  | ShowStashes => "showStashes"
  | ShowTags => "showTags"
  | ShowWorktrees => "showWorktrees"
  | ShowUpstreamStatus => "showUpstreamStatus"
  end.

Definition toggleSection (key : SectionKey) (enabled : bool) : list ViewEffect :=
  [UpdateEffective (viewSetting (sectionKeyName key)) (VBool enabled)].

(** [return Promise.resolve()] is the empty list of requests. *)
Definition toggleSectionByNode (node : Node) (enabled : bool) : list ViewEffect :=
  match node_kind node with
  | BranchesNode => [UpdateEffective (viewSetting "showBranches") (VBool enabled)]
  | BranchNode _ => [UpdateEffective (viewSetting "showCommits") (VBool enabled)]
  | BranchTrackingStatusNode =>
      [UpdateEffective (viewSetting "showUpstreamStatus") (VBool enabled)]
  | CompareBranchNode => setShowBranchComparison enabled
  | ContributorsNode => [UpdateEffective (viewSetting "showContributors") (VBool enabled)]
  | ReflogNode => [UpdateEffective (viewSetting "showIncomingActivity") (VBool enabled)]
  | RemotesNode => [UpdateEffective (viewSetting "showRemotes") (VBool enabled)]
  | StashesNode => [UpdateEffective (viewSetting "showStashes") (VBool enabled)]
  | TagsNode => [UpdateEffective (viewSetting "showTags") (VBool enabled)]
  | WorktreesNode => [UpdateEffective (viewSetting "showWorktrees") (VBool enabled)]
  | _ => []
  end.

(** What the auto-refresh code reads: the setting as the container holds it
    ([container.config.views.repositories.autoRefresh]), as the view holds it
    ([this.config.autoRefresh]), and the workspace storage entry
    [ViewsRepositoriesAutoRefresh], [None] while nothing is stored. *)
Record ViewEnv := {
  containerAutoRefresh : bool;
  viewAutoRefresh : bool;
  storedAutoRefresh : option bool
}.

(** Modelled from the spec: [storage.getWorkspace(key, defaultValue)] of
    [../storage], a flat key-value store that answers the default for a key
    never stored. *)
Definition getWorkspaceAutoRefresh (env : ViewEnv) (defaultValue : bool) : bool :=
  match storedAutoRefresh env with
  | Some v => v
  | None => defaultValue
  end.

(** Modelled from the spec: [storage.storeWorkspace(key, value)] of
    [../storage], which replaces the entry of the key. *)
Definition storeWorkspaceAutoRefresh (env : ViewEnv) (value : bool) : ViewEnv :=
  {| containerAutoRefresh := containerAutoRefresh env;
     viewAutoRefresh := viewAutoRefresh env;
     storedAutoRefresh := Some value |}.

(** [get autoRefresh()]. *)
Definition autoRefresh (env : ViewEnv) : bool :=
  viewAutoRefresh env && getWorkspaceAutoRefresh env true.

(** [setAutoRefresh(enabled, workspaceEnabled?)].  With [enabled] false the
    context value [enabled && workspaceEnabled] is [false] whatever
    [workspaceEnabled] is. *)
Definition setAutoRefresh (enabled : bool) (workspaceEnabled : option bool)
    (env : ViewEnv) : ViewEnv * list ViewEffect :=
  if enabled then
    match workspaceEnabled with
    | None =>
        let w := getWorkspaceAutoRefresh env true in
        (env, [SetContextAutoRefresh w; FireDidChangeAutoRefresh])
    | Some w =>
        (storeWorkspaceAutoRefresh env w,
         [StoreWorkspaceAutoRefresh w; SetContextAutoRefresh w;
          FireDidChangeAutoRefresh])
    end
  else (env, [SetContextAutoRefresh false; FireDidChangeAutoRefresh]).

(** [registerCommands]: each command, by the name given to
    [getQualifiedCommand], with its handler; the handler of
    [setShowSectionOff] is the only one that reads its argument. *)
Definition registerCommands
  : list (string * (ViewEnv → Node → ViewEnv * list ViewEffect)) :=
  let pure (effects : list ViewEffect) :=
    λ (env : ViewEnv) (_ : Node), (env, effects) in
  [ ("copy", pure [ExecuteViewsCopy]);
    ("refresh",
     pure [ResetCaches ["branches"; "contributors"; "remotes"; "stashes"; "status"; "tags"];
           RefreshView true]);
    ("setBranchesLayoutToList", pure (setBranchesLayout BranchesLayoutList));
    ("setBranchesLayoutToTree", pure (setBranchesLayout BranchesLayoutTree));
    ("setFilesLayoutToAuto", pure (setFilesLayout FilesLayoutAuto));
    ("setFilesLayoutToList", pure (setFilesLayout FilesLayoutList));
    ("setFilesLayoutToTree", pure (setFilesLayout FilesLayoutTree));
    ("setAutoRefreshToOn",
     λ env _, setAutoRefresh (containerAutoRefresh env) (Some true) env);
    ("setAutoRefreshToOff",
     λ env _, setAutoRefresh (containerAutoRefresh env) (Some false) env);
    ("setShowAvatarsOn", pure (setShowAvatars true));
    ("setShowAvatarsOff", pure (setShowAvatars false));
    ("setShowBranchComparisonOn", pure (setShowBranchComparison true));
    ("setShowBranchComparisonOff", pure (setShowBranchComparison false));
    ("setBranchesShowBranchComparisonOn", pure (setBranchShowBranchComparison true));
    ("setBranchesShowBranchComparisonOff", pure (setBranchShowBranchComparison false));
    ("setShowBranchesOn", pure (toggleSection ShowBranches true));
    ("setShowBranchesOff", pure (toggleSection ShowBranches false));
    ("setShowCommitsOn", pure (toggleSection ShowCommits true));
    ("setShowCommitsOff", pure (toggleSection ShowCommits false));
    ("setShowContributorsOn", pure (toggleSection ShowContributors true));
    ("setShowContributorsOff", pure (toggleSection ShowContributors false));
    ("setShowRemotesOn", pure (toggleSection ShowRemotes true));
    ("setShowRemotesOff", pure (toggleSection ShowRemotes false));
    ("setShowStashesOn", pure (toggleSection ShowStashes true));
    ("setShowStashesOff", pure (toggleSection ShowStashes false));
    ("setShowTagsOn", pure (toggleSection ShowTags true));
    ("setShowTagsOff", pure (toggleSection ShowTags false));
    ("setShowWorktreesOn", pure (toggleSection ShowWorktrees true));
    ("setShowWorktreesOff", pure (toggleSection ShowWorktrees false));
    ("setShowUpstreamStatusOn", pure (toggleSection ShowUpstreamStatus true));
    ("setShowUpstreamStatusOff", pure (toggleSection ShowUpstreamStatus false));
    ("setShowSectionOff", λ env node, (env, toggleSectionByNode node false)) ].

(** The class of a node, its constructor without the git model it carries. *)
Definition className (k : NodeKind) : string :=
  match k with
  | RepositoriesNode => "RepositoriesNode"
  | RepositoryNode => "RepositoryNode"
  | BranchesNode => "BranchesNode"
  | BranchNode _ => "BranchNode"
  | BranchOrTagFolderNode => "BranchOrTagFolderNode"
  | BranchTrackingStatusNode => "BranchTrackingStatusNode"
  | CompareBranchNode => "CompareBranchNode"
  | ContributorNode => "ContributorNode"
  | ContributorsNode => "ContributorsNode"
  | ReflogNode => "ReflogNode"
  | RemoteNode _ => "RemoteNode"
  | RemotesNode => "RemotesNode"
  | StashesNode => "StashesNode"
  | StashNode => "StashNode"
  | TagsNode => "TagsNode"
  | WorktreeNode => "WorktreeNode"
  | WorktreesNode => "WorktreesNode"
  | CommitNode _ => "CommitNode"
  | TagNode _ => "TagNode"
  | OtherNode => "OtherNode"
  end.

(** The keys some command other than [setShowSectionOff] can set to a truthy
    value, whatever the environment and argument. *)
Definition restorable (key : string) : Prop :=
  ∃ name handler value,
    (name, handler) ∈ registerCommands
    ∧ name ≠ "setShowSectionOff"
    ∧ truthy value = true
    ∧ ∀ env node, (handler env node).2 = [UpdateEffective key value].

(** [onConfigurationChanged(e)], up to the inherited handler it ends with:
    [changed key] is [configuration.changed(e, key)]. *)
Definition onConfigurationChanged (changed : string → bool) (env : ViewEnv)
  : ViewEnv * list ViewEffect :=
  if changed (viewSetting "autoRefresh")
  then setAutoRefresh (containerAutoRefresh env) None env
  else (env, []).

Definition anyViewEnv : ViewEnv :=
  {| containerAutoRefresh := true; viewAutoRefresh := true; storedAutoRefresh := None |}.

(** The environment after the auto-refresh setting was changed to [b], with
    both holders of the setting in step. *)
Definition withAutoRefreshSetting (b : bool) (env : ViewEnv) : ViewEnv :=
  {| containerAutoRefresh := b;
     viewAutoRefresh := b;
     storedAutoRefresh := storedAutoRefresh env |}.

(** [configuration.changed(e, key)] for an event that changes the view's
    [autoRefresh] setting only. *)
Definition autoRefreshChanged (key : string) : bool :=
  String.eqb key "views.repositories.autoRefresh".

(** The reveal methods that end in [ensureRevealNode]; the others call
    [reveal]. *)
Definition usesEnsureRevealNode (c : RevealCall) : bool :=
  match c with
  | CallRevealBranch _ _ | CallRevealCommit _ _ | CallRevealContributor _ _
  | CallRevealRemote _ _ | CallRevealTag _ _ | CallRevealWorktree _ _ => true
  | CallRevealBranches _ | CallRevealRepository _ | CallRevealStash _ _
  | CallRevealStashes _ | CallRevealTags _ | CallRevealWorktrees _ => false
  end.

Fixpoint has_slash (s : string) : bool :=
  match s with
  | EmptyString => false
  | String c rest => Ascii.eqb c "/"%char || has_slash rest
  end.

(** The classes of the nodes that stand for one entity, or that no query
    builder names. *)
Definition isEntityClass (k : NodeKind) : bool :=
  match k with
  | CommitNode _ | TagNode _ | StashNode | WorktreeNode | ContributorNode
  | CompareBranchNode | BranchTrackingStatusNode | ReflogNode | OtherNode => true
  | _ => false
  end.

(** * The commit graph webview *)

(** [GraphWebview] keeps a selected repository and the log it shows, answers
    three messages of its page and mirrors its state to the page.  The
    webview's fields and the workspace storage it writes are the state, the
    calls it makes on its collaborators and the notifications it sends are
    logged in order.

    A handler is modelled from its start to its end, un-awaited
    continuations included, and undisturbed: the answers of the collaborators
    are those of one [Container], and no other handler runs in between.  The
    code starts its handlers without awaiting them, so two of them may
    overlap; what they then do to each other is not modelled, and every
    property below speaks of one handler. *)
Module Graph.

(** A value, or the [TypeError] of a property read on [undefined]. *)
Inductive Outcome (A : Type) : Type :=
  | Returned (a : A)
  | TypeError.
Arguments Returned {A} a.
Arguments TypeError {A}.

(** [a ?? b] *)
Definition nullish {A : Type} (a b : option A) : option A :=
  match a with
  | Some x => Some x
  | None => b
  end.

(** [String(v)] for a string or [undefined]. *)
Definition JS_String (v : option string) : string :=
  match v with
  | Some s => s
  | None => "undefined"
  end.

(** A JS [Map] with string keys, in insertion order. *)
Abbreviation Map V := (list (string * V)).

Fixpoint Map_get {V : Type} (m : Map V) (key : string) : option V :=
  match m with
  | [] => None
  | (k, v) :: rest => if String.eqb k key then Some v else Map_get rest key
  end.

Definition Map_values {V : Type} (m : Map V) : list V := map snd m.

Record Repository := MkRepository {
  repo_formattedName : string;
  repo_id : string;
  repo_name : string;
  repo_path : string;
  repo_uri : string
}.

(** The protocol's [Repository]. *)
Record RepositoryData := MkRepositoryData {
  rd_formattedName : string;
  rd_id : string;
  rd_name : string;
  rd_path : string
}.

(** A commit or stash commit of the git models, with what this file reads of
    it; [commit_isStash] is the answer of [GitCommitModel.isStash]. *)
Record GitCommitModel := MkGitCommitModel {
  commit_sha : string;
  commit_author : string;
  commit_committer : string;
  commit_message : option string;
  commit_summary : string;
  commit_parents : option (list string);
  commit_isStash : bool
}.

Inductive CommitType := CommitNodeType | StashNodeType.

Definition CommitType_value (t : CommitType) : string :=
  match t with
  | CommitNodeType => "commit-node"
  | StashNodeType => "stash-node"
  end.

(** The protocol's [GitCommit]. *)
Record GitCommit := MkGitCommit {
  gc_sha : string;
  gc_author : string;
  gc_message : option string;
  gc_parents : option (list string);
  gc_committer : string;
  gc_type : CommitType
}.

#[warnings="-register-all"]
Inductive GitLog := MkGitLog {
  log_commits : option (Map GitCommitModel);
  log_count : nat;
  log_limit : option nat;
  log_hasMore : bool;
  log_cursor : option string;
  log_more : option (option nat → option GitLog)
}.

Record LogData := MkLogData {
  ld_count : nat;
  ld_limit : option nat;
  ld_hasMore : bool;
  ld_cursor : option string
}.

Record GitStash := MkGitStash {
  stash_commits : option (Map GitCommitModel)
}.

Record GraphColumnConfig := MkGraphColumnConfig {
  width : nat
}.

(** The column dictionary, a plain JS object: its own properties, and the
    object its prototype was replaced by, [None] while the prototype is
    [Object.prototype]. *)
Record GraphColumnConfigDictionary := MkGraphColumnConfigDictionary {
  own : gmap string GraphColumnConfig;
  replacedPrototype : option GraphColumnConfig
}.

(** [{}] *)
Definition emptyObject : GraphColumnConfigDictionary :=
  {| own := ∅; replacedPrototype := None |}.

(** [columns[name] = config].  An own property of that name is written.
    Without one the assignment goes up the prototype chain, where the only
    setter is [__proto__] of [Object.prototype]: it replaces the prototype of
    [columns] by [config] and adds no property.  Any other name becomes an
    own property. *)
Definition assignProperty (columns : GraphColumnConfigDictionary) (name : string)
    (config : GraphColumnConfig) : GraphColumnConfigDictionary :=
  match own columns !! name with
  | None =>
      if String.eqb name "__proto__"
      then {| own := own columns; replacedPrototype := Some config |}
      else {| own := <[name := config]> (own columns);
              replacedPrototype := replacedPrototype columns |}
  | Some _ =>
      {| own := <[name := config]> (own columns);
         replacedPrototype := replacedPrototype columns |}
  end.

(** [configuration.get('graph')], with the two settings this file reads. *)
Record GraphSettings := MkGraphSettings {
  defaultLimit : option nat;
  pageLimit : option nat
}.

Record GraphConfig := MkGraphConfig {
  cfg_defaultLimit : option nat;
  cfg_pageLimit : option nat;
  cfg_columns : option GraphColumnConfigDictionary
}.

Record State := MkState {
  st_repositories : list RepositoryData;
  st_selectedRepository : option string;
  st_commits : option (list GitCommit);
  st_remotes : option (list string);
  st_branches : option (list string);
  st_tags : option (list string);
  st_config : option GraphConfig;
  st_log : option LogData;
  st_nonce : option string
}.

(** ** The functions below the class *)

Definition getCommitType (commit : GitCommitModel) : CommitType :=
  let type := CommitNodeType in
  if commit_isStash commit then StashNodeType else type.

Definition formatCommits (commits : list GitCommitModel) : list GitCommit :=
  map (λ commit,
         {| gc_sha := commit_sha commit;
            gc_author := commit_author commit;
            gc_message :=
              if negb (Nat.eqb (String.length (JS_String (commit_message commit))) 0)
              then commit_message commit
              else Some (commit_summary commit);
            gc_parents := commit_parents commit;
            gc_committer := commit_committer commit;
            gc_type := getCommitType commit |})
      commits.

(** The callback of the filter: [log.commits.get] on a log without commits
    is a [TypeError]. *)
Definition stashCommitShown (log : GitLog) (stashCommit : GitCommitModel) : Outcome bool :=
  match commit_parents stashCommit with
  | None | Some [] => Returned true
  | Some (parent :: _) =>
      match log_commits log with
      | None => TypeError
      | Some commits =>
          Returned (match Map_get commits parent with Some _ => true | None => false end)
      end
  end.

(** [Array.prototype.filter] with a callback that may throw. *)
Fixpoint filterOutcome {A : Type} (f : A → Outcome bool) (l : list A) : Outcome (list A) :=
  match l with
  | [] => Returned []
  | x :: rest =>
      match f x with
      | TypeError => TypeError
      | Returned keep =>
          match filterOutcome f rest with
          | TypeError => TypeError
          | Returned kept => Returned (if keep then x :: kept else kept)
          end
      end
  end.

Definition filterStashCommits (stashCommits : option (list GitCommitModel))
    (log : option GitLog) : Outcome (list GitCommitModel) :=
  match stashCommits, log with
  | Some stashCommits, Some log => filterOutcome (stashCommitShown log) stashCommits
  | _, _ => Returned []
  end.

Definition formatRepositories (repositories : list Repository) : list RepositoryData :=
  if Nat.eqb (length repositories) 0 then []
  else map (λ r, {| rd_formattedName := repo_formattedName r;
                    rd_id := repo_id r;
                    rd_name := repo_name r;
                    rd_path := repo_path r |})
           repositories.

Definition formatLog (log : GitLog) : LogData :=
  {| ld_count := log_count log;
     ld_limit := log_limit log;
     ld_hasMore := log_hasMore log;
     ld_cursor := log_cursor log |}.

(** ** The webview *)

(** The subscription [repository.onDidChange(...)] returns. *)
Record Disposable := MkDisposable {
  listensTo : Repository;
  disposed : bool
}.

(** The fields of the webview, and the workspace storage under
    [WorkspaceStorageKeys.GraphColumns]: [getWorkspace] answers what
    [storeWorkspace] stored last, [undefined] before. *)
Record GraphWebview := MkGraphWebview {
  selectedRepository : option Repository;
  currentLog : option GitLog;
  repoDisposable : option Disposable;
  defaultTitle : option string;
  title : string;
  graphColumns : option GraphColumnConfigDictionary
}.

(** The collaborators of the webview, each by its answers. *)
Record Container := MkContainer {
  openRepositories : list Repository;
  git_getRepository : string → option Repository;
  git_getLog : string → option nat → option GitLog;
  git_getTags : string → option (list string);
  git_getBranches : string → option (list string);
  git_getStash : string → option GitStash;
  Repository_getRemotes : Repository → list string;
  configuration_graph : GraphSettings;
  getBestRepositoryOrShow : option Repository;
  getCSPNonce : string
}.

Inductive Notification :=
  | DidChangeConfig (config : GraphConfig)
  | DidChangeCommits (commits : list GitCommit) (log : option LogData)
  | DidChange (state : State).

Inductive GraphEvent :=
  | EvGitGetLog (uri : string) (limit : option nat)
  | EvLogMore (limit : option nat)
  | EvGetRemotes (path : string)
  | EvGitGetTags (uri : string)
  | EvGitGetBranches (uri : string)
  | EvGitGetStash (uri : string)
  | EvRepositoryPicker
  | EvStoreColumns (columns : GraphColumnConfigDictionary)
  | EvDispose (repository : Repository)
  | EvOnDidChange (repository : Repository)
  | EvNotify (n : Notification).

(** A method of the webview: its value, the fields after it and what it
    logged. *)
Definition M (A : Type) : Type := GraphWebview → A * GraphWebview * list GraphEvent.

#[export] Instance M_ret : MRet M := λ A a w, (a, w, []).

#[export] Instance M_bind : MBind M := λ A B f m w,
  let '(a, w1, e1) := m w in
  let '(b, w2, e2) := f a w1 in
  (b, w2, e1 ++ e2).

Definition gets {A : Type} (f : GraphWebview → A) : M A := λ w, (f w, w, []).
Definition modify (f : GraphWebview → GraphWebview) : M unit := λ w, (tt, f w, []).
Definition emit (e : GraphEvent) : M unit := λ w, (tt, w, [e]).

Definition result {A : Type} (r : A * GraphWebview * list GraphEvent) : A := r.1.1.
Definition after {A : Type} (r : A * GraphWebview * list GraphEvent) : GraphWebview := r.1.2.
Definition events {A : Type} (r : A * GraphWebview * list GraphEvent) : list GraphEvent := r.2.

Definition set_selectedRepository (v : option Repository) (w : GraphWebview) : GraphWebview :=
  {| selectedRepository := v; currentLog := currentLog w;
     repoDisposable := repoDisposable w; defaultTitle := defaultTitle w;
     title := title w; graphColumns := graphColumns w |}.

Definition set_currentLog (v : option GitLog) (w : GraphWebview) : GraphWebview :=
  {| selectedRepository := selectedRepository w; currentLog := v;
     repoDisposable := repoDisposable w; defaultTitle := defaultTitle w;
     title := title w; graphColumns := graphColumns w |}.

Definition set_repoDisposable (v : option Disposable) (w : GraphWebview) : GraphWebview :=
  {| selectedRepository := selectedRepository w; currentLog := currentLog w;
     repoDisposable := v; defaultTitle := defaultTitle w;
     title := title w; graphColumns := graphColumns w |}.

Definition set_title (v : string) (w : GraphWebview) : GraphWebview :=
  {| selectedRepository := selectedRepository w; currentLog := currentLog w;
     repoDisposable := repoDisposable w; defaultTitle := defaultTitle w;
     title := v; graphColumns := graphColumns w |}.

Definition set_graphColumns (v : option GraphColumnConfigDictionary) (w : GraphWebview)
  : GraphWebview :=
  {| selectedRepository := selectedRepository w; currentLog := currentLog w;
     repoDisposable := repoDisposable w; defaultTitle := defaultTitle w;
     title := title w; graphColumns := v |}.

Inductive IpcMessage :=
  | ColumnChangeCommand (name : string) (config : GraphColumnConfig)
  | MoreCommitsCommand (limit : option nat)
  | SelectRepositoryCommand (path : string)
  | OtherCommand (method : string).

Section Webview.
Context (container : Container).

Definition getRepos : list Repository := openRepositories container.

Definition getConfig : M GraphConfig :=
  columns ← gets graphColumns;
  mret {| cfg_defaultLimit := defaultLimit (configuration_graph container);
          cfg_pageLimit := pageLimit (configuration_graph container);
          cfg_columns := columns |}.

Definition getLog (repo : string + Repository) : M (option GitLog) :=
  let repository :=
    match repo with
    | inl path => git_getRepository container path
    | inr repository => Some repository
    end in
  match repository with
  | None => mret None
  | Some repository =>
      config ← getConfig;
      let limit := nullish (cfg_pageLimit config) (cfg_defaultLimit config) in
      emit (EvGitGetLog (repo_uri repository) limit);;
      mret (git_getLog container (repo_uri repository) limit)
  end.

Definition getCommits : M (option (GitLog * list GitCommitModel)) :=
  let returnCurrent : M (option (GitLog * list GitCommitModel)) :=
    current ← gets currentLog;
    match current with
    | Some (MkGitLog (Some commits) _ _ _ _ _ as log) =>
        mret (Some (log, Map_values commits))
    | _ => mret None
    end in
  selected ← gets selectedRepository;
  match selected with
  | None => mret None
  | Some repository =>
      current ← gets currentLog;
      match current with
      | None =>
          log ← getLog (inr repository);
          match log with
          | Some (MkGitLog (Some _) _ _ _ _ _ as log) =>
              modify (set_currentLog (Some log));;
              returnCurrent
          | _ => mret None
          end
      | Some _ => returnCurrent
      end
  end.

Definition getRemotes : M (option (list string)) :=
  selected ← gets selectedRepository;
  match selected with
  | None => mret None
  | Some repository =>
      emit (EvGetRemotes (repo_path repository));;
      mret (Some (Repository_getRemotes container repository))
  end.

Definition getTags : M (option (list string)) :=
  selected ← gets selectedRepository;
  match selected with
  | None => mret None
  | Some repository =>
      emit (EvGitGetTags (repo_uri repository));;
      mret (git_getTags container (repo_uri repository))
  end.

Definition getBranches : M (option (list string)) :=
  selected ← gets selectedRepository;
  match selected with
  | None => mret None
  | Some repository =>
      emit (EvGitGetBranches (repo_uri repository));;
      mret (git_getBranches container (repo_uri repository))
  end.

Definition getStashCommits : M (option (list GitCommitModel)) :=
  selected ← gets selectedRepository;
  match selected with
  | None => mret None
  | Some repository =>
      emit (EvGitGetStash (repo_uri repository));;
      match git_getStash container (repo_uri repository) with
      | Some (MkGitStash (Some commits)) => mret (Some (Map_values commits))
      | _ => mret None
      end
  end.

Definition pickRepository (repositories : list Repository) : M (option Repository) :=
  match repositories with
  | [] => mret None
  | [repository] => mret (Some repository)
  | _ =>
      emit EvRepositoryPicker;;
      let repoPath := repo_path <$> getBestRepositoryOrShow container in
      mret (find (λ r, match repoPath with
                       | Some path => String.eqb (repo_path r) path
                       | None => false
                       end) repositories)
  end.

(** [this.repoDisposable?.dispose()] *)
Definition disposeRepoDisposable : M unit :=
  disposable ← gets repoDisposable;
  match disposable with
  | None => mret tt
  | Some d =>
      emit (EvDispose (listensTo d));;
      modify (set_repoDisposable (Some {| listensTo := listensTo d; disposed := true |}))
  end.

Definition getState : M (Outcome State) :=
  let repositories := getRepos in
  if Nat.eqb (length repositories) 0 then
    mret (Returned {| st_repositories := [];
                      st_selectedRepository := None;
                      st_commits := None;
                      st_remotes := None;
                      st_branches := None;
                      st_tags := None;
                      st_config := None;
                      st_log := None;
                      st_nonce := None |})
  else
    selected ← gets selectedRepository;
    match selected with
    | None =>
        idealRepo ← pickRepository repositories;
        modify (set_selectedRepository idealRepo);;
        disposeRepoDisposable;;
        match idealRepo with
        | Some repository =>
            emit (EvOnDidChange repository);;
            modify (set_repoDisposable
                      (Some {| listensTo := repository; disposed := false |}))
        | None => mret tt
        end
    | Some _ => mret tt
    end;;
    selected ← gets selectedRepository;
    match selected with
    | Some repository =>
        prefix ← gets defaultTitle;
        modify (set_title (JS_String prefix +:+ ": " +:+ repo_formattedName repository))
    | None => mret tt
    end;;
    commitsAndLog ← getCommits;
    remotes ← getRemotes;
    tags ← getTags;
    branches ← getBranches;
    stashCommits ← getStashCommits;
    let log := fst <$> commitsAndLog in
    match filterStashCommits stashCommits log with
    | TypeError => mret TypeError
    | Returned filteredStashCommits =>
        let commits :=
          match commitsAndLog with Some (_, commits) => commits | None => [] end
          ++ filteredStashCommits in
        selected ← gets selectedRepository;
        config ← getConfig;
        mret (Returned {| st_repositories := formatRepositories repositories;
                          st_selectedRepository := repo_path <$> selected;
                          st_commits := Some (formatCommits commits);
                          st_remotes := remotes;
                          st_branches := branches;
                          st_tags := tags;
                          st_config := Some config;
                          st_log := formatLog <$> log;
                          st_nonce := Some (getCSPNonce container) |})
    end.

Definition notifyDidChangeConfig : M unit :=
  config ← getConfig;
  emit (EvNotify (DidChangeConfig config)).

Definition notifyDidChangeCommits : M unit :=
  commitsAndLog ← getCommits;
  emit (EvNotify (DidChangeCommits
                    (formatCommits
                       match commitsAndLog with Some (_, commits) => commits | None => [] end)
                    (formatLog <$> (fst <$> commitsAndLog)))).

(** A rejected [getState] leaves nothing to notify. *)
Definition notifyDidChangeState : M unit :=
  state ← getState;
  match state with
  | Returned state => emit (EvNotify (DidChange state))
  | TypeError => mret tt
  end.

Definition changeColumn (name : string) (config : GraphColumnConfig) : M unit :=
  stored ← gets graphColumns;
  let columns := assignProperty (default emptyObject stored) name config in
  modify (set_graphColumns (Some columns));;
  emit (EvStoreColumns columns);;
  notifyDidChangeConfig.

Definition moreCommits (limit : option nat) : M unit :=
  current ← gets currentLog;
  match current with
  | Some (MkGitLog _ _ _ _ _ (Some more)) =>
      config ← getConfig;
      let limit := nullish limit (nullish (cfg_pageLimit config) (cfg_defaultLimit config)) in
      emit (EvLogMore limit);;
      match more limit with
      | Some nextLog => modify (set_currentLog (Some nextLog))
      | None => mret tt
      end
  | _ => mret tt
  end;;
  notifyDidChangeCommits.

Definition changeRepository (path : string) : M unit :=
  selected ← gets selectedRepository;
  (if match selected with
      | Some repository => negb (String.eqb (repo_path repository) path)
      | None => true
      end
   then
     modify (set_selectedRepository
               (if negb (String.eqb path "")
                then find (λ r, String.eqb (repo_path r) path) getRepos
                else None));;
     modify (set_currentLog None)
   else mret tt);;
  notifyDidChangeState.

Definition onRepositoryChanged : M unit :=
  modify (set_currentLog None);;
  notifyDidChangeState.

Definition onMessageReceived (e : IpcMessage) : M unit :=
  match e with
  | ColumnChangeCommand name config => changeColumn name config
  | MoreCommitsCommand limit => moreCommits limit
  | SelectRepositoryCommand path => changeRepository path
  | OtherCommand _ => mret tt
  end.

Definition includeBootstrap : M (Outcome State) := getState.

(** What starts a handler of the webview: a message of its page, a change of
    the repository it listens to, and the bootstrap of its page. *)
Inductive Input :=
  | Message (e : IpcMessage)
  | RepositoryChanged
  | Bootstrap.

Definition react (i : Input) : M unit :=
  match i with
  | Message e => onMessageReceived e
  | RepositoryChanged => onRepositoryChanged
  | Bootstrap => includeBootstrap;; mret tt
  end.

End Webview.

(** ** Vocabulary of the properties *)

(** [sha] is a key of the commits of [log]. *)
Definition hasCommit (log : GitLog) (sha : string) : Prop :=
  ∃ commits commit, log_commits log = Some commits ∧ Map_get commits sha = Some commit.

(** [pageLimit ?? defaultLimit] of the settings. *)
Definition logLimit (container : Container) : option nat :=
  nullish (pageLimit (configuration_graph container))
          (defaultLimit (configuration_graph container)).

(** The three parts of [getState] after its test for no repository, named
    for the proofs: choosing a repository, setting the title, and collecting
    what the page shows. *)
Definition getState_select (container : Container) : M unit :=
  selected ← gets selectedRepository;
  match selected with
  | None =>
      idealRepo ← pickRepository container (getRepos container);
      modify (set_selectedRepository idealRepo);;
      disposeRepoDisposable;;
      match idealRepo with
      | Some repository =>
          emit (EvOnDidChange repository);;
          modify (set_repoDisposable
                    (Some {| listensTo := repository; disposed := false |}))
      | None => mret tt
      end
  | Some _ => mret tt
  end.

Definition getState_title : M unit :=
  selected ← gets selectedRepository;
  match selected with
  | Some repository =>
      prefix ← gets defaultTitle;
      modify (set_title (JS_String prefix +:+ ": " +:+ repo_formattedName repository))
  | None => mret tt
  end.

Definition getState_collect (container : Container) : M (Outcome State) :=
  commitsAndLog ← getCommits container;
  remotes ← getRemotes container;
  tags ← getTags container;
  branches ← getBranches container;
  stashCommits ← getStashCommits container;
  let log := fst <$> commitsAndLog in
  match filterStashCommits stashCommits log with
  | TypeError => mret TypeError
  | Returned filteredStashCommits =>
      let commits :=
        match commitsAndLog with Some (_, commits) => commits | None => [] end
        ++ filteredStashCommits in
      selected ← gets selectedRepository;
      config ← getConfig container;
      mret (Returned {| st_repositories := formatRepositories (getRepos container);
                        st_selectedRepository := repo_path <$> selected;
                        st_commits := Some (formatCommits commits);
                        st_remotes := remotes;
                        st_branches := branches;
                        st_tags := tags;
                        st_config := Some config;
                        st_log := formatLog <$> log;
                        st_nonce := Some (getCSPNonce container) |})
  end.

(** What [getCommits] answers from a log the webview holds. *)
Definition shownFrom (w : GraphWebview) (log : GitLog)
  : option (GitLog * list GitCommitModel) :=
  match selectedRepository w, log_commits log with
  | Some _, Some commits => Some (log, Map_values commits)
  | _, _ => None
  end.

Definition is_subscription (e : GraphEvent) : bool :=
  match e with
  | EvDispose _ | EvOnDidChange _ => true
  | _ => false
  end.

(** ** Sample data *)

Definition repoA : Repository :=
  {| repo_formattedName := "alpha"; repo_id := "a"; repo_name := "alpha";
     repo_path := "/a"; repo_uri := "file:///a" |}.

Definition repoB : Repository :=
  {| repo_formattedName := "beta"; repo_id := "b"; repo_name := "beta";
     repo_path := "/b"; repo_uri := "file:///b" |}.

Definition plainCommit (sha : string) (message : option string) (parents : list string)
  : GitCommitModel :=
  {| commit_sha := sha; commit_author := "ann"; commit_committer := "ann";
     commit_message := message; commit_summary := "summary of " +:+ sha;
     commit_parents := Some parents; commit_isStash := false |}.

Definition stashOn (sha parent : string) : GitCommitModel :=
  {| commit_sha := sha; commit_author := "ann"; commit_committer := "ann";
     commit_message := Some ""; commit_summary := "WIP on " +:+ parent;
     commit_parents := Some [parent]; commit_isStash := true |}.

Definition longLog : GitLog :=
  {| log_commits := Some [("c3", plainCommit "c3" (Some "third") ["c2"]);
                          ("c2", plainCommit "c2" None ["c1"]);
                          ("c1", plainCommit "c1" (Some "first") [])];
     log_count := 3; log_limit := Some 3; log_hasMore := false; log_cursor := None;
     log_more := None |}.

Definition shortLog : GitLog :=
  {| log_commits := Some [("c3", plainCommit "c3" (Some "third") ["c2"]);
                          ("c2", plainCommit "c2" None ["c1"])];
     log_count := 2; log_limit := Some 2; log_hasMore := true; log_cursor := Some "c2";
     log_more := Some (λ _, Some longLog) |}.

Definition sampleStashes : list GitCommitModel :=
  [stashOn "s1" "c3"; stashOn "s0" "c1"].

Definition sampleContainer : Container :=
  {| openRepositories := [repoA; repoB];
     git_getRepository := λ path,
       find (λ r, String.eqb (repo_path r) path) [repoA; repoB];
     git_getLog := λ uri _, if String.eqb uri "file:///a" then Some shortLog else None;
     git_getTags := λ _, Some ["v1"];
     git_getBranches := λ _, Some ["main"];
     git_getStash := λ _,
       Some {| stash_commits := Some [("s1", stashOn "s1" "c3"); ("s0", stashOn "s0" "c1")] |};
     Repository_getRemotes := λ _, ["origin"];
     configuration_graph := {| defaultLimit := Some 500; pageLimit := Some 200 |};
     getBestRepositoryOrShow := Some repoB;
     getCSPNonce := "nonce" |}.

Definition freshWebview : GraphWebview :=
  {| selectedRepository := None; currentLog := None; repoDisposable := None;
     defaultTitle := Some "Graph"; title := "Graph"; graphColumns := None |}.

(** The webview after its page was bootstrapped: the picker chose [repoB]. *)
Definition webviewOnB : GraphWebview :=
  Eval vm_compute in after (react sampleContainer Bootstrap freshWebview).

(** The webview after the page then chose repository [repoA]. *)
Definition webviewOnA : GraphWebview :=
  Eval vm_compute in
    after (react sampleContainer (Message (SelectRepositoryCommand "/a")) webviewOnB).

End Graph.

(** * Theme colours of the webviews *)

(** [initializeAndWatchThemeColors] copies the colours of the editor's theme
    into the custom properties of the page, once when called and again
    whenever the class of the body changes.  The computed style, [trim], the
    colour functions of [./colors] and the class of the body are parameters;
    what the function does is the list of its [setProperty] calls, in
    order, and the call of the callback. *)
From Stdlib Require QArith.

Module Theme.
Import QArith.

Inductive StyleEvent :=
  | Observe (attributeFilter : list string)
  | SetProperty (name value : string)
  | Callback.

(** [a || b] on strings: the empty string is the falsy one. *)
Definition or_else (a b : string) : string :=
  if String.eqb a "" then b else a.

(** [s.includes(sub)] *)
Definition String_includes (s sub : string) : bool :=
  match String.index 0 sub s with
  | Some _ => true
  | None => false
  end.

Section Theme.
Context (getPropertyValue : string → string)
        (trim : string → string)
        (lighten darken opacity : string → Q → string)
        (className : string)
        (callback : bool).

(** [computedStyle.getPropertyValue(name).trim()] *)
Definition computed (name : string) : string := trim (getPropertyValue name).

Definition onColorThemeChanged : list StyleEvent :=
  [ SetProperty "--font-family" (computed "--vscode-font-family");
    SetProperty "--font-size" (computed "--vscode-font-size");
    SetProperty "--font-weight" (computed "--vscode-font-weight");
    SetProperty "--editor-font-family" (computed "--vscode-editor-font-family");
    SetProperty "--editor-font-size" (computed "--vscode-editor-font-size");
    SetProperty "--editor-font-weight" (computed "--vscode-editor-font-weight") ]
  ++
  (let color := computed "--vscode-editor-background" in
   [ SetProperty "--color-background" color;
     SetProperty "--color-background--lighten-05" (lighten color 5%Q);
     SetProperty "--color-background--darken-05" (darken color 5%Q);
     SetProperty "--color-background--lighten-075" (lighten color 7.5%Q);
     SetProperty "--color-background--darken-075" (darken color 7.5%Q);
     SetProperty "--color-background--lighten-15" (lighten color 15%Q);
     SetProperty "--color-background--darken-15" (darken color 15%Q);
     SetProperty "--color-background--lighten-30" (lighten color 30%Q);
     SetProperty "--color-background--darken-30" (darken color 30%Q);
     SetProperty "--color-background--lighten-50" (lighten color 50%Q);
     SetProperty "--color-background--darken-50" (darken color 50%Q) ])
  ++
  (let color := computed "--vscode-button-background" in
   [ SetProperty "--color-button-background" color;
     SetProperty "--color-button-background--darken-30" (darken color 30%Q) ])
  ++
  (let color := computed "--vscode-button-secondaryBackground" in
   [ SetProperty "--color-button-secondary-background" color;
     SetProperty "--color-button-secondary-background--darken-30" (darken color 30%Q) ])
  ++
  (let color := computed "--vscode-button-background" in
   [ SetProperty "--color-highlight" color;
     SetProperty "--color-highlight--75" (opacity color 75%Q);
     SetProperty "--color-highlight--50" (opacity color 50%Q);
     SetProperty "--color-highlight--25" (opacity color 25%Q) ])
  ++
  (let color := computed "--vscode-button-foreground" in
   [ SetProperty "--color-button-foreground" color ])
  ++
  (let foregroundColor :=
     let foregroundColor := computed "--vscode-editor-foreground" in
     if String.eqb foregroundColor "" then computed "--vscode-foreground"
     else foregroundColor in
   [ SetProperty "--color-foreground" foregroundColor;
     SetProperty "--color-foreground--85" (opacity foregroundColor 85%Q);
     SetProperty "--color-foreground--75" (opacity foregroundColor 75%Q);
     SetProperty "--color-foreground--65" (opacity foregroundColor 65%Q);
     SetProperty "--color-foreground--50" (opacity foregroundColor 50%Q) ]
   ++
   (let color := computed "--vscode-focusBorder" in
    [ SetProperty "--color-focus-border" color ])
   ++
   (let color := computed "--vscode-textLink-foreground" in
    [ SetProperty "--color-link-foreground" color;
      SetProperty "--color-link-foreground--darken-20" (darken color 20%Q);
      SetProperty "--color-link-foreground--lighten-20" (lighten color 20%Q) ])
   ++
   (let color := computed "--vscode-sideBar-foreground" in
    [ SetProperty "--color-view-foreground" (or_else color foregroundColor);
      SetProperty "--color-view-header-foreground"
        (or_else (computed "--vscode-sideBarSectionHeader-foreground")
                 (or_else color foregroundColor)) ]))
  ++
  (let color := computed "--vscode-editorHoverWidget-background" in
   [ SetProperty "--color-hover-background" color ])
  ++
  (let color := computed "--vscode-editorHoverWidget-border" in
   [ SetProperty "--color-hover-border" color ])
  ++
  (let color := computed "--vscode-editorHoverWidget-foreground" in
   [ SetProperty "--color-hover-foreground" color ])
  ++
  (let color := computed "--vscode-editorHoverWidget-statusBarBackground" in
   [ SetProperty "--color-hover-statusBarBackground" color ])
  ++
  (let isLightTheme :=
     String_includes className "vscode-light"
     || String_includes className "vscode-high-contrast-light" in
   let color := computed "--vscode-editor-background" in
   [ SetProperty "--graph-panel-bg"
       (if isLightTheme then darken color 5%Q else lighten color 5%Q);
     SetProperty "--graph-theme-opacity-factor" (if isLightTheme then "0.5" else "1") ])
  ++
  (if callback then [Callback] else []).

Definition initializeAndWatchThemeColors : list StyleEvent :=
  Observe ["class"] :: onColorThemeChanged.

End Theme.

(** The value of a custom property after the calls logged: the last one set. *)
Fixpoint styleAfter (log : list StyleEvent) (name : string) : option string :=
  match log with
  | [] => None
  | SetProperty n v :: rest =>
      match styleAfter rest name with
      | Some later => Some later
      | None => if String.eqb n name then Some v else None
      end
  | _ :: rest => styleAfter rest name
  end.

(** The first string of the list that is not empty, and the last one when
    all before it are empty. *)
Fixpoint firstNonEmpty (candidates : list string) : string :=
  match candidates with
  | [] => ""
  | [c] => c
  | c :: rest => if String.eqb c "" then firstNonEmpty rest else c
  end.

End Theme.

(** * Properties *)

(** ** Lists, positions and sizes *)

Lemma nodeAt_app root p q :
  nodeAt root (p ++ q) = match nodeAt root p with Some n => nodeAt n q | None => None end.
Proof.
  revert root. induction p as [|i p IH]; intros root; simpl; [done|].
  destruct (children_of root !! i); [apply IH|done].
Qed.

Lemma nodeAt_child root p n j c :
  nodeAt root p = Some n → children_of n !! j = Some c → nodeAt root (p ++ [j]) = Some c.
Proof. intros Hp Hc. rewrite nodeAt_app, Hp. simpl. by rewrite Hc. Qed.

Lemma node_size_children n :
  node_size n = S (list_sum (map node_size (children_of n))).
Proof.
  destruct n as [id k pages]. unfold children_of. simpl. f_equal.
  induction pages as [|pg pages IH]; simpl; [done|].
  rewrite map_app, list_sum_app. by rewrite IH.
Qed.

Lemma loadUntil_children ref pages cs rest :
  loadUntil ref pages = (cs, rest) → cs ++ concat rest = concat pages.
Proof.
  revert cs rest. induction pages as [|pg pages IH]; intros cs rest; simpl.
  - by intros [= <- <-].
  - destruct (existsb _ pg).
    + by intros [= <- <-].
    + destruct (loadUntil ref pages) as [m r]. intros [= <- <-].
      rewrite <- (app_assoc pg). by rewrite (IH m r eq_refl).
Qed.

Lemma materialize_children calls n cs rest :
  materialize calls n = (cs, rest) → cs ++ concat rest = children_of n.
Proof.
  unfold materialize, children_of. destruct calls as [|[ref] calls].
  - destruct (node_pages n); simpl; by intros [= <- <-].
  - apply loadUntil_children.
Qed.

Lemma queue_size_app q1 q2 : queue_size (q1 ++ q2) = queue_size q1 + queue_size q2.
Proof. unfold queue_size. by rewrite map_app, list_sum_app. Qed.

Lemma queue_size_indexed p i cs : queue_size (indexed p i cs) = list_sum (map node_size cs).
Proof.
  revert i. induction cs as [|c cs IH]; intros i; simpl; [done|].
  unfold queue_size in *. simpl. by rewrite IH.
Qed.

(** ** Guarded logs *)

Lemma legal_app G tr ev1 ev2 :
  legal G tr ev1 → legal G (tr ++ ev1) ev2 → legal G tr (ev1 ++ ev2).
Proof.
  intros H1. revert ev2. induction H1 as [tr|tr e ev Hg H1 IH]; intros ev2 H2; simpl.
  - by rewrite app_nil_r in H2.
  - constructor; [done|]. apply IH. by rewrite <- app_assoc.
Qed.

Lemma legal_Forall G (P : Event → Prop) ev :
  (∀ tr e, P e → G tr e) → Forall P ev → ∀ tr, legal G tr ev.
Proof.
  intros HP Hev. induction Hev as [|e ev He Hev IH]; intros tr; constructor; auto.
Qed.

Lemma legal_lookup G tr ev i e :
  legal G tr ev → ev !! i = Some e → G (tr ++ take i ev) e.
Proof.
  intros H. revert i. induction H as [tr|tr e' ev Hg H IH]; intros i Hi; [done|].
  destruct i as [|i]; simpl in *.
  - injection Hi as ->. by rewrite app_nil_r.
  - apply IH in Hi. by rewrite <- app_assoc in Hi.
Qed.

Lemma guarded_test tok tr p : guarded tok tr (EvTest p).
Proof. split; [done|]. by intros q. Qed.

Lemma guarded_loadUntil tok tr p ref : guarded tok tr (EvLoadMoreUntil p ref).
Proof. split; [done|]. by intros q. Qed.

(** ** One turn of the loop *)

Section Engine.
Variables (opts : FindOptions) (m : Matcher).

Lemma scan_spec p cs : ∀ i tr r tr',
  scan m p i cs tr = (r, tr') →
  ∃ ev, tr' = tr ++ ev
    ∧ Forall (λ e, ∃ j c, e = EvTest (p ++ [j]) ∧ i ≤ j ∧ cs !! (j - i) = Some c) ev
    ∧ ∀ q c, r = Some (q, c) → ∃ j, q = p ++ [j] ∧ i ≤ j ∧ cs !! (j - i) = Some c.
Proof.
  induction cs as [|c cs IH]; intros i tr r tr'; simpl.
  - intros [= <- <-]. exists []. rewrite app_nil_r. repeat split; [constructor|done].
  - destruct (matches m c).
    + intros [= <- <-]. exists [EvTest (p ++ [i])]. repeat split.
      * constructor; [|constructor]. exists i, c. by rewrite Nat.sub_diag.
      * intros q c' [= <- <-]. exists i. by rewrite Nat.sub_diag.
    + intros H. destruct (IH _ _ _ _ H) as (ev & -> & Hev & Hr).
      exists (EvTest (p ++ [i]) :: ev). rewrite <- app_assoc. repeat split.
      * constructor.
        { exists i, c. by rewrite Nat.sub_diag. }
        eapply Forall_impl; [exact Hev|]. intros e (j & c' & -> & Hj & Hc).
        exists j, c'. repeat split; [lia|].
        replace (j - i) with (S (j - S i)) by lia. done.
      * intros q c' Hq. destruct (Hr _ _ Hq) as (j & -> & Hj & Hc).
        exists j. repeat split; [lia|].
        replace (j - i) with (S (j - S i)) by lia. done.
Qed.

Lemma legal_tests tok tr p (P : nat → Node → Prop) ev :
  Forall (λ e, ∃ j c, e = EvTest (p ++ [j]) ∧ P j c) ev → legal (guarded tok) tr ev.
Proof.
  intros Hev. eapply legal_Forall; [|exact Hev].
  intros tr' e (j & c & -> & _). apply guarded_test.
Qed.

Lemma pageLoop_spec tok p rest : ∀ cur pre tr,
  ∃ ev, page_trace (pageLoop tok m p (length pre) cur rest tr) = tr ++ ev
    ∧ Forall (page_event p (pre ++ cur ++ concat rest)) ev
    ∧ legal (guarded tok) tr ev
    ∧ ∀ q c tr', pageLoop tok m p (length pre) cur rest tr = PageFound (q, c) tr' →
        ∃ j, q = p ++ [j] ∧ (pre ++ cur ++ concat rest) !! j = Some c.
Proof.
  induction rest as [|pg rest IH]; intros cur pre tr; simpl.
  - destruct (scan m p (length pre) cur tr) as [r tr1] eqn:Hs.
    destruct (scan_spec _ _ _ _ _ _ Hs) as (ev & -> & Hev & Hr).
    exists ev. split; [by destruct r|]. split; [|split].
    + eapply Forall_impl; [exact Hev|]. intros e (j & c & -> & Hj & Hc). left.
      exists j, c. split; [done|]. rewrite lookup_app_r by lia.
      by rewrite app_nil_r.
    + by apply (legal_tests tok tr p
                  (λ j c, length pre ≤ j ∧ cur !! (j - length pre) = Some c)).
    + intros q c tr'. destruct r as [[q' c']|]; [|done]. intros [= <- <- <-].
      destruct (Hr _ _ eq_refl) as (j & -> & Hj & Hc).
      exists j. split; [done|]. rewrite lookup_app_r by lia. by rewrite app_nil_r.
  - destruct (scan m p (length pre) cur tr) as [r tr1] eqn:Hs.
    destruct (scan_spec _ _ _ _ _ _ Hs) as (ev & -> & Hev & Hr).
    assert (Hev' : Forall (page_event p (pre ++ cur ++ pg ++ concat rest)) ev).
    { eapply Forall_impl; [exact Hev|]. intros e (j & c & -> & Hj & Hc). left.
      exists j, c. split; [done|]. rewrite lookup_app_r by lia.
      by apply lookup_app_l_Some. }
    assert (Hlegal : legal (guarded tok) tr ev)
      by (by apply (legal_tests tok tr p
                      (λ j c, length pre ≤ j ∧ cur !! (j - length pre) = Some c))).
    destruct r as [[q c]|].
    { exists ev. repeat split; [done..|]. intros q' c' tr' [= <- <- <-].
      destruct (Hr _ _ eq_refl) as (j & -> & Hj & Hc).
      exists j. split; [done|]. rewrite lookup_app_r by lia.
      by apply lookup_app_l_Some. }
    destruct (isCancellationRequested tok (tr ++ ev)) eqn:Hcancel.
    { exists ev. by repeat split. }
    destruct (isCancellationRequested tok ((tr ++ ev) ++ [EvLoadMore p])) eqn:Hcancel2.
    { exists (ev ++ [EvLoadMore p]). simpl. rewrite <- app_assoc.
      split; [done|]. split; [|split; [|done]].
      - apply Forall_app. split; [done|]. constructor; [by right|constructor].
      - apply legal_app; [done|]. constructor; [|constructor].
        split; [done|]. by intros q. }
    destruct (IH pg (pre ++ cur) ((tr ++ ev) ++ [EvLoadMore p]))
      as (ev2 & Htr & Hev2 & Hlegal2 & Hfound).
    rewrite length_app in Htr, Hfound.
    rewrite <- (app_assoc pre cur (pg ++ concat rest)) in Hev2, Hfound.
    exists (ev ++ EvLoadMore p :: ev2). split; [|split; [|split]].
    + rewrite Htr. by rewrite <- !app_assoc.
    + apply Forall_app. split; [done|]. constructor; [by right|done].
    + apply legal_app; [done|]. constructor; [|done].
      split; [done|]. by intros q.
    + done.
Qed.

Lemma Forall_callEvents p n f :
  canTraverse opts = Some f → length p < maxDepth opts →
  Forall (turn_event opts p n) (callEvents p (f n).1).
Proof.
  intros Hf Hd. unfold callEvents. apply Forall_map, Forall_forall.
  intros [ref] Hin. right; right; left. split; [done|]. right. by exists f, ref.
Qed.

Lemma legal_callEvents tok tr p calls : legal (guarded tok) tr (callEvents p calls).
Proof.
  revert tr. induction calls as [|[ref] calls IH]; intros tr; simpl; constructor.
  - apply guarded_loadUntil.
  - apply IH.
Qed.

Lemma step_spec p n q tr :
  ∃ ev, result_trace (step opts m ((p, n) :: q) tr) = tr ++ ev
    ∧ Forall (turn_event opts p n) ev
    ∧ legal (guarded (token opts)) tr ev
    ∧ match step opts m ((p, n) :: q) tr with
      | Next q' _ =>
          ∃ cs, q' = q ++ indexed p 0 cs
            ∧ (cs = [] ∨ (length p < maxDepth opts ∧ traversable opts n = true
                          ∧ cs `prefix_of` children_of n))
      | Done (Found (p', n')) _ =>
          (p' = p ∧ n' = n)
          ∨ (length p < maxDepth opts ∧ traversable opts n = true
             ∧ ∃ j, p' = p ++ [j] ∧ children_of n !! j = Some n')
      | Done _ _ => True
      end.
Proof.
  unfold step.
  destruct (isCancellationRequested (token opts) tr) eqn:Hc1.
  { exists []. simpl. rewrite app_nil_r. split; [done|]. split; [constructor|].
    split; [constructor|done]. }
  assert (Hvt : Forall (turn_event opts p n) [EvVisit p; EvTest p]).
  { constructor; [by left|]. constructor; [right; by left|]. constructor. }
  assert (Hlvt : legal (guarded (token opts)) tr [EvVisit p; EvTest p]).
  { constructor; [split; [done|by intros q']|].
    constructor; [apply guarded_test|constructor]. }
  destruct (matches m n).
  { exists [EvVisit p; EvTest p]. simpl. repeat split; [done..|]. by left. }
  destruct (Nat.leb (maxDepth opts) (length p)) eqn:Hdepth.
  { exists [EvVisit p; EvTest p]. simpl. repeat split; [done..|].
    exists []. simpl. rewrite app_nil_r. auto. }
  apply Nat.leb_gt in Hdepth.
  set (ct := match canTraverse opts with
             | Some f => let '(calls, ok) := f n in
                         (calls, ok, (tr ++ [EvVisit p; EvTest p])
                                       ++ EvCanTraverse p :: callEvents p calls)
             | None => ([], true, tr ++ [EvVisit p; EvTest p])
             end).
  assert (Hct : ∃ calls ok ev2, ct = (calls, ok, tr ++ ev2)
            ∧ Forall (turn_event opts p n) ev2
            ∧ legal (guarded (token opts)) tr ev2
            ∧ ok = traversable opts n).
  { subst ct. unfold traversable. destruct (canTraverse opts) as [f|] eqn:Hf.
    - pose proof (Forall_callEvents p n f Hf Hdepth) as Hcalls.
      destruct (f n) as [calls ok]. exists calls, ok.
      exists ([EvVisit p; EvTest p] ++ EvCanTraverse p :: callEvents p calls).
      rewrite <- app_assoc. repeat split.
      + apply Forall_app. split; [done|]. constructor.
        * right; right; left. auto.
        * exact Hcalls.
      + apply legal_app; [done|]. constructor; [|apply legal_callEvents].
        split; [done|]. intros q' [= <-].
        replace (tr ++ [EvVisit p; EvTest p]) with ((tr ++ [EvVisit p]) ++ [EvTest p])
          by (by rewrite <- app_assoc).
        by rewrite last_snoc.
    - exists [], true, [EvVisit p; EvTest p]. auto. }
  destruct Hct as (calls & ok & ev2 & -> & Hev2 & Hlegal2 & Hok).
  destruct ok; simpl.
  2:{ exists ev2. repeat split; [done..|]. exists []. simpl. rewrite app_nil_r. auto. }
  destruct (isCancellationRequested (token opts) (tr ++ ev2)) eqn:Hc2.
  { by exists ev2. }
  destruct (materialize calls n) as [cs rest] eqn:Hmat.
  apply materialize_children in Hmat.
  assert (Hch : turn_event opts p n (EvChildren p)).
  { right; right; right. auto. }
  assert (Hlch : legal (guarded (token opts)) tr (ev2 ++ [EvChildren p])).
  { apply legal_app; [done|]. constructor; [|constructor].
    split; [done|]. by intros q'. }
  destruct (isCancellationRequested (token opts) ((tr ++ ev2) ++ [EvChildren p]))
    eqn:Hc3.
  { exists (ev2 ++ [EvChildren p]). simpl. split; [symmetry; apply app_assoc|].
    split; [|done]. apply Forall_app. split; [done|]. by constructor. }
  destruct (pagingAllowed opts && hasMore rest) eqn:Hpg.
  2:{ exists (ev2 ++ [EvChildren p]). simpl. split; [symmetry; apply app_assoc|]. repeat split.
      - apply Forall_app. split; [done|]. by constructor.
      - done.
      - exists cs. split; [done|]. right. repeat split; [done..|].
        exists (concat rest). by rewrite Hmat. }
  apply andb_true_iff in Hpg as [Hpa _].
  destruct (pageLoop_spec (token opts) p rest cs [] ((tr ++ ev2) ++ [EvChildren p]))
    as (ev & Htr & Hev & Hlegal & Hfound).
  simpl in Htr, Hev, Hfound. rewrite Hmat in Hev, Hfound.
  exists (ev2 ++ EvChildren p :: ev).
  assert (Hall : Forall (turn_event opts p n) (ev2 ++ EvChildren p :: ev)).
  { apply Forall_app. split; [done|]. constructor; [done|].
    eapply Forall_impl; [exact Hev|]. intros e He.
    right; right; right. repeat split; [done..|]. destruct He as [He| ->]; auto. }
  assert (Hlall : legal (guarded (token opts)) tr (ev2 ++ EvChildren p :: ev)).
  { change (EvChildren p :: ev) with ([EvChildren p] ++ ev). rewrite app_assoc.
    apply legal_app; [done|]. by rewrite app_assoc. }
  destruct (pageLoop _ _ _ _ _ _ _) as [[q' c'] tr'|tr'|tr'] eqn:Hloop;
    simpl in Htr |- *; subst tr'; rewrite <- !app_assoc; simpl;
    (split; [done|]); (split; [done|]); (split; [done|]).
  - right. repeat split; [done..|]. by eapply Hfound.
  - done.
  - exists (cs ++ concat rest). split; [done|]. right. repeat split; [done..|].
    by rewrite Hmat.
Qed.

End Engine.

(** ** The whole walk *)

Section Walk.
Variables (root : Node) (opts : FindOptions) (m : Matcher).

Lemma okPath_child p n j :
  p ≠ [] → okPath root opts p → nodeAt root p = Some n → traversable opts n = true →
  length p < maxDepth opts → okPath root opts (p ++ [j]).
Proof.
  intros Hne Hok Hn Ht Hd p1 s Heq Hp1 Hs.
  destruct (exists_last Hs) as (s' & x & ->).
  rewrite app_assoc in Heq. apply app_inj_tail in Heq as [-> ->].
  destruct s' as [|y s'].
  - rewrite app_nil_r in *. eauto.
  - eapply Hok; [done|done|done].
Qed.

Lemma entry_ok_child p n j c :
  entry_ok root opts (p, n) → traversable opts n = true → length p < maxDepth opts →
  children_of n !! j = Some c → entry_ok root opts (p ++ [j], c).
Proof.
  intros (Hn & Hne & Hok & Hlen) Ht Hd Hc. simpl in *. repeat split; simpl.
  - by eapply nodeAt_child.
  - by destruct p.
  - by eapply okPath_child.
  - rewrite length_app. simpl. lia.
Qed.

Lemma entry_ok_indexed p n cs :
  entry_ok root opts (p, n) → traversable opts n = true → length p < maxDepth opts →
  ∀ pre, pre ++ cs `prefix_of` children_of n →
  Forall (entry_ok root opts) (indexed p (length pre) cs).
Proof.
  intros He Ht Hd. induction cs as [|c cs IH]; intros pre Hpre; simpl; constructor.
  - eapply entry_ok_child; [done..|]. destruct Hpre as [k ->].
    rewrite <- app_assoc. by rewrite lookup_app_r, Nat.sub_diag by lia.
  - specialize (IH (pre ++ [c])). rewrite length_app in IH. simpl in IH.
    rewrite Nat.add_1_r in IH. apply IH. by rewrite <- app_assoc.
Qed.

Lemma entry_ok_seed cs :
  ∀ pre, pre ++ cs `prefix_of` children_of root →
  Forall (entry_ok root opts) (indexed [] (length pre) cs).
Proof.
  induction cs as [|c cs IH]; intros pre Hpre; simpl; constructor.
  - repeat split; simpl.
    + destruct Hpre as [k ->]. rewrite <- app_assoc.
      by rewrite lookup_app_r, Nat.sub_diag by lia.
    + done.
    + intros p1 s Heq Hp1 Hs. destruct p1 as [|x [|y p1]]; [done| |done].
      simpl in Heq. injection Heq as _ <-. done.
    + lia.
  - specialize (IH (pre ++ [c])). rewrite length_app in IH. simpl in IH.
    rewrite Nat.add_1_r in IH. apply IH. by rewrite <- app_assoc.
Qed.

Lemma run_events : ∀ fuel q tr o tr',
  Forall (entry_ok root opts) q → run opts m fuel q tr = (Some o, tr') →
  ∃ ev, tr' = tr ++ ev
    ∧ Forall (walk_event root opts) ev
    ∧ legal (guarded (token opts)) tr ev
    ∧ ∀ r, o = Found r → entry_ok root opts r.
Proof.
  induction fuel as [|fuel IH]; intros q tr o tr' Hq; simpl; [done|].
  destruct q as [|[p n] q].
  { simpl. intros [= <- <-]. exists []. rewrite app_nil_r.
    split; [done|]. split; [constructor|]. split; [constructor|done]. }
  apply Forall_cons in Hq as [Hpn Hq].
  destruct (step_spec opts m p n q tr) as (ev & Htr & Hev & Hlegal & Hres).
  assert (Hev' : Forall (walk_event root opts) ev).
  { eapply Forall_impl; [exact Hev|]. intros e He. by exists p, n. }
  destruct (step opts m ((p, n) :: q) tr) as [o1 tr1|q1 tr1]; simpl in Htr; subst tr1.
  - intros [= <- <-]. exists ev. split; [done|]. split; [done|]. split; [done|].
    intros [p' n'] ->.
    destruct Hres as [[-> ->]|(Hd & Ht & j & -> & Hj)]; [done|].
    eapply entry_ok_child; eauto.
  - intros Hrun. destruct Hres as (cs & -> & Hcs).
    assert (Hq1 : Forall (entry_ok root opts) (q ++ indexed p 0 cs)).
    { apply Forall_app. split; [done|].
      destruct Hcs as [->|(Hd & Ht & Hpre)]; [constructor|].
      by apply (entry_ok_indexed p n cs Hpn Ht Hd []). }
    destruct (IH _ _ _ _ Hq1 Hrun) as (ev2 & -> & Hev2 & Hlegal2 & Hr).
    exists (ev ++ ev2). rewrite <- app_assoc.
    split; [done|]. split; [by apply Forall_app|]. split; [by apply legal_app|done].
Qed.

Lemma run_extends : ∀ fuel q tr, tr `prefix_of` (run opts m fuel q tr).2.
Proof.
  induction fuel as [|fuel IH]; intros q tr; simpl; [done|].
  destruct q as [|[p n] q]; [done|].
  destruct (step_spec opts m p n q tr) as (ev & Htr & _).
  destruct (step opts m ((p, n) :: q) tr) as [o1 tr1|q1 tr1]; simpl in Htr; subst tr1.
  - by exists ev.
  - etrans; [|apply IH]. by exists ev.
Qed.

Lemma step_decreases p n q tr q' tr' :
  step opts m ((p, n) :: q) tr = Next q' tr' → queue_size q' < queue_size ((p, n) :: q).
Proof.
  intros Hstep. destruct (step_spec opts m p n q tr) as (ev & _ & _ & _ & Hres).
  rewrite Hstep in Hres. destruct Hres as (cs & -> & Hcs).
  rewrite queue_size_app, queue_size_indexed.
  change (queue_size ((p, n) :: q)) with (node_size n + queue_size q).
  rewrite node_size_children.
  destruct Hcs as [->|(_ & _ & [k Hk])]; simpl; [lia|].
  rewrite Hk, map_app, list_sum_app. lia.
Qed.

(** The loop comes to an end before the fuel does. *)
Lemma run_terminates : ∀ fuel q tr,
  queue_size q < fuel → ∃ o tr', run opts m fuel q tr = (Some o, tr').
Proof.
  induction fuel as [|fuel IH]; intros q tr Hfuel; [lia|]. simpl.
  destruct q as [|[p n] q]; [by eexists _, _|].
  destruct (step opts m ((p, n) :: q) tr) as [o1 tr1|q1 tr1] eqn:Hstep; [by eexists _, _|].
  apply IH. apply step_decreases in Hstep. lia.
Qed.

Lemma seed_size cs rest :
  firstPage (node_pages root) = (cs, rest) →
  queue_size (indexed [] 0 cs) < node_size root.
Proof.
  intros Hfp. rewrite queue_size_indexed, node_size_children.
  assert (Hcs : cs ++ concat rest = children_of root) by (by apply (materialize_children [])).
  rewrite <- Hcs, map_app, list_sum_app. lia.
Qed.

(** Every search returns: the walk is total. *)
Lemma findNodeCore_terminates tr :
  ∃ o tr', findNodeCore root m opts tr = (Some o, tr').
Proof.
  unfold findNodeCore. destruct (isCancellationRequested _ _); [by eexists _, _|].
  destruct (firstPage (node_pages root)) as [cs rest] eqn:Hfp.
  apply run_terminates. by eapply seed_size.
Qed.

Lemma findNodeCore_events tr o tr' :
  findNodeCore root m opts tr = (o, tr') →
  ∃ ev, tr' = tr ++ ev
    ∧ Forall (λ e, e = EvChildren [] ∨ walk_event root opts e) ev
    ∧ legal (guarded (token opts)) tr ev
    ∧ (∀ e, ev !! 0 = Some e → e = EvChildren [])
    ∧ ∀ r, o = Some (Found r) → entry_ok root opts r.
Proof.
  destruct (findNodeCore_terminates tr) as (o1 & tr1 & Hterm).
  rewrite Hterm. intros [= <- <-]. revert Hterm. unfold findNodeCore.
  destruct (isCancellationRequested _ _) eqn:Hc.
  { intros [= <- <-]. exists []. rewrite app_nil_r.
    split; [done|]. split; [constructor|]. split; [constructor|done]. }
  destruct (firstPage (node_pages root)) as [cs rest] eqn:Hfp.
  assert (Hcs : cs ++ concat rest = children_of root) by (by apply (materialize_children [])).
  intros Hrun. apply run_events in Hrun as (ev & -> & Hev & Hlegal & Hr).
  - exists (EvChildren [] :: ev). rewrite <- app_assoc.
    split; [done|]. split; [|split; [|split]].
    + constructor; [by left|]. eapply Forall_impl; [exact Hev|]. auto.
    + constructor; [|done]. split; [done|]. by intros q.
    + by intros e [= <-].
    + intros r [= ->]. by apply Hr.
  - apply (entry_ok_seed cs []). exists (concat rest). simpl. by rewrite Hcs.
Qed.

Lemma findNode_events tr r tr' :
  findNode root m opts tr = (r, tr') →
  ∃ ev, tr' = tr ++ ev
    ∧ Forall (λ e, e = EvChildren [] ∨ walk_event root opts e) ev
    ∧ legal (guarded (token opts)) tr ev
    ∧ (∀ e, ev !! 0 = Some e → e = EvChildren [])
    ∧ ∀ x, r = Some x → entry_ok root opts x.
Proof.
  unfold findNode. destruct (findNodeCore root m opts tr) as [o tr1] eqn:Hcore.
  destruct (findNodeCore_events _ _ _ Hcore) as (ev & -> & Hev & Hlegal & Hhd & Hr).
  intros Hres. exists ev.
  assert (tr' = tr ++ ev) as -> by (destruct o as [[| |]|]; congruence).
  split; [done|]. split; [done|]. split; [done|]. split; [done|].
  intros x ->. apply Hr. destruct o as [[| |]|]; congruence.
Qed.

(** [findNode] reports what the walk found, on the same log. *)
Lemma findNode_core tr :
  findNode root m opts tr
  = (match (findNodeCore root m opts tr).1 with Some (Found r) => Some r | _ => None end,
     (findNodeCore root m opts tr).2).
Proof.
  unfold findNode. destruct (findNodeCore root m opts tr) as [[[r| |]|] tr']; done.
Qed.

(** *** A fetch follows the callback *)

Lemma legal_no_fetch tr ev :
  Forall (λ e, ∀ p, e ≠ EvChildren p) ev → legal (fetch_guard root opts) tr ev.
Proof.
  intros Hev. revert tr. apply (legal_Forall _ (λ e, ∀ p, e ≠ EvChildren p)); [|done].
  intros tr e He p Hp. by destruct (He p).
Qed.

Lemma callEvents_no_fetch p calls :
  Forall (λ e, ∀ q, e ≠ EvChildren q) (callEvents p calls).
Proof. unfold callEvents. apply Forall_map, Forall_forall. by intros [ref] _ q. Qed.

Lemma page_events_no_fetch p all ev :
  Forall (page_event p all) ev → Forall (λ e, ∀ q, e ≠ EvChildren q) ev.
Proof.
  intros Hev. eapply Forall_impl; [exact Hev|].
  intros e [(j & c & -> & _)| ->] q; done.
Qed.

Lemma step_fetch p n q tr :
  nodeAt root p = Some n →
  ∃ ev, result_trace (step opts m ((p, n) :: q) tr) = tr ++ ev
    ∧ legal (fetch_guard root opts) tr ev.
Proof.
  intros Hn. unfold step.
  destruct (isCancellationRequested (token opts) tr).
  { exists []. simpl. rewrite app_nil_r. split; [done|constructor]. }
  assert (Hvt : Forall (λ e, ∀ q, e ≠ EvChildren q) [EvVisit p; EvTest p])
    by (by repeat constructor).
  destruct (matches m n).
  { exists [EvVisit p; EvTest p]. split; [done|]. by apply legal_no_fetch. }
  destruct (Nat.leb (maxDepth opts) (length p)).
  { exists [EvVisit p; EvTest p]. split; [done|]. by apply legal_no_fetch. }
  set (ev2 := [EvVisit p; EvTest p] ++ callbackLog opts p n).
  assert (Hev2 : Forall (λ e, ∀ q, e ≠ EvChildren q) ev2).
  { subst ev2. apply Forall_app. split; [done|]. unfold callbackLog.
    destruct (canTraverse opts) as [f|]; [|constructor].
    constructor; [done|]. apply callEvents_no_fetch. }
  assert (Hct : ∃ calls,
            match canTraverse opts with
            | Some f => let '(calls, ok) := f n in
                        (calls, ok, (tr ++ [EvVisit p; EvTest p])
                                      ++ EvCanTraverse p :: callEvents p calls)
            | None => ([], true, tr ++ [EvVisit p; EvTest p])
            end = (calls, traversable opts n, tr ++ ev2)).
  { subst ev2. unfold traversable, callbackLog.
    destruct (canTraverse opts) as [f|].
    - destruct (f n) as [calls ok]. exists calls. simpl. by rewrite <- app_assoc.
    - by exists []. }
  destruct Hct as (calls & ->).
  destruct (traversable opts n) eqn:Ht; simpl.
  2:{ exists ev2. split; [done|]. by apply legal_no_fetch. }
  destruct (isCancellationRequested (token opts) (tr ++ ev2)).
  { exists ev2. split; [done|]. by apply legal_no_fetch. }
  destruct (materialize calls n) as [cs rest].
  assert (Hfetch : legal (fetch_guard root opts) tr (ev2 ++ [EvChildren p])).
  { apply legal_app; [by apply legal_no_fetch|]. constructor; [|constructor].
    intros p' [= <-] _. exists n, (tr ++ [EvVisit p]). split; [done|]. split; [done|].
    subst ev2. by rewrite <- !app_assoc. }
  destruct (isCancellationRequested (token opts) ((tr ++ ev2) ++ [EvChildren p])).
  { exists (ev2 ++ [EvChildren p]). simpl. by rewrite <- app_assoc. }
  destruct (pagingAllowed opts && hasMore rest).
  2:{ exists (ev2 ++ [EvChildren p]). simpl. by rewrite <- app_assoc. }
  destruct (pageLoop_spec m (token opts) p rest cs [] ((tr ++ ev2) ++ [EvChildren p]))
    as (ev & Htr & Hev & _).
  simpl in Htr. exists ((ev2 ++ [EvChildren p]) ++ ev). split.
  - destruct (pageLoop _ _ _ _ _ _ _); simpl in *; subst; by rewrite <- !app_assoc.
  - apply legal_app; [done|]. apply legal_no_fetch. by eapply page_events_no_fetch.
Qed.

Lemma run_fetch : ∀ fuel q tr o tr',
  Forall (entry_ok root opts) q → run opts m fuel q tr = (Some o, tr') →
  ∃ ev, tr' = tr ++ ev ∧ legal (fetch_guard root opts) tr ev.
Proof.
  induction fuel as [|fuel IH]; intros q tr o tr' Hq; simpl; [done|].
  destruct q as [|[p n] q].
  { simpl. intros [= <- <-]. exists []. rewrite app_nil_r. split; [done|constructor]. }
  apply Forall_cons in Hq as [Hpn Hq].
  destruct (step_spec opts m p n q tr) as (ev0 & Htr0 & _ & _ & Hres).
  destruct (step_fetch p n q tr) as (ev & Htr & Hlegal); [by destruct Hpn|].
  destruct (step opts m ((p, n) :: q) tr) as [o1 tr1|q1 tr1]; simpl in Htr; subst tr1.
  - intros [= <- <-]. by exists ev.
  - intros Hrun. destruct Hres as (cs & -> & Hcs).
    assert (Hq1 : Forall (entry_ok root opts) (q ++ indexed p 0 cs)).
    { apply Forall_app. split; [done|].
      destruct Hcs as [->|(Hd & Ht & Hpre)]; [constructor|].
      by apply (entry_ok_indexed p n cs Hpn Ht Hd []). }
    destruct (IH _ _ _ _ Hq1 Hrun) as (ev2 & -> & Hlegal2).
    exists (ev ++ ev2). rewrite <- app_assoc. split; [done|]. by apply legal_app.
Qed.

(** In the log of a search, the children of a node below the root are
    produced right after the node was tested, [canTraverse] evaluated on it
    and the calls awaited inside it made, and only if it was admitted. *)
Lemma fetch_after_callback tr r ev i p :
  findNode root m opts tr = (r, tr ++ ev) →
  ev !! i = Some (EvChildren p) → p ≠ [] →
  ∃ n tr0, nodeAt root p = Some n ∧ traversable opts n = true
           ∧ tr ++ take i ev = tr0 ++ EvTest p :: callbackLog opts p n.
Proof.
  intros Hfind Hi Hp.
  assert (Hlegal : legal (fetch_guard root opts) tr ev).
  { rewrite findNode_core in Hfind. injection Hfind as _ Htr.
    destruct (findNodeCore_terminates tr) as (o1 & tr1 & Hterm).
    rewrite Hterm in Htr. simpl in Htr. subst tr1. revert Hterm. unfold findNodeCore.
    destruct (isCancellationRequested _ _).
    { intros [= _ Heq]. rewrite <- (app_nil_r tr) in Heq at 1.
      apply app_inv_head in Heq as <-. constructor. }
    destruct (firstPage (node_pages root)) as [cs rest] eqn:Hfp.
    assert (Hcs : cs ++ concat rest = children_of root)
      by (by apply (materialize_children [])).
    intros Hrun. apply run_fetch in Hrun as (ev' & Heq & Hlegal').
    - rewrite <- app_assoc in Heq. apply app_inv_head in Heq as ->.
      constructor; [|done]. by intros p' [= <-].
    - apply (entry_ok_seed cs []). exists (concat rest). simpl. by rewrite Hcs. }
  by apply (legal_lookup _ _ _ _ _ Hlegal Hi p).
Qed.

End Walk.

(** ** A cancelled walk against the same walk left alone *)

Section Cancellation.
Variables (opts : FindOptions) (m : Matcher).

Lemma pageLoop_extends tok p rest : ∀ i cur tr,
  tr `prefix_of` page_trace (pageLoop tok m p i cur rest tr).
Proof.
  induction rest as [|pg rest IH]; intros i cur tr; simpl;
    destruct (scan m p i cur tr) as [r tr1] eqn:Hs;
    destruct (scan_spec _ _ _ _ _ _ _ Hs) as (ev & -> & _);
    destruct r as [r|]; try (by exists ev).
  destruct (isCancellationRequested tok (tr ++ ev)); [by exists ev|].
  destruct (isCancellationRequested tok ((tr ++ ev) ++ [EvLoadMore p])).
  - simpl. rewrite <- app_assoc. by eexists.
  - etrans; [|apply IH]. rewrite <- app_assoc. by eexists.
Qed.

Lemma pageLoop_sim tok p rest : ∀ i cur tr,
  pageLoop tok m p i cur rest tr = pageLoop None m p i cur rest tr
  ∨ ∃ tr', pageLoop tok m p i cur rest tr = PageCancelled tr'
           ∧ tr' `prefix_of` page_trace (pageLoop None m p i cur rest tr).
Proof.
  induction rest as [|pg rest IH]; intros i cur tr; simpl.
  - left. by destruct (scan m p i cur tr) as [[r|] tr1].
  - destruct (scan m p i cur tr) as [[r|] tr1]; [by left|].
    destruct (isCancellationRequested tok tr1).
    { right. exists tr1. split; [done|].
      etrans; [|apply pageLoop_extends]. by eexists. }
    destruct (isCancellationRequested tok (tr1 ++ [EvLoadMore p])); [|apply IH].
    right. exists (tr1 ++ [EvLoadMore p]). split; [done|]. apply pageLoop_extends.
Qed.

Lemma step_sim q tr :
  step opts m q tr = step (withoutToken opts) m q tr
  ∨ ∃ tr', step opts m q tr = Done Cancelled tr'
           ∧ tr' `prefix_of` result_trace (step (withoutToken opts) m q tr).
Proof.
  destruct q as [|[p n] q]; [by left|].
  destruct (step_spec (withoutToken opts) m p n q tr) as (ev0 & Htr0 & _).
  unfold step in *. simpl in *.
  change (pagingAllowed (withoutToken opts)) with (pagingAllowed opts) in *.
  destruct (isCancellationRequested (token opts) tr).
  { right. exists tr. split; [done|]. rewrite Htr0. by exists ev0. }
  destruct (matches m n); [by left|].
  destruct (Nat.leb (maxDepth opts) (length p)); [by left|].
  destruct (match canTraverse opts with
            | Some f => let '(calls, ok) := f n in
                        (calls, ok, (tr ++ [EvVisit p; EvTest p])
                                      ++ EvCanTraverse p :: callEvents p calls)
            | None => ([], true, tr ++ [EvVisit p; EvTest p])
            end) as [[calls ok] tr2].
  destruct ok; simpl; [|by left].
  destruct (materialize calls n) as [cs rest].
  assert (Hext : tr2 ++ [EvChildren p]
            `prefix_of` result_trace
              (if pagingAllowed opts && hasMore rest
               then match pageLoop None m p 0 cs rest (tr2 ++ [EvChildren p]) with
                    | PageFound r tr4 => Done (Found r) tr4
                    | PageCancelled tr4 => Done Cancelled tr4
                    | PageExhausted tr4 =>
                        Next (q ++ indexed p 0 (cs ++ concat rest)) tr4
                    end
               else Next (q ++ indexed p 0 cs) (tr2 ++ [EvChildren p]))).
  { destruct (pagingAllowed opts && hasMore rest); [|done].
    pose proof (pageLoop_extends None p rest 0 cs (tr2 ++ [EvChildren p])) as Hpl.
    by destruct (pageLoop None m p 0 cs rest (tr2 ++ [EvChildren p])). }
  destruct (isCancellationRequested (token opts) tr2).
  { right. exists tr2. split; [done|]. etrans; [|exact Hext]. by eexists. }
  destruct (isCancellationRequested (token opts) (tr2 ++ [EvChildren p])).
  { right. by exists (tr2 ++ [EvChildren p]). }
  destruct (pagingAllowed opts && hasMore rest); [|by left].
  destruct (pageLoop_sim (token opts) p rest 0 cs (tr2 ++ [EvChildren p]))
    as [->|(tr' & -> & Hpre)]; [by left|].
  right. exists tr'. split; [done|].
  by destruct (pageLoop None m p 0 cs rest (tr2 ++ [EvChildren p])).
Qed.

Lemma run_sim : ∀ fuel q tr,
  run opts m fuel q tr = run (withoutToken opts) m fuel q tr
  ∨ ∃ tr', run opts m fuel q tr = (Some Cancelled, tr')
           ∧ tr' `prefix_of` (run (withoutToken opts) m fuel q tr).2.
Proof.
  induction fuel as [|fuel IH]; intros q tr; simpl; [by left|].
  destruct (step_sim q tr) as [->|(tr' & -> & Hpre)].
  - destruct (step (withoutToken opts) m q tr) as [o1 tr1|q1 tr1]; [by left|apply IH].
  - right. exists tr'. split; [done|].
    destruct (step (withoutToken opts) m q tr) as [o1 tr1|q1 tr1]; simpl in *; [done|].
    etrans; [exact Hpre|]. apply run_extends.
Qed.

Lemma findNodeCore_sim root tr :
  findNodeCore root m opts tr = findNodeCore root m (withoutToken opts) tr
  ∨ ∃ tr', findNodeCore root m opts tr = (Some Cancelled, tr')
           ∧ tr' `prefix_of` (findNodeCore root m (withoutToken opts) tr).2.
Proof.
  unfold findNodeCore. simpl.
  destruct (firstPage (node_pages root)) as [cs rest].
  destruct (isCancellationRequested (token opts) tr).
  - right. exists tr. split; [done|].
    etrans; [|apply run_extends]. by eexists.
  - apply run_sim.
Qed.

(** A match is returned in the same synchronous stretch in which the token
    was last read. *)
Lemma pageLoop_fresh tok p rest : ∀ i cur tr r tr',
  isCancellationRequested tok tr = false →
  pageLoop tok m p i cur rest tr = PageFound r tr' → fresh_match tok tr'.
Proof.
  induction rest as [|pg rest IH]; intros i cur tr r tr' Hc; simpl;
    destruct (scan m p i cur tr) as [r1 tr1] eqn:Hs;
    destruct (scan_spec _ _ _ _ _ _ _ Hs) as (ev & -> & Hev & _);
    assert (Hfresh : fresh_match tok (tr ++ ev))
      by (exists tr, ev; repeat split; [done|];
          eapply Forall_impl; [exact Hev|]; by intros e (j & c & -> & _));
    destruct r1 as [r1|]; try (by intros [= <- <-]); try done.
  destruct (isCancellationRequested tok (tr ++ ev)); [done|].
  destruct (isCancellationRequested tok ((tr ++ ev) ++ [EvLoadMore p])) eqn:Hc2; [done|].
  by apply IH.
Qed.

Lemma step_fresh q tr r tr' :
  step opts m q tr = Done (Found r) tr' → fresh_match (token opts) tr'.
Proof.
  destruct q as [|[p n] q]; [done|]. unfold step.
  destruct (isCancellationRequested (token opts) tr) eqn:Hc1; [done|].
  destruct (matches m n).
  { intros [= <- <-]. exists tr, [EvVisit p; EvTest p]. repeat split; [done|].
    by repeat constructor. }
  destruct (Nat.leb (maxDepth opts) (length p)); [done|].
  destruct (match canTraverse opts with
            | Some f => let '(calls, ok) := f n in
                        (calls, ok, (tr ++ [EvVisit p; EvTest p])
                                      ++ EvCanTraverse p :: callEvents p calls)
            | None => ([], true, tr ++ [EvVisit p; EvTest p])
            end) as [[calls ok] tr2].
  destruct ok; simpl; [|done].
  destruct (isCancellationRequested (token opts) tr2); [done|].
  destruct (materialize calls n) as [cs rest].
  destruct (isCancellationRequested (token opts) (tr2 ++ [EvChildren p])) eqn:Hc3;
    [done|].
  destruct (pagingAllowed opts && hasMore rest); [|done].
  destruct (pageLoop (token opts) m p 0 cs rest (tr2 ++ [EvChildren p]))
    as [r1 tr4|tr4|tr4] eqn:Hloop; [|done..].
  intros [= <- <-]. by eapply pageLoop_fresh.
Qed.

Lemma run_fresh : ∀ fuel q tr r tr',
  run opts m fuel q tr = (Some (Found r), tr') → fresh_match (token opts) tr'.
Proof.
  induction fuel as [|fuel IH]; intros q tr r tr'; simpl; [done|].
  destruct (step opts m q tr) as [o1 tr1|q1 tr1] eqn:Hstep.
  - intros [= -> <-]. by eapply step_fresh.
  - apply IH.
Qed.

Lemma findNodeCore_fresh root tr r tr' :
  findNodeCore root m opts tr = (Some (Found r), tr') → fresh_match (token opts) tr'.
Proof.
  unfold findNodeCore. destruct (isCancellationRequested (token opts) tr); [done|].
  destruct (firstPage (node_pages root)) as [cs rest]. apply run_fresh.
Qed.

End Cancellation.

(** Under a token cancelled from [t] on, a log that ends in a fresh match
    holds all its awaits strictly before [t]. *)
Lemma fresh_match_awaits (t : nat) (tr ev : Trace) (i : nat) (e : Event) :
  fresh_match (Some (CancelledFrom t)) (tr ++ ev) →
  ev !! i = Some e → is_suspension e = true → length tr + i + 1 < t.
Proof.
  intros (tr1 & seg & Heq & Hc & Hseg) Hi He. simpl in Hc.
  apply Nat.leb_gt in Hc.
  destruct (decide (length tr + i < length tr1)) as [|Hge]; [lia|exfalso].
  assert (Hlook : (tr ++ ev) !! (length tr + i) = Some e).
  { rewrite lookup_app_r by lia. by replace (length tr + i - length tr) with i by lia. }
  rewrite Heq, lookup_app_r in Hlook by lia.
  rewrite Forall_forall in Hseg.
  assert (is_suspension e = false) by (eapply Hseg, list_elem_of_lookup_2, Hlook).
  congruence.
Qed.

(** ** What the log of a walk can hold *)

Section WalkEvents.
Variables (root : Node) (opts : FindOptions).

Lemma okPath_pruned p n s :
  nodeAt root p = Some n → traversable opts n = false → p ≠ [] → s ≠ [] →
  ¬ okPath root opts (p ++ s).
Proof.
  intros Hn Ht Hp Hs Hok. destruct (Hok p s eq_refl Hp Hs) as (n1 & Hn1 & Ht1 & _).
  congruence.
Qed.

Lemma walk_event_path e q :
  walk_event root opts e → event_path e = Some q →
  q ≠ [] ∧ okPath root opts q ∧ length q ≤ Nat.max 1 (maxDepth opts)
  ∧ is_Some (nodeAt root q).
Proof.
  intros (p & n & Hpn & He) Hq.
  assert (Hself : q = p → q ≠ [] ∧ okPath root opts q
                   ∧ length q ≤ Nat.max 1 (maxDepth opts) ∧ is_Some (nodeAt root q)).
  { intros ->. destruct Hpn as (Hn & Hne & Hok & Hlen). simpl in *. eauto. }
  destruct He as [->|[->|[(Hd & [->|(f & ref & _ & _ & ->)])|(Hd & Ht & He)]]];
    simpl in Hq; try (injection Hq as <-; by apply Hself).
  destruct He as [->|[(j & c & -> & Hc)| [-> _]]];
    simpl in Hq; try (injection Hq as <-; by apply Hself).
  injection Hq as <-.
  destruct (entry_ok_child root opts p n j c Hpn Ht Hd Hc) as (Hn & Hne & Hok & Hlen).
  simpl in *. eauto.
Qed.

Lemma walk_event_fetch e q :
  walk_event root opts e → e = EvChildren q ∨ e = EvLoadMore q →
  ∃ n, nodeAt root q = Some n ∧ traversable opts n = true ∧ length q < maxDepth opts.
Proof.
  intros (p & n & (Hn & _) & He) Hq. simpl in Hn.
  destruct He as [->|[->|[(Hd & [->|(f & ref & _ & _ & ->)])|(Hd & Ht & He)]]];
    try (by destruct Hq).
  destruct He as [->|[(j & c & -> & Hc)| [-> _]]]; try (by destruct Hq).
  - destruct Hq as [[= <-]|[=]]. eauto.
  - destruct Hq as [[=]|[= <-]]. eauto.
Qed.

Lemma walk_event_loadMore e q :
  walk_event root opts e → e = EvLoadMore q → pagingAllowed opts = true.
Proof.
  intros (p & n & _ & He) ->.
  destruct He as [[=]|[[=]|[(_ & [[=]|(f & ref & _ & _ & [=])])|(_ & _ & He)]]].
  by destruct He as [[=]|[(j & c & [=] & _)| [_ ?]]].
Qed.

Lemma walk_event_loadUntil e q ref :
  walk_event root opts e → e = EvLoadMoreUntil q ref →
  ∃ f n, canTraverse opts = Some f ∧ LoadMoreUntil ref ∈ (f n).1.
Proof.
  intros (p & n & _ & He) ->.
  destruct He as [[=]|[[=]|[(_ & [[=]|(f & ref' & Hf & Hin & [= -> ->])])|(_ & _ & He)]]].
  - eauto.
  - by destruct He as [[=]|[(j & c & [=] & _)| [[=] _]]].
Qed.

Lemma walk_event_loadUntil_at e q ref :
  walk_event root opts e → e = EvLoadMoreUntil q ref →
  q ≠ [] ∧ ∃ f n, nodeAt root q = Some n ∧ canTraverse opts = Some f
                   ∧ LoadMoreUntil ref ∈ (f n).1.
Proof.
  intros (p & n & (Hn & Hne & _) & He) ->. simpl in Hn, Hne.
  destruct He as [[=]|[[=]|[(_ & [[=]|(f & ref' & Hf & Hin & [= -> ->])])|(_ & _ & He)]]].
  - eauto 10.
  - by destruct He as [[=]|[(j & c & [=] & _)| [[=] _]]].
Qed.

Lemma walk_event_engine e :
  e = EvChildren [] ∨ walk_event root opts e → is_Some (event_path e).
Proof.
  intros [->|(p & n & _ & He)]; [by eexists|].
  destruct He as [->|[->|[(_ & [->|(f & ref & _ & _ & ->)])|(_ & _ & He)]]];
    try (by eexists).
  destruct He as [->|[(j & c & -> & _)| [-> _]]]; by eexists.
Qed.

End WalkEvents.

Lemma engine_event_not_ui e : is_Some (event_path e) → is_ui_request e = false.
Proof. intros [p Hp]. by destruct e. Qed.

Lemma last_take_S {A} (l l' : list A) i x :
  l' !! i = Some x → last (l ++ take (S i) l') = Some x.
Proof.
  intros Hi. rewrite (take_S_r _ _ _ Hi), app_assoc. by rewrite last_snoc.
Qed.

Lemma last_before {A} (tr ev : list A) i x e :
  last (tr ++ take i ev) = Some x → last tr ≠ Some x → ev !! i = Some e →
  ∃ j, i = S j ∧ ev !! j = Some x.
Proof.
  intros Hlast Htr Hi. destruct i as [|j].
  - simpl in Hlast. by rewrite app_nil_r in Hlast.
  - exists j. split; [done|]. destruct (ev !! j) as [y|] eqn:Hj.
    + rewrite (last_take_S tr ev j y Hj) in Hlast. by injection Hlast as ->.
    + apply lookup_ge_None in Hj. apply lookup_lt_Some in Hi. lia.
Qed.

(** * The claims *)

(** ** Pruning *)

(** Nothing below a node that [canTraverse] rejects enters the log, and the
    children of the node itself are not asked for. *)
Lemma pruned_events (root : Node) (m : Matcher) (opts : FindOptions)
    (tr : Trace) (r : option (Path * Node)) (tr' : Trace) (p : Path) (n : Node) :
  findNode root m opts tr = (r, tr') →
  p ≠ [] → nodeAt root p = Some n → traversable opts n = false →
  ∃ ev, tr' = tr ++ ev
    ∧ (∀ e, e ∈ ev → e ≠ EvChildren p ∧ e ≠ EvLoadMore p)
    ∧ (∀ s e, s ≠ [] → e ∈ ev → event_path e ≠ Some (p ++ s))
    ∧ (∀ s c, s ≠ [] → r ≠ Some (p ++ s, c)).
Proof.
  intros Hfind Hp Hn Ht.
  destruct (findNode_events _ _ _ _ _ _ Hfind) as (ev & -> & Hev & Hlegal & Hhd & Hr).
  exists ev. rewrite Forall_forall in Hev. split; [done|]. split; [|split].
  - intros e He. destruct (Hev e He) as [->|Hw].
    + split; intros [= <-]; done.
    + split; intros ->.
      * destruct (walk_event_fetch _ _ _ p Hw) as (n' & Hn' & Ht' & _); [by left|].
        congruence.
      * destruct (walk_event_fetch _ _ _ p Hw) as (n' & Hn' & Ht' & _); [by right|].
        congruence.
  - intros s e Hs He Hpath. destruct (Hev e He) as [->|Hw].
    + simpl in Hpath. injection Hpath as Hpath. by destruct p.
    + destruct (walk_event_path _ _ _ _ Hw Hpath) as (_ & Hok & _).
      by eapply okPath_pruned.
  - intros s c Hs ->. destruct (Hr _ eq_refl) as (_ & _ & Hok & _). simpl in Hok.
    by eapply okPath_pruned.
Qed.

(** Wherever [canTraverse] is evaluated on a node, the event just before it is
    the matcher's test of that node. *)
Lemma tested_before_canTraverse (root : Node) (m : Matcher) (opts : FindOptions)
    (tr : Trace) (r : option (Path * Node)) (ev : Trace) (p : Path) (i : nat) :
  findNode root m opts tr = (r, tr ++ ev) →
  ev !! i = Some (EvCanTraverse p) → ∃ j, i = S j ∧ ev !! j = Some (EvTest p).
Proof.
  intros Hfind Hi.
  destruct (findNode_events _ _ _ _ _ _ Hfind) as (ev' & Heq & _ & Hlegal & Hhd & _).
  apply app_inv_head in Heq as <-.
  pose proof (legal_lookup _ _ _ _ _ Hlegal Hi) as [_ Hlast].
  specialize (Hlast p eq_refl). destruct i as [|j].
  - by specialize (Hhd _ Hi).
  - exists j. split; [done|].
    destruct (ev !! j) as [x|] eqn:Hj.
    + rewrite (last_take_S tr ev j x Hj) in Hlast. by injection Hlast as ->.
    + apply lookup_ge_None in Hj. apply lookup_lt_Some in Hi. lia.
Qed.

(** C3 — Pruning correctness of the search, on the engine as the
    specification describes it.  Let [n], at position [p] below the search
    root, be a node on which [canTraverse] answers false.  Then the children
    of [n] are never produced or paged, and the log of the search holds no
    event about a descendant of [n]: no descendant is visited or tested
    against the matcher, and the children of no descendant are produced; the
    search does not return a descendant; while wherever [canTraverse] was
    evaluated on [n], the event just before it is the matcher's test of [n]. *)
Theorem pruned_subtree_untouched (root : Node) (m : Matcher) (opts : FindOptions)
    (tr : Trace) (r : option (Path * Node)) (tr' : Trace) (p : Path) (n : Node) :
  findNode root m opts tr = (r, tr') →
  p ≠ [] → nodeAt root p = Some n → traversable opts n = false →
  ∃ ev, tr' = tr ++ ev
    ∧ (∀ e, e ∈ ev → e ≠ EvChildren p ∧ e ≠ EvLoadMore p)
    ∧ (∀ s e, s ≠ [] → e ∈ ev → event_path e ≠ Some (p ++ s))
    ∧ (∀ s c, s ≠ [] → r ≠ Some (p ++ s, c))
    ∧ (∀ i, ev !! i = Some (EvCanTraverse p) →
         ∃ j, i = S j ∧ ev !! j = Some (EvTest p)).
Proof.
  intros Hfind Hp Hn Ht.
  destruct (pruned_events _ _ _ _ _ _ _ _ Hfind Hp Hn Ht) as (ev & -> & H1 & H2 & H3).
  exists ev. repeat split; try done.
  - by apply H1.
  - by apply H1.
  - intros i Hi. by eapply tested_before_canTraverse.
Qed.

Lemma pruned_subtree_untouched_witness :
  let opts := findBranch_local_options (host := sampleHost) mainBranch None in
  let m := ByPredicate (branchMatcher mainBranch) in
  nodeAt sampleRoot [0; 1] = Some sampleRemotes
  ∧ traversable opts sampleRemotes = false
  ∧ ∃ ev, (findNode sampleRoot m opts []).2 = [] ++ ev
      ∧ (∀ e, e ∈ ev → e ≠ EvChildren [0; 1] ∧ e ≠ EvLoadMore [0; 1])
      ∧ (∀ s e, s ≠ [] → e ∈ ev → event_path e ≠ Some ([0; 1] ++ s))
      ∧ (∀ s c, s ≠ [] → (findNode sampleRoot m opts []).1 ≠ Some ([0; 1] ++ s, c))
      ∧ (∀ i, ev !! i = Some (EvCanTraverse [0; 1]) →
           ∃ j, i = S j ∧ ev !! j = Some (EvTest [0; 1])).
Proof.
  intros opts m. split; [reflexivity|]. split; [reflexivity|].
  apply (pruned_subtree_untouched sampleRoot m opts [] _ _ [0; 1] sampleRemotes).
  - apply surjective_pairing.
  - discriminate.
  - reflexivity.
  - reflexivity.
Defined.

(** ** Depth bounds *)

Lemma depth_bound_events (root : Node) (m : Matcher) (opts : FindOptions)
    (tr : Trace) (r : option (Path * Node)) (tr' : Trace) :
  1 ≤ maxDepth opts → findNode root m opts tr = (r, tr') →
  ∃ ev, tr' = tr ++ ev
    ∧ (∀ e p, e ∈ ev → event_path e = Some p → length p ≤ maxDepth opts)
    ∧ (∀ p n, r = Some (p, n) → length p ≤ maxDepth opts).
Proof.
  intros Hd Hfind.
  destruct (findNode_events _ _ _ _ _ _ Hfind) as (ev & -> & Hev & _ & _ & Hr).
  exists ev. rewrite Forall_forall in Hev. split; [done|]. split.
  - intros e p He Hp. destruct (Hev e He) as [->|Hw].
    + injection Hp as <-. simpl. lia.
    + destruct (walk_event_path _ _ _ _ Hw Hp) as (_ & _ & Hlen & _). lia.
  - intros p n ->. destruct (Hr _ eq_refl) as (_ & _ & _ & Hlen). simpl in Hlen. lia.
Qed.

Section Bounds.
Context {host : Host}.

Lemma query_depth_positive (q : Query) (tok : option CancellationToken) :
  1 ≤ maxDepth (query_options q tok).
Proof. destruct q; simpl; try lia. destruct (br_remote branch); simpl; lia. Qed.

(** C4 — The depth bounds of the query builders: 2 for a worktree, 8 for a
    commit searched through remote branches, and 5, 3, 2, 2, 2 for tag,
    stash, remote, contributor and worktree, all between 2 and 5.  And for
    the search of any query builder, on the engine as the specification
    describes it: every node the search visits, tests or expands, and the
    node it returns, lies at most [maxDepth] levels below the search root. *)
Theorem depth_bounds (q : Query) (tok : option CancellationToken) (root : Node)
    (m : Matcher) (tr : Trace) (r : option (Path * Node)) (tr' : Trace) :
  findNode root m (query_options q tok) tr = (r, tr') →
  (∀ w t, maxDepth (findWorktree_options w t) = 2)
  ∧ (∀ c bs t, maxDepth (findCommit_remote_options c bs t) = 8)
  ∧ (∀ g s x c w t,
       maxDepth (findTag_options g t) = 5
       ∧ maxDepth (findStash_options s t) = 3
       ∧ maxDepth (findRemote_options x t) = 2
       ∧ maxDepth (findContributor_options c t) = 2
       ∧ maxDepth (findWorktree_options w t) = 2
       ∧ Forall (λ d, 2 ≤ d ≤ 5)
           [maxDepth (findTag_options g t); maxDepth (findStash_options s t);
            maxDepth (findRemote_options x t); maxDepth (findContributor_options c t);
            maxDepth (findWorktree_options w t)])
  ∧ ∃ ev, tr' = tr ++ ev
      ∧ (∀ e p, e ∈ ev → event_path e = Some p →
           length p ≤ maxDepth (query_options q tok))
      ∧ (∀ p n, r = Some (p, n) → length p ≤ maxDepth (query_options q tok)).
Proof.
  intros Hfind. split; [done|]. split; [done|]. split.
  - intros g s x c w t. simpl. repeat split; try done.
    repeat constructor; lia.
  - eapply depth_bound_events; [apply query_depth_positive|done].
Qed.

End Bounds.

Lemma depth_bounds_witness :
  let opts := query_options (host := sampleHost) (QStash stashS0) None in
  let m := ById (StashNode_getId (Host := sampleHost) "/r" "s0") in
  (findNode sampleRoot m opts []).1
    = Some ([0; 2; 0], leaf "gitlens:repository(/r):stash(s0)" StashNode)
  ∧ ∃ ev, (findNode sampleRoot m opts []).2 = [] ++ ev
      ∧ (∀ e p, e ∈ ev → event_path e = Some p → length p ≤ 3)
      ∧ (∀ p n, (findNode sampleRoot m opts []).1 = Some (p, n) → length p ≤ 3).
Proof.
  intros opts m. split; [reflexivity|].
  apply (depth_bounds (host := sampleHost) (QStash stashS0) None sampleRoot m []
           (findNode sampleRoot m opts []).1 (findNode sampleRoot m opts []).2).
  apply surjective_pairing.
Defined.

(** ** Paging *)

Lemma no_page_requests (root : Node) (m : Matcher) (opts : FindOptions)
    (tr : Trace) (r : option (Path * Node)) (tr' : Trace) :
  pagingAllowed opts = false →
  (∀ f n, canTraverse opts = Some f → (f n).1 = []) →
  findNode root m opts tr = (r, tr') →
  ∃ ev, tr' = tr ++ ev ∧ Forall (λ e, is_page_request e = false) ev.
Proof.
  intros Hpg Hcalls Hfind.
  destruct (findNode_events _ _ _ _ _ _ Hfind) as (ev & -> & Hev & _).
  exists ev. split; [done|]. eapply Forall_impl; [exact Hev|].
  intros e [->|Hw]; [done|].
  destruct e; try done.
  - destruct (walk_event_loadUntil _ _ _ _ _ Hw eq_refl) as (f & n & Hf & Hin).
    rewrite (Hcalls f n Hf) in Hin. by apply elem_of_nil in Hin.
  - rewrite (walk_event_loadMore _ _ _ _ Hw eq_refl) in Hpg. done.
Qed.

Section Paging.
Context {host : Host}.

Lemma sync_canTraverse_contributor repoNodeId n :
  (findContributor_canTraverse repoNodeId n).1 = [].
Proof.
  unfold findContributor_canTraverse, verdict.
  by repeat match goal with |- context [if ?b then _ else _] => destruct b end.
Qed.

Lemma sync_canTraverse_stash repoNodeId n : (findStash_canTraverse repoNodeId n).1 = [].
Proof.
  unfold findStash_canTraverse, verdict.
  by repeat match goal with |- context [if ?b then _ else _] => destruct b end.
Qed.

Lemma sync_canTraverse_worktree repoNodeId n :
  (findWorktree_canTraverse repoNodeId n).1 = [].
Proof.
  unfold findWorktree_canTraverse, verdict.
  by repeat match goal with |- context [if ?b then _ else _] => destruct b end.
Qed.

Lemma sync_canTraverse_section repoNodeId n : (section_canTraverse repoNodeId n).1 = [].
Proof.
  unfold section_canTraverse, verdict.
  by repeat match goal with |- context [if ?b then _ else _] => destruct b end.
Qed.

(** The query builders that leave [allowPaging] out build callbacks that
    await nothing. *)
Lemma sync_canTraverse_unpaged (q : Query) (t : option CancellationToken)
    (f : Node → list NodeCall * bool) (n : Node) :
  pagingAllowed (query_options q t) = false →
  canTraverse (query_options q t) = Some f → (f n).1 = [].
Proof.
  destruct q; simpl; try done.
  - by destruct (br_remote branch).
  - intros _ [= <-]. apply sync_canTraverse_contributor.
  - intros _ [= <-]. apply sync_canTraverse_stash.
  - intros _ [= <-]. apply sync_canTraverse_worktree.
  - intros _ [= <-]. apply sync_canTraverse_section.
  - by intros _ [= <-].
Qed.

(** C10 — Paging is asked for by the branch, commit, remote and tag query
    builders only, which pass [allowPaging: true]; the contributor, stash and
    worktree builders (and the section and repository reveals) leave it out.
    On the engine as the specification describes it, a search that leaves it
    out logs no request for a further page, none by the engine and none by
    its [canTraverse]; so for [findContributor], [findStash] and
    [findWorktree]. *)
Theorem paging_only_where_allowed (root : Node) (tok : option CancellationToken)
    (tr : Trace) :
  (∀ q t, allowPaging (query_options q t)
          = match q with
            | QBranch _ | QCommitLocal _ _ | QCommitRemote _ _ | QRemote _ | QTag _ =>
                Some true
            | QContributor _ | QStash _ | QWorktree _ | QSection _ | QRepository _ =>
                None
            end)
  ∧ (∀ q t m, pagingAllowed (query_options q t) = false →
       ∃ ev, (findNode root m (query_options q t) tr).2 = tr ++ ev
         ∧ Forall (λ e, is_page_request e = false) ev)
  ∧ (∀ c, ∃ ev, (findContributor root c tok tr).2 = tr ++ ev
                ∧ Forall (λ e, is_page_request e = false) ev)
  ∧ (∀ s, ∃ ev, (findStash root s tok tr).2 = tr ++ ev
                ∧ Forall (λ e, is_page_request e = false) ev)
  ∧ (∀ w, ∃ ev, (findWorktree root w tok tr).2 = tr ++ ev
                ∧ Forall (λ e, is_page_request e = false) ev).
Proof.
  assert (Hunpaged : ∀ q t m, pagingAllowed (query_options q t) = false →
            ∃ ev, (findNode root m (query_options q t) tr).2 = tr ++ ev
              ∧ Forall (λ e, is_page_request e = false) ev).
  { intros q t m Hpg.
    eapply (no_page_requests root m (query_options q t)); [done| |apply surjective_pairing].
    intros f n Hf. by eapply sync_canTraverse_unpaged. }
  split; [|split; [exact Hunpaged|repeat split]].
  - intros q t. destruct q; simpl; try done. by destruct (br_remote branch).
  - intros c. by apply (Hunpaged (QContributor c) tok).
  - intros s. by apply (Hunpaged (QStash s) tok).
  - intros w. by apply (Hunpaged (QWorktree w) tok).
Qed.

End Paging.

Lemma paging_only_where_allowed_witness :
  let opts := query_options (host := sampleHost) (QStash stashS0) None in
  let m := ById (StashNode_getId (Host := sampleHost) "/r" "s0") in
  pagingAllowed opts = false
  ∧ ∃ ev, (findNode sampleRoot m opts []).2 = [] ++ ev
      ∧ Forall (λ e, is_page_request e = false) ev.
Proof.
  intros opts m. split; [reflexivity|].
  destruct (paging_only_where_allowed (host := sampleHost) sampleRoot None [])
    as (_ & Hunpaged & _).
  apply (Hunpaged (QStash stashS0) None m). reflexivity.
Defined.

(** ** Cancellation *)

(** C7 — Cancellation of a search, on the engine as the specification
    describes it.  Let the search carry a token that reads cancelled from the
    moment the log has [t] events.  Then the search returns (it does not fail
    or diverge); from that moment on it logs no node visit and no fetch (what
    it may still log is the rest of the synchronous stretch under way:
    matcher tests, and a [canTraverse] evaluation with the calls awaited in
    it); its log is an initial part of the log of the same search left alone;
    and it resolves to [undefined] whenever the cancellation came before the
    search started, or no later than the completion of one of its awaits, or
    while the search left alone still had a visit or a fetch to do, in which
    last case it ends as [Cancelled]. *)
Theorem cancellation_stops_walk (root : Node) (m : Matcher) (opts : FindOptions)
    (tr : Trace) (t : nat) :
  token opts = Some (CancelledFrom t) →
  is_Some (findNodeCore root m opts tr).1
  ∧ ∃ ev, (findNode root m opts tr).2 = tr ++ ev
      ∧ (∀ i e, ev !! i = Some e → t ≤ length tr + i → is_walk_step e = false)
      ∧ (findNode root m opts tr).2 `prefix_of` (findNode root m (withoutToken opts) tr).2
      ∧ (t ≤ length tr
         ∨ (∃ i e, ev !! i = Some e ∧ is_suspension e = true
                   ∧ t ≤ length tr + i + 1) →
         (findNode root m opts tr).1 = None)
      ∧ ((∃ i e, (findNode root m (withoutToken opts) tr).2 !! i = Some e
                 ∧ length tr ≤ i ∧ t ≤ i ∧ is_walk_step e = true) →
         (findNodeCore root m opts tr).1 = Some Cancelled
         ∧ (findNode root m opts tr).1 = None).
Proof.
  intros Htok. split.
  { destruct (findNodeCore_terminates root opts m tr) as (o & tr' & ->). by eexists. }
  destruct (findNode_events root opts m tr _ _ (surjective_pairing _))
    as (ev & Htr & _ & Hlegal & _).
  exists ev. split; [done|].
  assert (Hstop : ∀ i e, ev !! i = Some e → t ≤ length tr + i → is_walk_step e = false).
  { intros i e Hi Ht. destruct (is_walk_step e) eqn:Hstep; [|done].
    pose proof (legal_lookup _ _ _ _ _ Hlegal Hi) as [Hguard _].
    specialize (Hguard Hstep). rewrite Htok in Hguard. simpl in Hguard.
    apply Nat.leb_gt in Hguard. rewrite length_app, length_take in Hguard.
    apply lookup_lt_Some in Hi. lia. }
  split; [done|].
  rewrite !findNode_core in *. simpl in *.
  split; [|split].
  - destruct (findNodeCore_sim opts m root tr) as [Heq|(tr1 & Heq & Hpre)].
    + by rewrite <- Heq.
    + by rewrite Heq.
  - intros Hmid.
    destruct (findNodeCore root m opts tr) as [[[r| |]|] tr'] eqn:Hcore; try done.
    exfalso. simpl in Htr. subst tr'.
    apply findNodeCore_fresh in Hcore as Hfresh. rewrite Htok in Hfresh.
    destruct Hmid as [Hbefore|(i & e & Hi & He & Ht)].
    + destruct Hfresh as (tr1 & seg & Heq & Hc & _). simpl in Hc.
      apply Nat.leb_gt in Hc.
      unfold findNodeCore in Hcore. rewrite Htok in Hcore. simpl in Hcore.
      destruct (Nat.leb_spec t (length tr)); [done|lia].
    + pose proof (fresh_match_awaits t tr ev i e Hfresh Hi He). lia.
  - destruct (findNodeCore_sim opts m root tr) as [Heq|(tr1 & Heq & Hpre)].
    + rewrite <- Heq.
      intros (i & e & Hi & Hlen & Hti & Hstep). exfalso.
      rewrite Htr, lookup_app_r in Hi by lia.
      assert (is_walk_step e = false) by (eapply Hstop; [done|lia]).
      congruence.
    + rewrite Heq. simpl. by intros _.
Qed.

Lemma cancellation_stops_walk_witness :
  let opts := findTag_options (host := sampleHost)
                {| tg_repoPath := "/r"; tg_ref := "v1" |} (Some (CancelledFrom 5)) in
  let m := ByPredicate (tagMatcher {| tg_repoPath := "/r"; tg_ref := "v1" |}) in
  token opts = Some (CancelledFrom 5)
  ∧ (findNode sampleRoot m opts []).2
    = [EvChildren []; EvVisit [0]; EvTest [0]; EvCanTraverse [0]; EvChildren [0]]
  ∧ is_Some (findNodeCore sampleRoot m opts []).1
  ∧ ∃ ev, (findNode sampleRoot m opts []).2 = [] ++ ev
      ∧ (∀ i e, ev !! i = Some e → 5 ≤ length ([] : Trace) + i →
           is_walk_step e = false)
      ∧ (findNode sampleRoot m opts []).2
          `prefix_of` (findNode sampleRoot m (withoutToken opts) []).2
      ∧ (5 ≤ length ([] : Trace)
         ∨ (∃ i e, ev !! i = Some e ∧ is_suspension e = true
                   ∧ 5 ≤ length ([] : Trace) + i + 1) →
         (findNode sampleRoot m opts []).1 = None)
      ∧ ((∃ i e, (findNode sampleRoot m (withoutToken opts) []).2 !! i = Some e
                 ∧ length ([] : Trace) ≤ i ∧ 5 ≤ i ∧ is_walk_step e = true) →
         (findNodeCore sampleRoot m opts []).1 = Some Cancelled
         ∧ (findNode sampleRoot m opts []).1 = None).
Proof.
  intros opts m. split; [reflexivity|]. split; [reflexivity|].
  apply (cancellation_stops_walk sampleRoot m opts [] 5). reflexivity.
Defined.

(** ** The query builders *)

Lemma findNode_no_ui (root : Node) (m : Matcher) (opts : FindOptions) (tr : Trace) :
  ∃ ev, (findNode root m opts tr).2 = tr ++ ev
    ∧ Forall (λ e, is_ui_request e = false) ev.
Proof.
  destruct (findNode_events root opts m tr _ _ (surjective_pairing _))
    as (ev & Htr & Hev & _).
  exists ev. split; [done|]. eapply Forall_impl; [exact Hev|].
  intros e He. eapply engine_event_not_ui, walk_event_engine, He.
Qed.

(** Case analysis on the class of a node and on every test of a callback. *)
Ltac callback_cases n :=
  unfold verdict, isRepositoriesNode, isRepositoryNode, isBranchesNode, isBranchNode,
    isBranchOrTagFolderNode, isContributorsNode, isRemoteNode, isRemotesNode,
    isStashesNode, isTagsNode, isWorktreesNode in *;
  destruct (node_kind n) eqn:?; simpl in *;
  repeat match goal with
         | |- context [if ?b then _ else _] => destruct b eqn:?; simpl in *
         | H : context [if ?b then _ else _] |- _ => destruct b eqn:?; simpl in *
         end.

Section Builders.
Context {host : Host}.

Lemma findCommit_no_ui (root : Node) (commit : CommitArg)
    (tok : option CancellationToken) (tr : Trace) :
  ∃ ev, (findCommit root commit tok tr).2 = tr ++ ev
    ∧ Forall (λ e, is_ui_request e = false) ev.
Proof.
  unfold findCommit.
  destruct (negb _).
  - edestruct findNode_no_ui as (ev & -> & Hev).
    eexists (_ :: ev). rewrite <- app_assoc. split; [done|]. by constructor.
  - destruct (Nat.eqb _ 0).
    + eexists [_; _]. rewrite <- app_assoc. split; [done|]. by repeat constructor.
    + edestruct findNode_no_ui as (ev & -> & Hev).
      eexists (_ :: _ :: ev). rewrite <- !app_assoc. split; [done|].
      by repeat constructor.
Qed.

Lemma findCommit_local_fetch (root : Node) (commit : CommitArg) (locals : list string)
    (tok : option CancellationToken) (tr1 ev : Trace) (i : nat) (p : Path)
    (n : Node) (b : GitBranchReference) :
  (findNode root (ByPredicate (commitMatcher commit))
     (findCommit_local_options commit locals tok) tr1).2 = tr1 ++ ev →
  ev !! i = Some (EvChildren p) → p ≠ [] →
  nodeAt root p = Some n → node_kind n = BranchNode b →
  startsWith (node_id n) (RepositoryNode_getId (commit_repoPath commit)) = true
  ∧ includes locals (br_name b) = true
  ∧ last (tr1 ++ take i ev) = Some (EvLoadMoreUntil p (commit_ref commit)).
Proof.
  intros Hlog Hi Hp Hn Hk.
  destruct (fetch_after_callback root (findCommit_local_options commit locals tok)
              (ByPredicate (commitMatcher commit)) tr1
              (findNode root (ByPredicate (commitMatcher commit))
                 (findCommit_local_options commit locals tok) tr1).1 ev i p)
    as (n' & tr0 & Hn' & Ht & Htr).
  { rewrite <- Hlog. apply surjective_pairing. }
  { done. }
  { done. }
  rewrite Hn in Hn'. injection Hn' as <-.
  revert Ht Htr. unfold traversable, callbackLog. simpl.
  unfold findCommit_local_canTraverse, findCommit_local_branchCase, isRepositoriesNode,
    isRepositoryNode, isBranchesNode, isBranchOrTagFolderNode, verdict.
  rewrite Hk. simpl.
  destruct (startsWith (node_id n) _ && includes locals (br_name b)) eqn:Hadm; simpl;
    [|by intros [=]].
  apply andb_true_iff in Hadm as [Hid Hin]. intros _ ->.
  split; [done|]. split; [done|].
  change (last (tr0 ++ [EvTest p; EvCanTraverse p]
                    ++ [EvLoadMoreUntil p (commit_ref commit)])
          = Some (EvLoadMoreUntil p (commit_ref commit))).
  by rewrite app_assoc, last_snoc.
Qed.

Lemma findCommit_local_loadMore (root : Node) (commit : CommitArg) (locals : list string)
    (tok : option CancellationToken) (tr1 ev : Trace) (p : Path) (ref' : string) :
  (findNode root (ByPredicate (commitMatcher commit))
     (findCommit_local_options commit locals tok) tr1).2 = tr1 ++ ev →
  EvLoadMoreUntil p ref' ∈ ev →
  ref' = commit_ref commit
  ∧ ∃ n b, nodeAt root p = Some n ∧ node_kind n = BranchNode b
           ∧ startsWith (node_id n) (RepositoryNode_getId (commit_repoPath commit)) = true
           ∧ includes locals (br_name b) = true.
Proof.
  intros Hlog Hin.
  destruct (findNode_events root (findCommit_local_options commit locals tok)
              (ByPredicate (commitMatcher commit)) tr1 _ _ (surjective_pairing _))
    as (ev' & Heq & Hev & _).
  rewrite Hlog in Heq. apply app_inv_head in Heq as <-.
  rewrite Forall_forall in Hev. destruct (Hev _ Hin) as [[=]|Hw].
  destruct (walk_event_loadUntil_at _ _ _ p ref' Hw eq_refl)
    as (_ & f & n & Hn & Hf & Hcall).
  simpl in Hf. injection Hf as <-. revert Hcall.
  unfold findCommit_local_canTraverse, findCommit_local_branchCase.
  callback_cases n; simpl; intros Hcall;
    try (by apply elem_of_nil in Hcall).
  apply list_elem_of_singleton in Hcall as [= ->]. split; [done|].
  eexists n, _. repeat split; try done.
  all: by match goal with H : _ && _ = true |- _ => apply andb_true_iff in H as [? ?] end.
Qed.

Lemma findCommit_remote_fetch (root : Node) (commit : CommitArg) (branches : list string)
    (tok : option CancellationToken) (tr2 ev : Trace) (i : nat) (p : Path)
    (n : Node) (r : GitRemote) :
  (findNode root (ByPredicate (commitMatcher commit))
     (findCommit_remote_options commit branches tok) tr2).2 = tr2 ++ ev →
  ev !! i = Some (EvChildren p) → p ≠ [] →
  nodeAt root p = Some n → node_kind n = RemoteNode r →
  startsWith (node_id n) (RepositoryNode_getId (commit_repoPath commit)) = true
  ∧ includes (map split_slash_first branches) (rm_name r) = true.
Proof.
  intros Hlog Hi Hp Hn Hk.
  destruct (fetch_after_callback root (findCommit_remote_options commit branches tok)
              (ByPredicate (commitMatcher commit)) tr2
              (findNode root (ByPredicate (commitMatcher commit))
                 (findCommit_remote_options commit branches tok) tr2).1 ev i p)
    as (n' & tr0 & Hn' & Ht & _).
  { rewrite <- Hlog. apply surjective_pairing. }
  { done. }
  { done. }
  rewrite Hn in Hn'. injection Hn' as <-.
  revert Ht. unfold traversable. simpl.
  unfold findCommit_remote_canTraverse, isRepositoriesNode. rewrite Hk. simpl.
  by intros [? ?]%andb_true_iff.
Qed.

Lemma findCommit_remote_awaits_nothing (root : Node) (commit : CommitArg)
    (branches : list string) (tok : option CancellationToken) (tr2 ev : Trace)
    (p : Path) (ref' : string) :
  (findNode root (ByPredicate (commitMatcher commit))
     (findCommit_remote_options commit branches tok) tr2).2 = tr2 ++ ev →
  EvLoadMoreUntil p ref' ∉ ev.
Proof.
  intros Hlog Hin.
  destruct (findNode_events root (findCommit_remote_options commit branches tok)
              (ByPredicate (commitMatcher commit)) tr2 _ _ (surjective_pairing _))
    as (ev' & Heq & Hev & _).
  rewrite Hlog in Heq. apply app_inv_head in Heq as <-.
  rewrite Forall_forall in Hev. destruct (Hev _ Hin) as [[=]|Hw].
  destruct (walk_event_loadUntil_at _ _ _ p ref' Hw eq_refl)
    as (_ & f & n & Hn & Hf & Hcall).
  simpl in Hf. injection Hf as <-. revert Hcall.
  unfold findCommit_remote_canTraverse.
  callback_cases n; simpl; intros Hcall; by apply elem_of_nil in Hcall.
Qed.

(** C1 — The resolution steps of [findCommit].  The first provider call asks
    for the local branches that contain the commit.  If there are any,
    [findCommit] is the walk with the local options on the log extended by
    that one call.  The [canTraverse] these options carry admits a
    [BranchNode] exactly when its id starts with the repository node id and
    its branch is among those resolved, it awaits
    [loadMore({ until: commit.ref })] on the node before it answers true, it
    awaits nothing on any other node, and it rejects every [RemoteNode].  In
    the log of [findCommit] itself, the children of a [BranchNode] below the
    root are produced only for such a branch, and the event just before is
    that [loadMore]; and every [loadMore({ until })] of the log is one of
    these.  Only if there are no local branches does a second call ask for
    remote branches; unless that one is empty too, [findCommit] is then the
    walk with the remote options, whose [canTraverse] also admits the
    [RemoteNode]s of the repository named by the resolved branches: in the
    log, the children of a [RemoteNode] are produced only for these, and
    nothing is awaited inside [canTraverse]. *)
Theorem findCommit_resolution (root : Node) (commit : CommitArg)
    (tok : option CancellationToken) (tr : Trace) :
  let repoPath := commit_repoPath commit in
  let ref := commit_ref commit in
  let repoNodeId := RepositoryNode_getId repoPath in
  let q1 := findCommit_local_query commit in
  let q2 := findCommit_remote_query commit in
  let locals := getCommitBranches repoPath ref q1 in
  let remoteBranches := getCommitBranches repoPath ref q2 in
  let tr1 := tr ++ [EvGetCommitBranches repoPath ref q1] in
  let tr2 := tr1 ++ [EvGetCommitBranches repoPath ref q2] in
  match q1 with Some o => remotes o = None | None => True end
  ∧ (∃ o, q2 = Some o ∧ remotes o = Some true)
  ∧ tr1 `prefix_of` (findCommit root commit tok tr).2
  ∧ (locals ≠ [] →
       findCommit root commit tok tr
       = findNode root (ByPredicate (commitMatcher commit))
           (findCommit_local_options commit locals tok) tr1
       ∧ (∀ n b, node_kind n = BranchNode b →
            findCommit_local_canTraverse repoNodeId locals commit n
            = if startsWith (node_id n) repoNodeId && includes locals (br_name b)
              then ([LoadMoreUntil ref], true)
              else ([], false))
       ∧ (∀ n, isBranchNode n = false →
            (findCommit_local_canTraverse repoNodeId locals commit n).1 = [])
       ∧ (∀ n, isRemoteNode n = true →
            (findCommit_local_canTraverse repoNodeId locals commit n).2 = false)
       ∧ canTraverse (findCommit_local_options commit locals tok)
         = Some (findCommit_local_canTraverse repoNodeId locals commit)
       ∧ (∀ ev i p n b,
            (findCommit root commit tok tr).2 = tr1 ++ ev →
            ev !! i = Some (EvChildren p) → p ≠ [] →
            nodeAt root p = Some n → node_kind n = BranchNode b →
            startsWith (node_id n) repoNodeId = true
            ∧ includes locals (br_name b) = true
            ∧ ∃ j, i = S j ∧ ev !! j = Some (EvLoadMoreUntil p ref))
       ∧ (∀ ev p ref',
            (findCommit root commit tok tr).2 = tr1 ++ ev →
            EvLoadMoreUntil p ref' ∈ ev →
            ref' = ref
            ∧ ∃ n b, nodeAt root p = Some n ∧ node_kind n = BranchNode b
                     ∧ startsWith (node_id n) repoNodeId = true
                     ∧ includes locals (br_name b) = true))
  ∧ (locals = [] →
       findCommit root commit tok tr
       = (if decide (remoteBranches = []) then (None, tr2)
          else findNode root (ByPredicate (commitMatcher commit))
                 (findCommit_remote_options commit remoteBranches tok) tr2)
       ∧ (∀ n r, node_kind n = RemoteNode r →
            findCommit_remote_canTraverse repoNodeId remoteBranches
              (map split_slash_first remoteBranches) n
            = ([], startsWith (node_id n) repoNodeId
                   && includes (map split_slash_first remoteBranches) (rm_name r)))
       ∧ (∀ n b, node_kind n = BranchNode b →
            findCommit_remote_canTraverse repoNodeId remoteBranches
              (map split_slash_first remoteBranches) n
            = ([], startsWith (node_id n) repoNodeId
                   && includes remoteBranches (br_name b)))
       ∧ canTraverse (findCommit_remote_options commit remoteBranches tok)
         = Some (findCommit_remote_canTraverse repoNodeId remoteBranches
                   (map split_slash_first remoteBranches))
       ∧ (remoteBranches ≠ [] →
          ∀ ev, (findCommit root commit tok tr).2 = tr2 ++ ev →
            (∀ i p n r,
               ev !! i = Some (EvChildren p) → p ≠ [] →
               nodeAt root p = Some n → node_kind n = RemoteNode r →
               startsWith (node_id n) repoNodeId = true
               ∧ includes (map split_slash_first remoteBranches) (rm_name r) = true)
            ∧ (∀ p ref', EvLoadMoreUntil p ref' ∉ ev))).
Proof.
  intros repoPath ref repoNodeId q1 q2 locals remoteBranches tr1 tr2.
  split; [by destruct commit|]. split; [destruct commit; by eexists|]. split; [|split].
  - unfold findCommit. fold repoPath ref q1 q2 locals remoteBranches tr1 tr2.
    destruct (negb _).
    + edestruct findNode_no_ui as (ev & -> & _). by eexists.
    + destruct (Nat.eqb _ 0).
      * by exists [EvGetCommitBranches repoPath ref q2].
      * edestruct findNode_no_ui as (ev & -> & _). subst tr2.
        rewrite <- app_assoc. by eexists.
  - intros Hne.
    assert (Hfind : findCommit root commit tok tr
              = findNode root (ByPredicate (commitMatcher commit))
                  (findCommit_local_options commit locals tok) tr1).
    { unfold findCommit. fold repoPath ref q1 locals.
      destruct (Nat.eqb_spec (length locals) 0) as [Hz|Hz]; simpl; [|reflexivity].
      by apply nil_length_inv in Hz. }
    split; [exact Hfind|]. split; [|split; [|split; [|split; [|split]]]].
    + intros n b Hk. unfold findCommit_local_canTraverse, findCommit_local_branchCase,
        isRepositoriesNode, isRepositoryNode, isBranchesNode, isBranchOrTagFolderNode.
      rewrite Hk. simpl. fold repoNodeId.
      destruct (startsWith (node_id n) repoNodeId && includes locals (br_name b));
        reflexivity.
    + intros n Hk. unfold findCommit_local_canTraverse, findCommit_local_branchCase.
      by callback_cases n.
    + intros n Hk. unfold findCommit_local_canTraverse, findCommit_local_branchCase.
      by callback_cases n.
    + reflexivity.
    + intros ev i p n b Hlog Hi Hp Hn Hk. rewrite Hfind in Hlog.
      destruct (findCommit_local_fetch root commit locals tok tr1 ev i p n b
                  Hlog Hi Hp Hn Hk) as (Hid & Hin & Hlast).
      split; [done|]. split; [done|].
      apply (last_before tr1 ev i _ (EvChildren p)); [done| |done].
      subst tr1. by rewrite last_snoc.
    + intros ev p ref' Hlog Hin. rewrite Hfind in Hlog.
      by apply (findCommit_local_loadMore root commit locals tok tr1 ev p ref').
  - intros Hnil.
    assert (Hfind : findCommit root commit tok tr
              = (if decide (remoteBranches = []) then (None, tr2)
                 else findNode root (ByPredicate (commitMatcher commit))
                        (findCommit_remote_options commit remoteBranches tok) tr2)).
    { unfold findCommit. fold repoPath ref q1 q2 locals remoteBranches tr1 tr2.
      rewrite Hnil. simpl.
      destruct (Nat.eqb_spec (length remoteBranches) 0) as [Hz|Hz];
        destruct (decide (remoteBranches = [])) as [Hr|Hr]; try reflexivity.
      * by apply nil_length_inv in Hz.
      * by rewrite Hr in Hz. }
    split; [exact Hfind|]. split; [|split; [|split]].
    + intros n r Hk. unfold findCommit_remote_canTraverse, isRepositoriesNode.
      by rewrite Hk.
    + intros n b Hk. unfold findCommit_remote_canTraverse, isRepositoriesNode.
      by rewrite Hk.
    + reflexivity.
    + intros Hremote ev Hlog. rewrite Hfind in Hlog.
      rewrite decide_False in Hlog by done. split.
      * intros i p n r Hi Hp Hn Hk.
        by apply (findCommit_remote_fetch root commit remoteBranches tok tr2 ev i p n r).
      * intros p ref'.
        by apply (findCommit_remote_awaits_nothing root commit remoteBranches tok tr2 ev).
Qed.

(** C9 — A commit that no local and no remote branch contains: [findCommit]
    answers [undefined] after the two provider calls, and the traversal
    engine is never entered: the log grows by these two calls alone, none of
    them an event of the walk. *)
Theorem findCommit_unknown_commit (root : Node) (commit : CommitArg)
    (tok : option CancellationToken) (tr : Trace) :
  let repoPath := commit_repoPath commit in
  let ref := commit_ref commit in
  getCommitBranches repoPath ref (findCommit_local_query commit) = [] →
  getCommitBranches repoPath ref (findCommit_remote_query commit) = [] →
  ∃ ev, findCommit root commit tok tr = (None, tr ++ ev)
    ∧ ev = [EvGetCommitBranches repoPath ref (findCommit_local_query commit);
            EvGetCommitBranches repoPath ref (findCommit_remote_query commit)]
    ∧ Forall (λ e, event_path e = None) ev.
Proof.
  intros repoPath ref Hlocal Hremote. eexists. split; [|split; [reflexivity|]].
  - unfold findCommit. fold repoPath ref. rewrite Hlocal, Hremote. simpl.
    by rewrite <- app_assoc.
  - by repeat constructor.
Qed.

(** C5 — Every [canTraverse] predicate the view builds (for a branch, a commit
    on local or on remote branches, a contributor, a remote, a stash, a tag, a
    worktree, a section, the repository) admits a node only if it is the
    [RepositoriesNode] root or its id starts with the id of the repository
    node the target belongs to. *)
Theorem canTraverse_within_repository (q : Query) (tok : option CancellationToken)
    (f : Node → list NodeCall * bool) (n : Node) :
  canTraverse (query_options q tok) = Some f →
  (f n).2 = true →
  isRepositoriesNode n = true
  ∨ startsWith (node_id n) (RepositoryNode_getId (query_repoPath q)) = true.
Proof.
  destruct q; simpl.
  - destruct (br_remote branch) eqn:Hremote; simpl; intros [= <-].
    + unfold findBranch_remote_canTraverse. callback_cases n; auto; try done.
      destruct (startsWith _ _); auto; done.
    + unfold findBranch_local_canTraverse. callback_cases n; auto; done.
  - intros [= <-]. unfold findCommit_local_canTraverse, findCommit_local_branchCase.
    callback_cases n; auto; try done.
    destruct (startsWith _ _); auto; done.
  - intros [= <-]. unfold findCommit_remote_canTraverse.
    callback_cases n; auto; try done.
    all: destruct (startsWith _ _); auto; done.
  - intros [= <-]. unfold findContributor_canTraverse. callback_cases n; auto; done.
  - intros [= <-]. unfold findRemote_canTraverse. callback_cases n; auto; done.
  - intros [= <-]. unfold findStash_canTraverse. callback_cases n; auto; done.
  - intros [= <-]. unfold findTag_canTraverse. callback_cases n; auto; done.
  - intros [= <-]. unfold findWorktree_canTraverse. callback_cases n; auto; done.
  - intros [= <-]. unfold section_canTraverse. callback_cases n; auto; done.
  - intros [= <-]. simpl. auto.
Qed.

End Builders.

Lemma findCommit_resolution_witness :
  getCommitBranches (Host := sampleHost) "/r" "c2" None = ["main"]
  ∧ findCommit (host := sampleHost) sampleRoot commitC2 None []
    = findNode sampleRoot (ByPredicate (commitMatcher commitC2))
        (findCommit_local_options (host := sampleHost) commitC2 ["main"] None)
        [EvGetCommitBranches "/r" "c2" None]
  ∧ findCommit_local_canTraverse sampleRepoId ["main"] commitC2 sampleMain
    = ([LoadMoreUntil "c2"], true)
  ∧ (findCommit (host := sampleHost) sampleRoot commitC2 None []).1
    = Some ([0; 0; 0; 1], sampleCommit sampleRepoId "main" "c2")
  ∧ ∃ ev, (findCommit (host := sampleHost) sampleRoot commitC2 None []).2
          = [EvGetCommitBranches "/r" "c2" None] ++ ev
      ∧ ev !! 25 = Some (EvChildren [0; 0; 0])
      ∧ ∃ j, 25 = S j ∧ ev !! j = Some (EvLoadMoreUntil [0; 0; 0] "c2").
Proof.
  pose proof (findCommit_resolution (host := sampleHost) sampleRoot commitC2 None [])
    as H.
  cbv zeta in H. destruct H as (_ & _ & _ & Hlocal & _).
  destruct Hlocal as (Hfind & Hbranch & _ & _ & _ & Hfetch & _); [discriminate|].
  split; [reflexivity|]. split; [exact Hfind|].
  split; [exact (Hbranch sampleMain _ eq_refl)|]. split; [reflexivity|].
  eexists. split; [reflexivity|]. split; [reflexivity|].
  eapply (Hfetch _ 25 [0; 0; 0] sampleMain);
    [reflexivity|reflexivity|discriminate|reflexivity|reflexivity].
Defined.

Lemma findCommit_unknown_commit_witness :
  getCommitBranches (Host := sampleHost) "/r" "zz" None = []
  ∧ getCommitBranches (Host := sampleHost) "/r" "zz"
      (Some {| commitDate := None; remotes := Some true |}) = []
  ∧ ∃ ev, findCommit (host := sampleHost) sampleRoot commitUnknown None []
          = (None, [] ++ ev)
      ∧ ev = [EvGetCommitBranches "/r" "zz" None;
              EvGetCommitBranches "/r" "zz"
                (Some {| commitDate := None; remotes := Some true |})]
      ∧ Forall (λ e, event_path e = None) ev.
Proof.
  split; [reflexivity|]. split; [reflexivity|].
  apply (findCommit_unknown_commit (host := sampleHost) sampleRoot commitUnknown None []);
    reflexivity.
Defined.

Lemma canTraverse_within_repository_witness :
  (findStash_canTraverse sampleRepoId sampleRepo).2 = true
  ∧ (isRepositoriesNode sampleRepo = true
     ∨ startsWith (node_id sampleRepo)
         (RepositoryNode_getId (Host := sampleHost) "/r") = true).
Proof.
  split; [reflexivity|].
  apply (canTraverse_within_repository (host := sampleHost) (QStash stashS0) None
           (findStash_canTraverse sampleRepoId) sampleRepo); reflexivity.
Defined.

Section Scoping.
Context {host : Host}.

(** C2 — Scoping of a branch search.  For a remote branch, [findBranch] walks
    with the remote options, whose [canTraverse] answers true on a
    [RemoteNode] exactly when the node id starts with the repository node id
    and the remote's name is the remote parsed from the branch name; so the
    children of any other remote below the search root are never produced or
    paged, and nothing beneath it is visited or tested.  For a local branch,
    [findBranch] walks with the local options, whose [canTraverse] admits the
    [RepositoriesNode] root and, under the repository node id, the
    [RepositoryNode], [BranchesNode] and [BranchOrTagFolderNode] nodes, and
    nothing else; so in the log of [findBranch] the children of any other
    node below the search root are never produced or paged, and nothing
    beneath it is visited or tested. *)
Theorem findBranch_scoping (root : Node) (branch : GitBranchReference)
    (tok : option CancellationToken) (tr : Trace) :
  let repoNodeId := RepositoryNode_getId (br_repoPath branch) in
  let admittedLocally (n : Node) :=
    isRepositoriesNode n = true
    ∨ ((isRepositoryNode n || isBranchesNode n || isBranchOrTagFolderNode n) = true
       ∧ startsWith (node_id n) repoNodeId = true) in
  (br_remote branch = true →
     findBranch root branch tok tr
     = findNode root (ByPredicate (branchMatcher branch))
         (findBranch_remote_options branch tok) tr
     ∧ (∀ n r, node_kind n = RemoteNode r →
          (findBranch_remote_canTraverse repoNodeId branch n).2 = true
          ↔ startsWith (node_id n) repoNodeId = true
            ∧ rm_name r = GitBranch_getRemote (br_name branch))
     ∧ (∀ p n r, p ≠ [] → nodeAt root p = Some n → node_kind n = RemoteNode r →
          rm_name r ≠ GitBranch_getRemote (br_name branch) →
          ∃ ev, (findBranch root branch tok tr).2 = tr ++ ev
            ∧ (∀ e, e ∈ ev → e ≠ EvChildren p ∧ e ≠ EvLoadMore p)
            ∧ (∀ s e, s ≠ [] → e ∈ ev → event_path e ≠ Some (p ++ s)))
     ∧ (∀ n r, node_kind n = RemoteNode r →
          traversable (findBranch_remote_options branch tok) n = true
          ↔ startsWith (node_id n) repoNodeId = true
            ∧ rm_name r = GitBranch_getRemote (br_name branch)))
  ∧ (br_remote branch = false →
     findBranch root branch tok tr
     = findNode root (ByPredicate (branchMatcher branch))
         (findBranch_local_options branch tok) tr
     ∧ (∀ n, (findBranch_local_canTraverse repoNodeId n).2 = true ↔ admittedLocally n)
     ∧ (∀ n, traversable (findBranch_local_options branch tok) n = true
             ↔ admittedLocally n)
     ∧ (∀ p n, p ≠ [] → nodeAt root p = Some n → ¬ admittedLocally n →
          ∃ ev, (findBranch root branch tok tr).2 = tr ++ ev
            ∧ (∀ e, e ∈ ev → e ≠ EvChildren p ∧ e ≠ EvLoadMore p)
            ∧ (∀ s e, s ≠ [] → e ∈ ev → event_path e ≠ Some (p ++ s)))).
Proof.
  intros repoNodeId admittedLocally. split; intros Hremote.
  - assert (Hverdict : ∀ n r, node_kind n = RemoteNode r →
          (findBranch_remote_canTraverse repoNodeId branch n).2 = true
          ↔ startsWith (node_id n) repoNodeId = true
            ∧ rm_name r = GitBranch_getRemote (br_name branch)).
    { intros n r Hk. unfold findBranch_remote_canTraverse, isRepositoriesNode, verdict.
      rewrite Hk, Hremote. simpl.
      destruct (startsWith (node_id n) repoNodeId); simpl.
      - rewrite String.eqb_eq. tauto.
      - split; [done|]. by intros [? _]. }
    split; [|split; [exact Hverdict|split; [|exact Hverdict]]].
    + unfold findBranch. by rewrite Hremote.
    + intros p n r Hp Hn Hk Hname.
      assert (Hfind : findBranch root branch tok tr
                = findNode root (ByPredicate (branchMatcher branch))
                    (findBranch_remote_options branch tok) tr).
      { unfold findBranch. by rewrite Hremote. }
      rewrite Hfind.
      destruct (pruned_events root (ByPredicate (branchMatcher branch))
                  (findBranch_remote_options branch tok) tr _ _ p n
                  (surjective_pairing _) Hp Hn) as (ev & Htr & H1 & H2 & _).
      * unfold traversable. simpl. fold repoNodeId.
        destruct (findBranch_remote_canTraverse repoNodeId branch n).2 eqn:Hv; [|done].
        apply (Hverdict n r Hk) in Hv as [_ Hv]. done.
      * by exists ev.
  - assert (Hverdict : ∀ n, (findBranch_local_canTraverse repoNodeId n).2 = true
                            ↔ admittedLocally n).
    { intros n. unfold admittedLocally, findBranch_local_canTraverse, verdict.
      destruct (isRepositoriesNode n) eqn:Hroot; simpl.
      { split; [intros _; by left|done]. }
      destruct (isRepositoryNode n || isBranchesNode n || isBranchOrTagFolderNode n);
        simpl.
      * split; [intros Hid; right; by split|intros [?|[_ ?]]; done].
      * split; [done|intros [?|[? _]]; done]. }
    assert (Hfind : findBranch root branch tok tr
              = findNode root (ByPredicate (branchMatcher branch))
                  (findBranch_local_options branch tok) tr).
    { unfold findBranch. by rewrite Hremote. }
    split; [exact Hfind|]. split; [exact Hverdict|]. split; [exact Hverdict|].
    intros p n Hp Hn Hadm. rewrite Hfind.
    destruct (pruned_events root (ByPredicate (branchMatcher branch))
                (findBranch_local_options branch tok) tr _ _ p n
                (surjective_pairing _) Hp Hn) as (ev & Htr & H1 & H2 & _).
    + destruct (traversable (findBranch_local_options branch tok) n) eqn:Hv; [|done].
      by apply Hverdict in Hv.
    + by exists ev.
Qed.

End Scoping.

Lemma findBranch_scoping_witness :
  (br_remote originFeature = true
   ∧ nodeAt sampleRoot [0; 1; 1] = Some sampleUpstream
   ∧ (findBranch_remote_canTraverse (host := sampleHost) sampleRepoId originFeature
        sampleUpstream).2 = false
   ∧ (findBranch_remote_canTraverse (host := sampleHost) sampleRepoId originFeature
        sampleOrigin).2 = true
   ∧ (findBranch (host := sampleHost) sampleRoot originFeature None []).1
     = Some ([0; 1; 0; 0],
             sampleBranch sampleRepoId "origin/feature" true
               [[sampleCommit sampleRepoId "origin/feature" "c3"]])
   ∧ ∃ ev, (findBranch (host := sampleHost) sampleRoot originFeature None []).2 = [] ++ ev
       ∧ (∀ e, e ∈ ev → e ≠ EvChildren [0; 1; 1] ∧ e ≠ EvLoadMore [0; 1; 1])
       ∧ (∀ s e, s ≠ [] → e ∈ ev → event_path e ≠ Some ([0; 1; 1] ++ s)))
  ∧ (br_remote mainBranch = false
     ∧ nodeAt sampleRoot [0; 1] = Some sampleRemotes
     ∧ traversable (findBranch_local_options (host := sampleHost) mainBranch None)
         sampleRemotes = false
     ∧ traversable (findBranch_local_options (host := sampleHost) mainBranch None)
         sampleBranches = true
     ∧ (findBranch (host := sampleHost) sampleRoot mainBranch None []).1
       = Some ([0; 0; 0], sampleMain)
     ∧ ∃ ev, (findBranch (host := sampleHost) sampleRoot mainBranch None []).2 = [] ++ ev
         ∧ (∀ e, e ∈ ev → e ≠ EvChildren [0; 1] ∧ e ≠ EvLoadMore [0; 1])
         ∧ (∀ s e, s ≠ [] → e ∈ ev → event_path e ≠ Some ([0; 1] ++ s))).
Proof.
  split.
  - pose proof (findBranch_scoping (host := sampleHost) sampleRoot originFeature None [])
      as H.
    cbv zeta in H. destruct H as [Hremote _].
    destruct Hremote as (_ & _ & Hpruned & _); [reflexivity|].
    repeat (split; [reflexivity|]).
    apply (Hpruned [0; 1; 1] sampleUpstream
             {| rm_repoPath := "/r"; rm_name := "upstream" |});
      [discriminate|reflexivity|reflexivity|discriminate].
  - pose proof (findBranch_scoping (host := sampleHost) sampleRoot mainBranch None [])
      as H.
    cbv zeta in H. destruct H as [_ Hlocal].
    destruct Hlocal as (_ & _ & Hadm & Hpruned); [reflexivity|].
    repeat (split; [reflexivity|]).
    apply (Hpruned [0; 1] sampleRemotes); [discriminate|reflexivity|].
    intros Hin. apply Hadm in Hin. discriminate Hin.
Defined.

(** ** The reveal operations *)

Section Reveals.
Context {host : Host}.

Lemma ensureRevealFound_none options found :
  found.1 = None → ensureRevealFound options found = (None, found.2).
Proof. destruct found as [[[p n]|] tr]; simpl; [done|]. done. Qed.

Lemma revealFound_none options found :
  found.1 = None → revealFound options found = (None, found.2).
Proof. destruct found as [[[p n]|] tr]; simpl; [done|]. done. Qed.

Lemma reveal_is_find (root : Node) (c : RevealCall) (options : option RevealOptions)
    (tr : Trace) :
  (underlyingFind root c tr).1 = None →
  runReveal root c options tr = (None, (underlyingFind root c tr).2).
Proof.
  destruct c; simpl; intros Hnone;
    first [by apply ensureRevealFound_none | by apply revealFound_none].
Qed.

Lemma underlyingFind_no_ui (root : Node) (c : RevealCall) (tr : Trace) :
  ∃ ev, (underlyingFind root c tr).2 = tr ++ ev
    ∧ Forall (λ e, is_ui_request e = false) ev.
Proof.
  assert (Hprogress : ∀ (found : Trace → option (Path * Node) * Trace) title,
            (∀ tr0, ∃ ev, (found tr0).2 = tr0 ++ ev
                          ∧ Forall (λ e, is_ui_request e = false) ev) →
            ∃ ev, (found (tr ++ [EvWithProgress title])).2 = tr ++ ev
                  ∧ Forall (λ e, is_ui_request e = false) ev).
  { intros found title Hfound.
    destruct (Hfound (tr ++ [EvWithProgress title])) as (ev & -> & Hev).
    exists (EvWithProgress title :: ev). rewrite <- app_assoc. split; [done|].
    by constructor. }
  destruct c; simpl; try apply findNode_no_ui.
  - apply (Hprogress (findBranch root branch (Some userToken))). intros tr0.
    unfold findBranch. destruct (br_remote branch); apply findNode_no_ui.
  - apply (Hprogress (findCommit root commit (Some userToken))). intros tr0.
    apply findCommit_no_ui.
  - apply (Hprogress (findContributor root contributor (Some userToken))). intros tr0.
    apply findNode_no_ui.
  - apply (Hprogress (findRemote root remote (Some userToken))). intros tr0.
    apply findNode_no_ui.
  - apply (Hprogress (findStash root stash (Some userToken))). intros tr0.
    apply findNode_no_ui.
  - apply (Hprogress (findTag root tag (Some userToken))). intros tr0.
    apply findNode_no_ui.
  - apply (Hprogress (findWorktree root worktree (Some userToken))). intros tr0.
    apply findNode_no_ui.
Qed.

(** Whatever the find returns, the reveal returns it, on a log that extends
    the log of the find. *)
Lemma reveal_returns_found (root : Node) (c : RevealCall)
    (options : option RevealOptions) (tr : Trace) :
  (runReveal root c options tr).1 = (underlyingFind root c tr).1
  ∧ (underlyingFind root c tr).2 `prefix_of` (runReveal root c options tr).2.
Proof.
  assert (He : ∀ found, (ensureRevealFound options found).1 = found.1
                        ∧ found.2 `prefix_of` (ensureRevealFound options found).2).
  { intros [[[p n]|] tr0]; simpl; split; try done. by eexists. }
  assert (Hr : ∀ found, (revealFound options found).1 = found.1
                        ∧ found.2 `prefix_of` (revealFound options found).2).
  { intros [[[p n]|] tr0]; simpl; split; try done. by eexists. }
  destruct c; simpl; first [apply He | apply Hr].
Qed.

(** C6 — A reveal whose find comes back [undefined].  For each reveal
    operation of the view: when the find it awaits returns [undefined] (not
    found, or cancelled), the reveal returns [undefined] on the log of that
    find, to which it adds nothing; and what the whole call logged holds no
    request to the UI surface: no [reveal] or [ensureRevealNode] call (where
    every expand, select and focus is issued) and no message dialog. *)
Theorem reveal_noop_when_not_found (root : Node) (c : RevealCall)
    (options : option RevealOptions) (tr : Trace) :
  (underlyingFind root c tr).1 = None →
  runReveal root c options tr = (None, (underlyingFind root c tr).2)
  ∧ ∃ ev, (runReveal root c options tr).2 = tr ++ ev
      ∧ Forall (λ e, is_ui_request e = false) ev.
Proof.
  intros Hnone. rewrite (reveal_is_find root c options tr Hnone). split; [done|].
  apply underlyingFind_no_ui.
Qed.

End Reveals.

Lemma reveal_noop_when_not_found_witness :
  let c := CallRevealStash stashMissing NeverCancelled in
  (underlyingFind (host := sampleHost) sampleRoot c []).1 = None
  ∧ runReveal (host := sampleHost) sampleRoot c None []
    = (None, (underlyingFind (host := sampleHost) sampleRoot c []).2)
  ∧ ∃ ev, (runReveal (host := sampleHost) sampleRoot c None []).2 = [] ++ ev
      ∧ Forall (λ e, is_ui_request e = false) ev.
Proof.
  intros c. split; [reflexivity|].
  apply (reveal_noop_when_not_found (host := sampleHost) sampleRoot c None []).
  reflexivity.
Defined.

(** ** The re-entrancy guard *)

Lemma gate_step_inv (s s' : ViewGate) (a : GateAction) :
  gate_inv s → gate_step s a = Some s' → gate_inv s'.
Proof.
  intros [Hserial Hopen]. destruct a as [c id|key id|key id]; simpl.
  - destruct (pending s !! gateKey c) eqn:Hp; intros [= <-]; [by split|].
    split; simpl.
    + split; [done|]. by rewrite <- Hopen.
    + intros key. rewrite lookup_insert. by destruct (decide (gateKey c = key)).
  - destruct (decide (pending s !! key = Some id)) as [Hp|]; [|done].
    intros [= <-]. split; simpl; [|done]. split; [done|]. by rewrite <- Hopen.
  - destruct (decide (pending s !! key = Some id)) as [Hp|]; [|done].
    destruct (take_waiting key (waiting s)) as [[next w]|]; intros [= <-];
      split; simpl.
    + repeat split; [done| |].
      * by rewrite <- Hopen.
      * by rewrite decide_True.
    + intros k. rewrite lookup_insert. by destruct (decide (key = k)).
    + split; [done|]. by rewrite <- Hopen.
    + intros k. rewrite lookup_delete. by destruct (decide (key = k)).
Qed.

Lemma gate_run_inv (schedule : list GateAction) : ∀ s s',
  gate_inv s → gate_run s schedule = Some s' → gate_inv s'.
Proof.
  induction schedule as [|a schedule IH]; intros s s' Hinv; simpl.
  - by intros [= <-].
  - destruct (gate_step s a) as [s1|] eqn:Hstep; [|done].
    apply IH. by eapply gate_step_inv.
Qed.

Lemma gate_init_inv : gate_inv gate_init.
Proof. split; [done|]. intros key. simpl. apply lookup_empty. Qed.

Lemma serial_app (newer older : list GateEvent) :
  serial (newer ++ older) → serial older.
Proof. induction newer as [|e newer IH]; simpl; [done|]. intros [H _]. auto. Qed.

(** A walk stays open until it settles. *)
Lemma open_until_settled (between older : list GateEvent) (k : string) (c : nat) :
  serial (between ++ GBegin k c :: older) → GSettle k c ∉ between →
  open_call k (between ++ GBegin k c :: older) = Some c.
Proof.
  induction between as [|e between IH]; simpl.
  - intros _ _. by rewrite decide_True.
  - intros [Hserial He] Hnot. apply not_elem_of_cons in Hnot as [Hne Hnot].
    specialize (IH Hserial Hnot).
    destruct e as [k' id|k' id|k' id]; [| done |].
    + destruct (decide (k' = k)) as [->|]; [congruence|done].
    + destruct (decide (k' = k)) as [->|]; [|done].
      rewrite IH in He. by injection He as ->.
Qed.

(** C8 — One reveal at a time per operation, on the guard as the
    specification describes it.  The decorator's resolver ignores the
    arguments, so any two calls of one reveal method share their key.  Along
    every schedule of invocations, resumptions and settlements on a view, the
    history is serial; in particular, between the beginning of the walk of a
    call [c1] and any later beginning of a walk under the same key, or any
    later step of another call's walk under that key, [c1] has settled. *)
Theorem reveal_walks_serialized (schedule : list GateAction) (s : ViewGate) :
  gate_run gate_init schedule = Some s →
  (∀ c c', revealName c = revealName c' → gateKey c = gateKey c')
  ∧ serial (history s)
  ∧ ∀ newer e between k c1 older,
      history s = newer ++ e :: between ++ GBegin k c1 :: older →
      (∃ c2, e = GBegin k c2 ∨ (e = GWalk k c2 ∧ c2 ≠ c1)) →
      GSettle k c1 ∈ between.
Proof.
  intros Hrun. split; [|split].
  - intros c c' Hname. unfold gateKey, gateResolver. by rewrite Hname.
  - by destruct (gate_run_inv schedule _ _ gate_init_inv Hrun).
  - intros newer e between k c1 older Hhist (c2 & He).
    destruct (gate_run_inv schedule _ _ gate_init_inv Hrun) as [Hserial _].
    rewrite Hhist in Hserial. apply serial_app in Hserial as [Hserial Hcond].
    destruct (decide (GSettle k c1 ∈ between)) as [|Hnot]; [done|exfalso].
    pose proof (open_until_settled between older k c1 Hserial Hnot) as Hopen.
    destruct He as [->|[-> Hne]]; simpl in Hcond; congruence.
Qed.

Lemma reveal_walks_serialized_witness :
  ∃ s, gate_run gate_init sampleSchedule = Some s
    ∧ history s
      = [GSettle "revealBranch" 2; GWalk "revealBranch" 2; GBegin "revealBranch" 2;
         GSettle "revealBranch" 1; GWalk "revealBranch" 1; GWalk "revealBranch" 1;
         GBegin "revealBranch" 1]
    ∧ (∀ c c', revealName c = revealName c' → gateKey c = gateKey c')
    ∧ serial (history s)
    ∧ ∀ newer e between k c1 older,
        history s = newer ++ e :: between ++ GBegin k c1 :: older →
        (∃ c2, e = GBegin k c2 ∨ (e = GWalk k c2 ∧ c2 ≠ c1)) →
        GSettle k c1 ∈ between.
Proof.
  eexists. split; [reflexivity|]. split; [reflexivity|].
  apply (reveal_walks_serialized sampleSchedule). reflexivity.
Defined.

(** ** The scenarios of the specification, run *)

(** With paging, the engine asks for two more pages and finds the commit on
    the third. *)
Example paging_finds_commit_on_third_page :
  findNode pagedRoot (ByPredicate (commitMatcher commitA3)) (pagedOptions (Some true)) []
  = (Some ([0; 2], sampleCommit sampleRepoId "paged" "a3"),
     [EvChildren []; EvVisit [0]; EvTest [0]; EvChildren [0]; EvTest [0; 0];
      EvLoadMore [0]; EvTest [0; 1]; EvLoadMore [0]; EvTest [0; 2]]).
Proof. reflexivity. Qed.

(** Without paging, the same search ends 'not found' on the first page. *)
Example no_paging_stops_after_first_page :
  findNode pagedRoot (ByPredicate (commitMatcher commitA3)) (pagedOptions None) []
  = (None,
     [EvChildren []; EvVisit [0]; EvTest [0]; EvChildren [0];
      EvVisit [0; 0]; EvTest [0; 0]; EvChildren [0; 0]]).
Proof. reflexivity. Qed.

(** A commit on the second page of [main]: the branch node is admitted after
    its history was loaded up to the commit, and the walk finds it. *)
Example findCommit_loads_history_first :
  findCommit (host := sampleHost) sampleRoot commitC2 None []
  = (Some ([0; 0; 0; 1], sampleCommit sampleRepoId "main" "c2"),
     [EvGetCommitBranches "/r" "c2" None; EvChildren [];
      EvVisit [0]; EvTest [0]; EvCanTraverse [0]; EvChildren [0];
      EvVisit [0; 0]; EvTest [0; 0]; EvCanTraverse [0; 0]; EvChildren [0; 0];
      EvVisit [0; 1]; EvTest [0; 1]; EvCanTraverse [0; 1];
      EvVisit [0; 2]; EvTest [0; 2]; EvCanTraverse [0; 2];
      EvVisit [0; 3]; EvTest [0; 3]; EvCanTraverse [0; 3];
      EvVisit [0; 4]; EvTest [0; 4]; EvCanTraverse [0; 4];
      EvVisit [0; 0; 0]; EvTest [0; 0; 0]; EvCanTraverse [0; 0; 0];
      EvLoadMoreUntil [0; 0; 0] "c2"; EvChildren [0; 0; 0];
      EvVisit [0; 0; 1]; EvTest [0; 0; 1]; EvCanTraverse [0; 0; 1];
      EvVisit [0; 0; 0; 0]; EvTest [0; 0; 0; 0]; EvCanTraverse [0; 0; 0; 0];
      EvVisit [0; 0; 0; 1]; EvTest [0; 0; 0; 1]]).
Proof. reflexivity. Qed.

(** A worktree sits two levels below the root of a single-repository view,
    which is the depth bound of its search. *)
Example findWorktree_at_depth_two :
  findWorktree (host := sampleHost) singleRepoRoot worktreeW None []
  = (Some ([4; 0], leaf "gitlens:repository(/r):worktree(file:///w)" WorktreeNode),
     [EvChildren [];
      EvVisit [0]; EvTest [0]; EvCanTraverse [0];
      EvVisit [1]; EvTest [1]; EvCanTraverse [1];
      EvVisit [2]; EvTest [2]; EvCanTraverse [2];
      EvVisit [3]; EvTest [3]; EvCanTraverse [3];
      EvVisit [4]; EvTest [4]; EvCanTraverse [4]; EvChildren [4];
      EvVisit [4; 0]; EvTest [4; 0]]).
Proof. reflexivity. Qed.

(** A reveal cancelled while the walk is under way comes back [undefined]
    and asks nothing of the UI surface. *)
Example revealBranch_cancelled :
  revealBranch (host := sampleHost) sampleRoot mainBranch None (CancelledFrom 4) []
  = (None,
     [EvWithProgress "Revealing branch 'main' in the Repositories view...";
      EvChildren []; EvVisit [0]; EvTest [0]; EvCanTraverse [0]]).
Proof. reflexivity. Qed.

(** * Further properties of the view *)

(** ** The settings commands *)

(** X1 — [toggleSectionByNode] tells the sections apart: when two calls issue
    the same, non-empty request, the two nodes are of the same class and the
    two flags are equal; so hiding one section through its node never
    touches the setting of another. *)
Theorem toggleSectionByNode_injective (n1 n2 : Node) (e1 e2 : bool) :
  toggleSectionByNode n1 e1 ≠ [] →
  toggleSectionByNode n1 e1 = toggleSectionByNode n2 e2 →
  className (node_kind n1) = className (node_kind n2) ∧ e1 = e2.
Proof.
  unfold toggleSectionByNode.
  destruct (node_kind n1), (node_kind n2), e1, e2; cbv; intros Hne Heq;
    first [done | discriminate Heq].
Qed.

Lemma toggleSectionByNode_injective_witness :
  toggleSectionByNode sampleBranches true ≠ []
  ∧ toggleSectionByNode sampleBranches true
    = toggleSectionByNode (leaf "other" BranchesNode) true
  ∧ className (node_kind sampleBranches) = className BranchesNode ∧ true = true.
Proof.
  split; [discriminate|]. split; [reflexivity|].
  apply (toggleSectionByNode_injective sampleBranches (leaf "other" BranchesNode));
    [discriminate|reflexivity].
Defined.

Lemma restorable_by (name : string) (effects : list ViewEffect) (key : string)
    (value : ConfigValue) :
  (name, λ (env : ViewEnv) (_ : Node), (env, effects)) ∈ registerCommands →
  name ≠ "setShowSectionOff" → truthy value = true →
  effects = [UpdateEffective key value] → restorable key.
Proof.
  intros Hin Hne Ht ->.
  by exists name, (λ env _, (env, [UpdateEffective key value])), value.
Qed.

Ltac restore name v :=
  match goal with
  | |- restorable ?k =>
      apply (restorable_by name [UpdateEffective k v] k v);
      [ unfold registerCommands;
        repeat first [apply list_elem_of_here | apply list_elem_of_further]
      | done | reflexivity | reflexivity ]
  end.

(** X2 — What [setShowSectionOff] hides can be shown again, except the
    incoming activity.  Whenever [toggleSectionByNode(node, false)] updates a
    setting, some other registered command sets that same setting to a
    truthy value, unless the node is a [ReflogNode]: no registered command
    sets [showIncomingActivity] back. *)
Theorem hidden_section_restorable (node : Node) (key : string) (value : ConfigValue) :
  toggleSectionByNode node false = [UpdateEffective key value] →
  (restorable key ∨ node_kind node = ReflogNode)
  ∧ ¬ restorable (viewSetting "showIncomingActivity").
Proof.
  intros Hoff. split.
  - unfold toggleSectionByNode in Hoff.
    destruct (node_kind node); try discriminate Hoff; try (by right);
      injection Hoff as <- <-; left.
    + restore "setShowBranchesOn" (VBool true).
    + restore "setShowCommitsOn" (VBool true).
    + restore "setShowUpstreamStatusOn" (VBool true).
    + restore "setShowBranchComparisonOn" (VComparison ComparisonWorking).
    + restore "setShowContributorsOn" (VBool true).
    + restore "setShowRemotesOn" (VBool true).
    + restore "setShowStashesOn" (VBool true).
    + restore "setShowTagsOn" (VBool true).
    + restore "setShowWorktreesOn" (VBool true).
  - intros (name & handler & v & Hin & Hne & Ht & Heff).
    specialize (Heff anyViewEnv sampleRoot).
    unfold registerCommands in Hin.
    repeat (apply elem_of_cons in Hin as [Heq|Hin];
            [injection Heq as -> ->; first [done | discriminate Heff]|]).
    by apply elem_of_nil in Hin.
Qed.

Lemma hidden_section_restorable_witness :
  toggleSectionByNode sampleRemotes false
  = [UpdateEffective "views.repositories.showRemotes" (VBool false)]
  ∧ (restorable "views.repositories.showRemotes" ∨ node_kind sampleRemotes = ReflogNode)
  ∧ ¬ restorable (viewSetting "showIncomingActivity").
Proof.
  split; [reflexivity|].
  apply (hidden_section_restorable sampleRemotes "views.repositories.showRemotes"
           (VBool false)).
  reflexivity.
Defined.

(** ** Auto refresh *)

(** X3 — After [setAutoRefresh(enabled, workspaceEnabled)] called with the
    current setting as [enabled] (as every caller does), the context key
    holds what the [autoRefresh] getter answers from then on: the one value
    handed to [setContext] is the getter's value in the resulting state. *)
Theorem autoRefresh_context_mirrors_getter (env : ViewEnv) (w : option bool) :
  containerAutoRefresh env = viewAutoRefresh env →
  let r := setAutoRefresh (containerAutoRefresh env) w env in
  SetContextAutoRefresh (autoRefresh r.1) ∈ r.2
  ∧ ∀ v, SetContextAutoRefresh v ∈ r.2 → v = autoRefresh r.1.
Proof.
  destruct env as [c v s]. simpl. intros <-.
  unfold setAutoRefresh, autoRefresh, getWorkspaceAutoRefresh, storeWorkspaceAutoRefresh.
  destruct c, w as [[]|], s as [[]|]; simpl;
    (split; [apply list_elem_of_In; simpl; tauto|]);
    intros v Hv; apply list_elem_of_In in Hv; simpl in Hv;
    intuition congruence.
Qed.

Lemma autoRefresh_context_mirrors_getter_witness :
  let r := setAutoRefresh (containerAutoRefresh anyViewEnv) (Some false) anyViewEnv in
  containerAutoRefresh anyViewEnv = viewAutoRefresh anyViewEnv
  ∧ autoRefresh r.1 = false
  ∧ SetContextAutoRefresh (autoRefresh r.1) ∈ r.2
  ∧ ∀ v, SetContextAutoRefresh v ∈ r.2 → v = autoRefresh r.1.
Proof.
  intros r. split; [reflexivity|]. split; [reflexivity|].
  apply (autoRefresh_context_mirrors_getter anyViewEnv (Some false)). reflexivity.
Defined.

(** X4 — Turning auto refresh off is remembered only while the setting is on.
    Take the call [setAutoRefresh(setting, false)] of the command
    [setAutoRefreshToOff], then let the setting be switched on and the
    configuration handler run: if the setting was on when the command ran,
    the context is set to [false]; if it was off, nothing was stored, and
    the context is set to the value stored before, [true] when there is
    none. *)
Theorem autoRefresh_off_kept_only_when_enabled (env : ViewEnv) :
  let env1 := (setAutoRefresh (containerAutoRefresh env) (Some false) env).1 in
  (onConfigurationChanged autoRefreshChanged (withAutoRefreshSetting true env1)).2
  = [SetContextAutoRefresh
       (if containerAutoRefresh env then false else getWorkspaceAutoRefresh env true);
     FireDidChangeAutoRefresh].
Proof.
  destruct env as [c v s]. by destruct c, s as [[]|].
Qed.

(** ** More on the query builders and reveals *)

Section MoreBuilders.
Context {host : Host}.

(** X5 — A reveal whose find succeeds asks the UI surface once: it returns
    the node found, and its log is the log of the find followed by a single
    request for that node with the caller's options, [ensureRevealNode] for a
    branch, commit, contributor, remote, tag or worktree, [reveal] for a
    stash, a section or the repository. *)
Theorem reveal_found_requests_once (root : Node) (c : RevealCall)
    (options : option RevealOptions) (tr : Trace) (p : Path) (n : Node) :
  (underlyingFind root c tr).1 = Some (p, n) →
  runReveal root c options tr
  = (Some (p, n),
     (underlyingFind root c tr).2
       ++ [if usesEnsureRevealNode c then EvEnsureRevealNode p options
           else EvReveal p options]).
Proof.
  assert (He : ∀ found, found.1 = Some (p, n) →
            ensureRevealFound options found
            = (Some (p, n), found.2 ++ [EvEnsureRevealNode p options])).
  { intros [[[p' n']|] tr0]; simpl; [|done]. by intros [= -> ->]. }
  assert (Hr : ∀ found, found.1 = Some (p, n) →
            revealFound options found
            = (Some (p, n), found.2 ++ [EvReveal p options])).
  { intros [[[p' n']|] tr0]; simpl; [|done]. by intros [= -> ->]. }
  destruct c; simpl; intros Hfound; first [by apply He | by apply Hr].
Qed.

End MoreBuilders.

Lemma reveal_found_requests_once_witness :
  let c := CallRevealStash stashS0 NeverCancelled in
  (underlyingFind (host := sampleHost) sampleRoot c []).1
    = Some ([0; 2; 0], leaf "gitlens:repository(/r):stash(s0)" StashNode)
  ∧ runReveal (host := sampleHost) sampleRoot c None []
    = (Some ([0; 2; 0], leaf "gitlens:repository(/r):stash(s0)" StashNode),
       (underlyingFind (host := sampleHost) sampleRoot c []).2
         ++ [EvReveal [0; 2; 0] None]).
Proof.
  intros c. split; [reflexivity|].
  apply (reveal_found_requests_once (host := sampleHost) sampleRoot c None []).
  reflexivity.
Defined.

(** [b.split('/', 1)[0]] is [name] exactly when [name] has no slash and [b]
    is [name] or [name] followed by a slash and more. *)
Lemma split_slash_first_spec (b name : string) :
  split_slash_first b = name
  ↔ has_slash name = false ∧ (b = name ∨ ∃ rest, b = name +:+ "/" +:+ rest).
Proof.
  revert name. induction b as [|c b IH]; intros name; simpl.
  - split.
    + intros <-. split; [done|]. by left.
    + intros [Hs [<-|[rest Hrest]]]; [done|]. by destruct name.
  - destruct (Ascii.eqb_spec c "/") as [->|Hc].
    + split.
      * intros <-. split; [done|]. right. by exists b.
      * intros [Hs [<-|[rest Hrest]]]; [done|].
        destruct name as [|c' name]; [done|].
        simpl in Hs, Hrest. injection Hrest as <- _. done.
    + split.
      * intros <-. simpl. destruct (Ascii.eqb_spec c "/"); [done|]. simpl.
        destruct (IH (split_slash_first b)) as [[Hs Hb] _]; [done|].
        split; [done|]. destruct Hb as [Hb|[rest Hb]].
        { left. by rewrite <- Hb. }
        right. exists rest. by rewrite Hb at 1.
      * intros [Hs Hb]. destruct name as [|c' name].
        { destruct Hb as [Hb|[rest Hb]]; [done|]. simpl in Hb. by injection Hb as ->. }
        simpl in Hs. apply orb_false_iff in Hs as [_ Hs].
        assert (c' = c ∧ (b = name ∨ ∃ rest, b = name +:+ "/" +:+ rest)) as [-> Hb'].
        { destruct Hb as [[= -> ->]|[rest [= -> ->]]]; split; eauto. }
        f_equal. apply IH. done.
Qed.

Section MoreBuilders2.
Context {host : Host}.

(** X6 — In a commit search through remote branches, a [RemoteNode] is
    admitted exactly when it lies under the repository node id and one of the
    resolved branches is the remote's name, or that name followed by a slash
    and more; the name being free of slashes. *)
Theorem remote_admitted_iff_branch_prefix (commit : CommitArg) (branches : list string)
    (tok : option CancellationToken) (f : Node → list NodeCall * bool)
    (n : Node) (r : GitRemote) :
  canTraverse (findCommit_remote_options commit branches tok) = Some f →
  node_kind n = RemoteNode r →
  (f n).2 = true
  ↔ startsWith (node_id n) (RepositoryNode_getId (commit_repoPath commit)) = true
    ∧ has_slash (rm_name r) = false
    ∧ ∃ b, b ∈ branches ∧ (b = rm_name r ∨ ∃ rest, b = rm_name r +:+ "/" +:+ rest).
Proof.
  simpl. intros [= <-] Hk.
  unfold findCommit_remote_canTraverse, isRepositoriesNode, verdict. rewrite Hk. simpl.
  rewrite andb_true_iff. unfold includes. rewrite existsb_exists.
  split.
  - intros [Hid (x & Hin & Heq)]. apply String.eqb_eq in Heq. subst x.
    apply in_map_iff in Hin as (b & Hb & Hin).
    apply split_slash_first_spec in Hb as [Hs Hb].
    split; [done|]. split; [done|]. exists b. split; [|done].
    by apply list_elem_of_In.
  - intros (Hid & Hs & b & Hin & Hb). split; [done|].
    exists (rm_name r). split; [|by apply String.eqb_eq].
    apply in_map_iff. exists b. split; [|by apply list_elem_of_In].
    by apply split_slash_first_spec.
Qed.

(** X7 — No search of the view descends below an entity: every [canTraverse]
    the view builds rejects commit, tag, stash, worktree and contributor
    nodes, and the comparison, tracking-status, reflog and unnamed nodes. *)
Theorem entity_nodes_never_traversed (q : Query) (tok : option CancellationToken)
    (f : Node → list NodeCall * bool) (n : Node) :
  canTraverse (query_options q tok) = Some f →
  isEntityClass (node_kind n) = true →
  (f n).2 = false.
Proof.
  destruct q; simpl.
  - destruct (br_remote branch); simpl; intros [= <-] Hk;
      unfold findBranch_remote_canTraverse, findBranch_local_canTraverse;
      by callback_cases n.
  - intros [= <-] Hk.
    unfold findCommit_local_canTraverse, findCommit_local_branchCase.
    by callback_cases n.
  - intros [= <-] Hk. unfold findCommit_remote_canTraverse. by callback_cases n.
  - intros [= <-] Hk. unfold findContributor_canTraverse. by callback_cases n.
  - intros [= <-] Hk. unfold findRemote_canTraverse. by callback_cases n.
  - intros [= <-] Hk. unfold findStash_canTraverse. by callback_cases n.
  - intros [= <-] Hk. unfold findTag_canTraverse. by callback_cases n.
  - intros [= <-] Hk. unfold findWorktree_canTraverse. by callback_cases n.
  - intros [= <-] Hk. unfold section_canTraverse. by callback_cases n.
  - intros [= <-] Hk. by callback_cases n.
Qed.

(** X8 — Local and remote searches keep apart.  A search for a local branch
    and a commit search through local branches reject [RemotesNode] and every
    [RemoteNode], so they never enter the remotes; a commit search through
    remote branches rejects [BranchesNode], so it never enters the local
    branches. *)
Theorem local_and_remote_searches_apart (branch : GitBranchReference)
    (commit : CommitArg) (branches : list string) (tok : option CancellationToken)
    (n : Node) :
  (br_remote branch = false →
   isRemotesNode n || isRemoteNode n = true →
   traversable (query_options (QBranch branch) tok) n = false)
  ∧ (isRemotesNode n || isRemoteNode n = true →
     traversable (query_options (QCommitLocal commit branches) tok) n = false)
  ∧ (isBranchesNode n = true →
     traversable (query_options (QCommitRemote commit branches) tok) n = false).
Proof.
  unfold traversable. simpl. repeat split.
  - intros -> Hk. simpl. unfold findBranch_local_canTraverse. by callback_cases n.
  - intros Hk. unfold findCommit_local_canTraverse, findCommit_local_branchCase.
    by callback_cases n.
  - intros Hk. unfold findCommit_remote_canTraverse. by callback_cases n.
Qed.

(** X9 — [loadMore] is awaited in one place only: a [canTraverse] of the view
    awaits a call on a node only in a commit search through local branches,
    on a [BranchNode] it admits, and the call is
    [loadMore({ until: commit.ref })]. *)
Theorem loadMore_only_on_admitted_branch (q : Query) (tok : option CancellationToken)
    (f : Node → list NodeCall * bool) (n : Node) :
  canTraverse (query_options q tok) = Some f →
  (f n).1 ≠ [] →
  (∃ commit branches, q = QCommitLocal commit branches
                      ∧ (f n).1 = [LoadMoreUntil (commit_ref commit)])
  ∧ isBranchNode n = true
  ∧ (f n).2 = true.
Proof.
  destruct q; simpl.
  - destruct (br_remote branch); simpl; intros [= <-];
      unfold findBranch_remote_canTraverse, findBranch_local_canTraverse;
      by callback_cases n.
  - intros [= <-].
    unfold findCommit_local_canTraverse, findCommit_local_branchCase.
    callback_cases n; try done. intros _. split; [by eexists _, _|done].
  - intros [= <-]. unfold findCommit_remote_canTraverse. by callback_cases n.
  - intros [= <-]. unfold findContributor_canTraverse. by callback_cases n.
  - intros [= <-]. unfold findRemote_canTraverse. by callback_cases n.
  - intros [= <-]. unfold findStash_canTraverse. by callback_cases n.
  - intros [= <-]. unfold findTag_canTraverse. by callback_cases n.
  - intros [= <-]. unfold findWorktree_canTraverse. by callback_cases n.
  - intros [= <-]. unfold section_canTraverse. by callback_cases n.
  - by intros [= <-].
Qed.

End MoreBuilders2.

Lemma remote_admitted_iff_branch_prefix_witness :
  (findCommit_remote_canTraverse "gitlens:repository(/r)" ["origin/feature"]
     (map split_slash_first ["origin/feature"]) sampleOrigin).2 = true
  ↔ startsWith (node_id sampleOrigin) "gitlens:repository(/r)" = true
    ∧ has_slash "origin" = false
    ∧ ∃ b, b ∈ ["origin/feature"] ∧ (b = "origin" ∨ ∃ rest, b = "origin" +:+ "/" +:+ rest).
Proof.
  apply (remote_admitted_iff_branch_prefix (host := sampleHost) commitC3 ["origin/feature"]
           None _ sampleOrigin {| rm_repoPath := "/r"; rm_name := "origin" |});
    reflexivity.
Defined.

Lemma entity_nodes_never_traversed_witness :
  (findStash_canTraverse "gitlens:repository(/r)"
     (leaf "gitlens:repository(/r):stash(s0)" StashNode)).2 = false.
Proof.
  apply (entity_nodes_never_traversed (host := sampleHost) (QStash stashS0) None _
           (leaf "gitlens:repository(/r):stash(s0)" StashNode));
    reflexivity.
Defined.

Lemma loadMore_only_on_admitted_branch_witness :
  (∃ commit branches,
     QCommitLocal commitC2 ["main"] = QCommitLocal commit branches
     ∧ (findCommit_local_canTraverse "gitlens:repository(/r)" ["main"] commitC2 sampleMain).1
       = [LoadMoreUntil (commit_ref commit)])
  ∧ isBranchNode sampleMain = true
  ∧ (findCommit_local_canTraverse "gitlens:repository(/r)" ["main"] commitC2 sampleMain).2
    = true.
Proof.
  apply (loadMore_only_on_admitted_branch (host := sampleHost)
           (QCommitLocal commitC2 ["main"]) None _ sampleMain);
    [reflexivity|discriminate].
Defined.

(** * Properties of the commit graph webview *)

Section GraphProperties.
Import Graph.

Ltac unfold_M :=
  unfold mbind, M_bind, mret, M_ret, gets, modify, emit, result, after, events in *;
  simpl in *.

(** ** Formatting *)

Lemma length_zero_empty (s : string) : String.length s = 0 ↔ s = "".
Proof. by destruct s. Qed.

(** X10 — [formatCommits] keeps the order and the shas, and puts the summary
    in place of the message only for a message that is the empty string: a
    commit whose message is [undefined] keeps [undefined], since
    [String(undefined)] is not empty.  The type is the stash type exactly
    for a stash commit. *)
Theorem formatCommits_message (commits : list GitCommitModel) (i : nat)
    (commit : GitCommitModel) :
  commits !! i = Some commit →
  ∃ g, formatCommits commits !! i = Some g
       ∧ gc_sha g = commit_sha commit
       ∧ gc_message g = (if decide (commit_message commit = Some "")
                         then Some (commit_summary commit)
                         else commit_message commit)
       ∧ (gc_message g = None ↔ commit_message commit = None)
       ∧ (gc_type g = StashNodeType ↔ commit_isStash commit = true).
Proof.
  intros Hi. unfold formatCommits. rewrite list_lookup_fmap, Hi. simpl.
  eexists. split; [done|]. simpl. split; [done|].
  unfold getCommitType.
  destruct (commit_message commit) as [[|c s]|], (commit_isStash commit); simpl;
    (split; [done|split; split; done]).
Qed.

Lemma formatCommits_message_witness :
  ∃ g, formatCommits (Map_values [("c2", plainCommit "c2" None ["c1"])]) !! 0 = Some g
       ∧ gc_sha g = "c2"
       ∧ gc_message g = None.
Proof.
  destruct (formatCommits_message
              (Map_values [("c2", plainCommit "c2" None ["c1"])]) 0
              (plainCommit "c2" None ["c1"]) eq_refl)
    as (g & Hg & Hsha & Hmsg & _ & _).
  exists g. split; [done|]. split; [done|]. by rewrite Hmsg.
Defined.

(** ** The stash filter *)

Lemma filterOutcome_sublist {A : Type} (f : A → Outcome bool) (l kept : list A) :
  filterOutcome f l = Returned kept → kept `sublist_of` l.
Proof.
  revert kept. induction l as [|x l IH]; intros kept; simpl.
  - by intros [= <-].
  - destruct (f x) as [keep|]; [|done].
    destruct (filterOutcome f l) as [kept'|]; [|done].
    intros [= <-]. destruct keep.
    + by apply sublist_skip, IH.
    + by apply sublist_cons, IH.
Qed.

Lemma stashCommitShown_defined (log : GitLog) (stashCommit : GitCommitModel) :
  log_commits log ≠ None → ∃ keep, stashCommitShown log stashCommit = Returned keep.
Proof.
  intros Hlog. unfold stashCommitShown.
  destruct (commit_parents stashCommit) as [[|parent ?]|]; eauto.
  destruct (log_commits log); [eauto|done].
Qed.

Lemma filterOutcome_defined {A : Type} (f : A → Outcome bool) (l : list A) :
  (∀ x, ∃ keep, f x = Returned keep) → ∃ kept, filterOutcome f l = Returned kept.
Proof.
  intros Hf. induction l as [|x l [kept IH]]; simpl; [eauto|].
  destruct (Hf x) as [keep ->]. rewrite IH. eauto.
Qed.

Lemma filterStashCommits_defined (stashCommits : option (list GitCommitModel))
    (log : option GitLog) :
  (∀ l, log = Some l → log_commits l ≠ None) →
  ∃ kept, filterStashCommits stashCommits log = Returned kept.
Proof.
  intros Hlog. destruct stashCommits as [stashCommits|], log as [l|]; simpl; eauto.
  apply filterOutcome_defined. intros x. apply stashCommitShown_defined. by apply Hlog.
Qed.

Lemma stashCommitShown_mono (log1 log2 : GitLog) (stashCommit : GitCommitModel) :
  (∀ sha, hasCommit log1 sha → hasCommit log2 sha) →
  stashCommitShown log1 stashCommit = Returned true →
  log_commits log2 ≠ None →
  stashCommitShown log2 stashCommit = Returned true.
Proof.
  intros Hsub H1 Hlog2. unfold stashCommitShown in *.
  destruct (commit_parents stashCommit) as [[|parent ?]|]; [done| |done].
  destruct (log_commits log1) as [commits1|] eqn:Hc1; [|done].
  destruct (Map_get commits1 parent) as [c|] eqn:Hget; [|done].
  destruct (Hsub parent) as (commits2 & c2 & Hc2 & Hget2).
  { by exists commits1, c. }
  by rewrite Hc2, Hget2.
Qed.

(** X11 — Loading more of the log never takes a stash out of the graph.  If
    every commit of one log is a commit of another, every stash commit the
    filter keeps for the first it keeps for the second, in the same order,
    and what it keeps is always a sublist of the stash commits given. *)
Theorem filterStashCommits_grows_with_log (stashCommits kept1 : list GitCommitModel)
    (log1 log2 : GitLog) :
  (∀ sha, hasCommit log1 sha → hasCommit log2 sha) →
  log_commits log2 ≠ None →
  filterStashCommits (Some stashCommits) (Some log1) = Returned kept1 →
  ∃ kept2, filterStashCommits (Some stashCommits) (Some log2) = Returned kept2
           ∧ kept1 `sublist_of` kept2
           ∧ kept2 `sublist_of` stashCommits.
Proof.
  intros Hsub Hlog2. simpl. revert kept1.
  induction stashCommits as [|x l IH]; intros kept1; simpl.
  - intros [= <-]. by exists [].
  - destruct (stashCommitShown log1 x) as [keep1|] eqn:H1; [|done].
    destruct (filterOutcome (stashCommitShown log1) l) as [k1|]; [|done].
    intros [= <-]. destruct (IH k1 eq_refl) as (k2 & -> & Hk12 & Hk2).
    destruct keep1.
    + rewrite (stashCommitShown_mono log1 log2 x Hsub H1 Hlog2).
      eexists. split; [done|]. split; by apply sublist_skip.
    + destruct (stashCommitShown_defined log2 x Hlog2) as [keep2 ->].
      eexists. split; [done|]. destruct keep2.
      * split; [by apply sublist_cons|by apply sublist_skip].
      * split; [done|by apply sublist_cons].
Qed.

Lemma filterStashCommits_grows_with_log_witness :
  ∃ kept2, filterStashCommits (Some sampleStashes) (Some longLog) = Returned kept2
           ∧ [stashOn "s1" "c3"] `sublist_of` kept2
           ∧ kept2 `sublist_of` sampleStashes.
Proof.
  apply (filterStashCommits_grows_with_log sampleStashes [stashOn "s1" "c3"] shortLog longLog).
  - unfold hasCommit, shortLog, longLog. cbn [log_commits].
    intros sha (commits & c & [= <-] & Hget). cbn [Map_get] in Hget.
    destruct (String.eqb_spec "c3" sha) as [<-|].
    { eexists _, _. split; [done|]. reflexivity. }
    destruct (String.eqb_spec "c2" sha) as [<-|]; [|done].
    eexists _, _. split; [done|]. reflexivity.
  - done.
  - reflexivity.
Defined.


(** ** The getters *)

Lemma set_currentLog_same (w : GraphWebview) : set_currentLog (currentLog w) w = w.
Proof. by destruct w. Qed.

Lemma getCommits_spec (container : Container) (w : GraphWebview) :
  let out := getCommits container w in
  (after out = w ∧ events out = []
     ∧ (∀ r, selectedRepository w = Some r → currentLog w ≠ None ∨ result out = None)
   ∨ ∃ r log,
       selectedRepository w = Some r ∧ currentLog w = None
       ∧ events out = [EvGitGetLog (repo_uri r) (logLimit container)]
       ∧ (after out = w ∧ result out = None
          ∨ git_getLog container (repo_uri r) (logLimit container) = Some log
            ∧ after out = set_currentLog (Some log) w
            ∧ result out ≠ None))
  ∧ (∀ log commits, result out = Some (log, commits) →
       currentLog (after out) = Some log
       ∧ ∃ m, log_commits log = Some m ∧ commits = Map_values m)
  ∧ (result out = None → selectedRepository w = None ∨ after out = w).
Proof.
  destruct w as [sel cl disp dt t cols].
  unfold getCommits, getLog, getConfig, logLimit. unfold_M.
  destruct sel as [r|]; simpl.
  2:{ split; [left; by repeat split|]. split; [done|]. by left. }
  destruct cl as [[[m|] ? ? ? ? ?]|]; simpl.
  - split; [left; repeat split; eauto|]. split; [|done].
    intros log commits [= <- <-]. eauto.
  - split; [left; repeat split; eauto|]. split; [done|]. by right.
  - destruct (git_getLog container (repo_uri r) _) as [[[m|] ? ? ? ? ?]|] eqn:Hlog; simpl.
    + split.
      { right. eexists r, _. repeat split; try done. right. repeat split; done. }
      split; [|done]. intros log commits [= <- <-]. eauto.
    + split.
      { right. eexists r, (MkGitLog None 0 None false None None).
        repeat split; try done. by left. }
      split; [done|]. by right.
    + split.
      { right. eexists r, (MkGitLog None 0 None false None None).
        repeat split; try done. by left. }
      split; [done|]. by right.
Qed.


Lemma getRemotes_spec (container : Container) (w : GraphWebview) :
  after (getRemotes container w) = w
  ∧ Forall (λ e, is_subscription e = false) (events (getRemotes container w)).
Proof. unfold getRemotes. unfold_M. destruct (selectedRepository w); simpl; auto. Qed.

Lemma getTags_spec (container : Container) (w : GraphWebview) :
  after (getTags container w) = w
  ∧ Forall (λ e, is_subscription e = false) (events (getTags container w)).
Proof. unfold getTags. unfold_M. destruct (selectedRepository w); simpl; auto. Qed.

Lemma getBranches_spec (container : Container) (w : GraphWebview) :
  after (getBranches container w) = w
  ∧ Forall (λ e, is_subscription e = false) (events (getBranches container w)).
Proof. unfold getBranches. unfold_M. destruct (selectedRepository w); simpl; auto. Qed.

Lemma getStashCommits_spec (container : Container) (w : GraphWebview) :
  after (getStashCommits container w) = w
  ∧ Forall (λ e, is_subscription e = false) (events (getStashCommits container w)).
Proof.
  unfold getStashCommits. unfold_M. destruct (selectedRepository w); simpl; [|auto].
  destruct (git_getStash container _) as [[[?|]]|]; simpl; auto.
Qed.

Lemma find_elem_of {A : Type} (f : A → bool) (l : list A) (x : A) :
  find f l = Some x → x ∈ l ∧ f x = true.
Proof.
  induction l as [|y l IH]; simpl; [done|].
  destruct (f y) eqn:Hy.
  - intros [= <-]. split; [left|done].
  - intros Hx. destruct (IH Hx). split; [by right|done].
Qed.

Lemma find_exists {A : Type} (f : A → bool) (l : list A) (x : A) :
  x ∈ l → f x = true → ∃ y, find f l = Some y.
Proof.
  induction 1 as [x l|x y l Hin IH]; simpl; intros Hx.
  - rewrite Hx. eauto.
  - destruct (f y); eauto.
Qed.

(** ** Picking a repository *)

Lemma pickRepository_parts (container : Container) (repositories : list Repository)
    (w : GraphWebview) :
  after (pickRepository container repositories w) = w
  ∧ ∀ r, result (pickRepository container repositories w) = Some r → r ∈ repositories.
Proof.
  unfold pickRepository.
  destruct repositories as [|r1 [|r2 rest]].
  - by unfold_M.
  - unfold_M. split; [done|]. intros r [= <-]. left.
  - generalize dependent (r1 :: r2 :: rest). intros l.
    unfold mbind, M_bind, mret, M_ret, emit, result, after, events. cbn [fst snd].
    split; [done|]. intros r Hr. by apply find_elem_of in Hr as [Hr _].
Qed.

Lemma find_first {A : Type} (f : A → bool) (l : list A) (x : A) :
  find f l = Some x
  ↔ ∃ pre post, l = pre ++ x :: post ∧ f x = true ∧ Forall (λ y, f y = false) pre.
Proof.
  induction l as [|y l IH]; simpl.
  - split; [done|]. intros (pre & post & Hl & _). by destruct pre.
  - destruct (f y) eqn:Hy.
    + split.
      * intros [= <-]. exists [], l. by repeat split.
      * intros (pre & post & Hl & Hx & Hpre). destruct pre as [|z pre].
        { by injection Hl as ->. }
        injection Hl as -> _. apply Forall_cons in Hpre as [Hz _]. congruence.
    + rewrite IH. split.
      * intros (pre & post & -> & Hx & Hpre). exists (y :: pre), post.
        split; [done|]. split; [done|]. by constructor.
      * intros (pre & post & Hl & Hx & Hpre). destruct pre as [|z pre].
        { injection Hl as -> _. congruence. }
        injection Hl as -> ->. apply Forall_cons in Hpre as [_ Hpre]. by exists pre, post.
Qed.

(** X12 — [pickRepository] leaves the webview as it is.  For no repository it
    answers none and for one repository that one, without asking the picker.
    For two or more it asks the picker once, and it answers a repository
    exactly when the picker answers one and that repository is the first of
    the list with the picked path; so its answer is always one of the
    repositories given, and there is an answer whenever the picked path is
    the path of one of them. *)
Theorem pickRepository_sound (container : Container) (repositories : list Repository)
    (w : GraphWebview) :
  let out := pickRepository container repositories w in
  after out = w
  ∧ (repositories = [] → result out = None ∧ events out = [])
  ∧ (∀ r, repositories = [r] → result out = Some r ∧ events out = [])
  ∧ (2 ≤ length repositories →
     events out = [EvRepositoryPicker]
     ∧ (∀ r, result out = Some r
             ↔ ∃ picked pre post,
                 getBestRepositoryOrShow container = Some picked
                 ∧ repositories = pre ++ r :: post
                 ∧ repo_path r = repo_path picked
                 ∧ Forall (λ x, repo_path x ≠ repo_path picked) pre)
     ∧ (∀ picked r, getBestRepositoryOrShow container = Some picked →
          r ∈ repositories → repo_path r = repo_path picked →
          ∃ r', result out = Some r' ∧ repo_path r' = repo_path picked))
  ∧ (∀ r, result out = Some r → r ∈ repositories).
Proof.
  cbv zeta. split; [apply pickRepository_parts|]. split; [by intros ->|].
  split; [by intros r ->|]. split; [|apply pickRepository_parts].
  intros Hlen. unfold pickRepository.
  destruct repositories as [|r1 [|r2 rest]]; [simpl in Hlen; lia..|].
  generalize dependent (r1 :: r2 :: rest). intros l _.
  unfold mbind, M_bind, mret, M_ret, emit, result, after, events. cbn [fst snd].
  split; [done|].
  destruct (getBestRepositoryOrShow container) as [picked|]; cbn [fmap option_fmap option_map].
  - split.
    + intros r. rewrite find_first. split.
      * intros (pre & post & -> & Hr & Hpre). exists picked, pre, post.
        split; [done|]. split; [done|]. split; [by apply String.eqb_eq|].
        eapply Forall_impl; [exact Hpre|]. intros x Hx. by apply String.eqb_neq.
      * intros (picked' & pre & post & [= <-] & -> & Hr & Hpre). exists pre, post.
        split; [done|]. split; [by apply String.eqb_eq|].
        eapply Forall_impl; [exact Hpre|]. intros x Hx. by apply String.eqb_neq.
    + intros picked' r [= <-] Hin Hr.
      destruct (find_exists (λ x, String.eqb (repo_path x) (repo_path picked)) l r Hin)
        as [r' Hr']; [by apply String.eqb_eq|].
      exists r'. split; [done|]. apply find_elem_of in Hr' as [_ Hp].
      by apply String.eqb_eq.
  - split.
    + intros r. split.
      * intros Hr. by apply find_elem_of in Hr as [_ ?].
      * by intros (picked & pre & post & [=] & _).
    + by intros picked r [=].
Qed.


(** ** The state sent to the page *)

Lemma bind_assoc {A B C : Type} (m : M A) (f : A → M B) (g : B → M C) (w : GraphWebview) :
  ((m ≫= f) ≫= g) w = (m ≫= (λ a, f a ≫= g)) w.
Proof.
  unfold mbind, M_bind. destruct (m w) as [[a w1] e1].
  destruct (f a w1) as [[b w2] e2]. destruct (g b w2) as [[c w3] e3].
  by rewrite app_assoc.
Qed.

Lemma bind_ext {A B : Type} (m : M A) (f g : A → M B) (w : GraphWebview) :
  (∀ a w', f a w' = g a w') → (m ≫= f) w = (m ≫= g) w.
Proof.
  intros Hfg. unfold mbind, M_bind. destruct (m w) as [[a w1] e1]. by rewrite Hfg.
Qed.

Lemma getState_parts (container : Container) (w : GraphWebview) :
  openRepositories container ≠ [] →
  getState container w
  = (getState_select container;; getState_title;; getState_collect container) w.
Proof.
  intros Hne. unfold getState, getRepos.
  destruct (openRepositories container) eqn:Hrepos; [done|]. cbn [length Nat.eqb].
  unfold getState_select, getState_title, getState_collect, getRepos.
  rewrite Hrepos, bind_assoc.
  apply bind_ext. intros selected w1. apply bind_ext. intros _ w2.
  by rewrite bind_assoc.
Qed.

Lemma getState_select_spec (container : Container) (w : GraphWebview) :
  let out := getState_select container w in
  currentLog (after out) = currentLog w
  ∧ graphColumns (after out) = graphColumns w
  ∧ defaultTitle (after out) = defaultTitle w
  ∧ (∀ r, selectedRepository w = Some r → after out = w ∧ events out = [])
  ∧ (selectedRepository w = None →
     ∀ r, selectedRepository (after out) = Some r → r ∈ openRepositories container).
Proof.
  unfold getState_select.
  destruct (pickRepository_parts container (getRepos container) w) as (Hw & Hin).
  destruct w as [sel cl disp dt t cols]. unfold_M.
  destruct sel as [r|]; simpl.
  { repeat split; try done; by intros ? [= <-]. }
  destruct (pickRepository container (getRepos container) _) as [[ideal w1] e1].
  simpl in Hw, Hin. subst w1. unfold disposeRepoDisposable. unfold_M.
  destruct disp as [d|], ideal as [r'|]; simpl;
    (split; [done|]; split; [done|]; split; [done|]; split; [done|]);
    intros _ r [= <-]; by apply Hin.
Qed.


Lemma getState_title_spec (w : GraphWebview) :
  let out := getState_title w in
  selectedRepository (after out) = selectedRepository w
  ∧ currentLog (after out) = currentLog w
  ∧ repoDisposable (after out) = repoDisposable w
  ∧ graphColumns (after out) = graphColumns w
  ∧ events out = [].
Proof.
  destruct w as [[r|] cl disp dt t cols]; by unfold getState_title; unfold_M.
Qed.

Lemma getCommits_frame (container : Container) (w : GraphWebview) :
  let out := getCommits container w in
  selectedRepository (after out) = selectedRepository w
  ∧ repoDisposable (after out) = repoDisposable w
  ∧ graphColumns (after out) = graphColumns w
  ∧ Forall (λ e, is_subscription e = false) (events out).
Proof.
  cbv zeta.
  destruct (getCommits_spec container w) as ([(-> & -> & _)|(r & log & _ & _ & -> & H)] & _).
  - done.
  - assert (Hev : Forall (λ e, is_subscription e = false)
                    [EvGitGetLog (repo_uri r) (logLimit container)])
      by (by repeat constructor).
    by destruct H as [[-> _]|(_ & -> & _)].
Qed.

Lemma getState_collect_spec (container : Container) (w : GraphWebview) :
  let out := getState_collect container w in
  after out = after (getCommits container w)
  ∧ (∃ s, result out = Returned s
          ∧ st_selectedRepository s = repo_path <$> selectedRepository w
          ∧ st_repositories s = formatRepositories (openRepositories container))
  ∧ Forall (λ e, is_subscription e = false) (events out)
  ∧ ∃ rest, events out = events (getCommits container w) ++ rest.
Proof.
  cbv zeta.
  pose proof (getCommits_spec container w) as (_ & Hres & _).
  pose proof (getCommits_frame container w) as (Hsel & _ & _ & Hev).
  destruct (getState_collect container w) as [[o w'] e'] eqn:Hout.
  unfold getState_collect in Hout. unfold mbind at 1, M_bind at 1 in Hout.
  destruct (getCommits container w) as [[commitsAndLog w1] e1]. unfold_M.
  pose proof (getRemotes_spec container w1) as [Hw2 Hev2].
  destruct (getRemotes container w1) as [[remotes w2] e2]. unfold_M. subst w2.
  pose proof (getTags_spec container w1) as [Hw3 Hev3].
  destruct (getTags container w1) as [[tags w3] e3]. unfold_M. subst w3.
  pose proof (getBranches_spec container w1) as [Hw4 Hev4].
  destruct (getBranches container w1) as [[branches w4] e4]. unfold_M. subst w4.
  pose proof (getStashCommits_spec container w1) as [Hw5 Hev5].
  destruct (getStashCommits container w1) as [[stashCommits w5] e5]. unfold_M. subst w5.
  destruct (filterStashCommits_defined stashCommits (fst <$> commitsAndLog)) as [kept Hkept].
  { intros l Hl. destruct commitsAndLog as [[log commits]|]; [|done].
    simpl in Hl. injection Hl as <-.
    destruct (Hres log commits eq_refl) as (_ & m & -> & _). done. }
  rewrite Hkept in Hout. injection Hout as <- <- <-.
  split; [done|]. split.
  { eexists. split; [done|]. simpl. by rewrite Hsel. }
  split; [|by eexists].
  rewrite !app_nil_r. by repeat apply Forall_app_2.
Qed.

Lemma getState_spec (container : Container) (w : GraphWebview) :
  let out := getState container w in
  (∃ s, result out = Returned s
        ∧ (openRepositories container ≠ [] →
           st_selectedRepository s = repo_path <$> selectedRepository (after out))
        ∧ st_repositories s = formatRepositories (openRepositories container))
  ∧ (∀ r, selectedRepository w = Some r →
       selectedRepository (after out) = Some r
       ∧ repoDisposable (after out) = repoDisposable w
       ∧ Forall (λ e, is_subscription e = false) (events out))
  ∧ (selectedRepository w = None →
     ∀ r, selectedRepository (after out) = Some r → r ∈ openRepositories container)
  ∧ (currentLog (after out) = currentLog w
     ∨ currentLog w = None
       ∧ ∃ r log, selectedRepository (after out) = Some r
                  ∧ git_getLog container (repo_uri r) (logLimit container) = Some log
                  ∧ currentLog (after out) = Some log
                  ∧ EvGitGetLog (repo_uri r) (logLimit container) ∈ events out)
  ∧ graphColumns (after out) = graphColumns w.
Proof.
  cbv zeta.
  destruct (decide (openRepositories container = [])) as [Hnil|Hne].
  { unfold getState, getRepos. rewrite Hnil. unfold_M.
    split; [by eexists|]. split.
    { intros r Hr. split; [done|]. split; [done|]. constructor. }
    split; [intros Hn r Hr; by rewrite Hn in Hr|]. split; [by left|done]. }
  rewrite (getState_parts container w Hne).
  pose proof (getState_select_spec container w) as (Hcl1 & Hcols1 & _ & Hsome1 & Hnone1).
  unfold mbind, M_bind.
  destruct (getState_select container w) as [[[] w1] e1]. unfold_M.
  pose proof (getState_title_spec w1) as (Hsel2 & Hcl2 & Hdisp2 & Hcols2 & Hev2).
  destruct (getState_title w1) as [[[] w2] e2]. unfold_M. subst e2.
  pose proof (getState_collect_spec container w2)
    as (Hw3 & (s & Hs & Hssel & Hrepos) & Hev3 & (rest & Hpre)).
  pose proof (getCommits_frame container w2) as (Hsel3 & Hdisp3 & Hcols3 & _).
  pose proof (getCommits_spec container w2) as (Hgc & _).
  destruct (getState_collect container w2) as [[o w3] e3]. unfold_M. subst o w3.
  split.
  { exists s. split; [done|]. split; [|done]. intros _. by rewrite Hssel, Hsel3. }
  split.
  { intros r Hr. destruct (Hsome1 r Hr) as [-> ->].
    rewrite Hsel3, Hsel2, Hdisp3, Hdisp2. done. }
  split.
  { intros Hnone r. rewrite Hsel3, Hsel2. by apply Hnone1. }
  split; [|by rewrite Hcols3, Hcols2].
  destruct Hgc as [(-> & _)|(r & log & Hr & Hcl & Hfetch & [[-> _]|(Hlog & -> & _)])].
  - left. by rewrite Hcl2.
  - left. by rewrite Hcl2.
  - right. split; [by rewrite <- Hcl1, <- Hcl2|].
    exists r, log. split; [done|]. split; [done|]. split; [done|].
    simpl in Hpre. rewrite Hpre, Hfetch. apply elem_of_app. right. left.
Qed.


Lemma formatRepositories_paths (repositories : list Repository) :
  rd_path <$> formatRepositories repositories = repo_path <$> repositories.
Proof.
  unfold formatRepositories. destruct repositories as [|r rest]; [done|].
  cbn [length Nat.eqb]. rewrite <- list_fmap_compose. done.
Qed.

(** X13 — [getState] always answers a state: the stash filter inside it is
    never run on a log without commits.  The state lists the open
    repositories by their paths, in order.  With no open repository the call
    touches nothing and asks nothing; otherwise the state names the
    repository that is selected when the call ends. *)
Theorem getState_returns (container : Container) (w : GraphWebview) :
  ∃ s, result (getState container w) = Returned s
       ∧ rd_path <$> st_repositories s = repo_path <$> openRepositories container
       ∧ (openRepositories container = [] →
          after (getState container w) = w ∧ events (getState container w) = []
          ∧ st_selectedRepository s = None)
       ∧ (openRepositories container ≠ [] →
          st_selectedRepository s
          = repo_path <$> selectedRepository (after (getState container w))).
Proof.
  destruct (getState_spec container w) as ((s & Hs & Hsel & Hrepos) & _).
  exists s. split; [done|]. split; [by rewrite Hrepos, formatRepositories_paths|].
  split; [|done].
  intros Hnil. revert Hs. unfold getState, getRepos. rewrite Hnil. unfold_M.
  by intros [= <-].
Qed.

Lemma notifyDidChangeState_spec (container : Container) (w : GraphWebview) :
  let out := notifyDidChangeState container w in
  after out = after (getState container w)
  ∧ ∃ s, result (getState container w) = Returned s
         ∧ events out = events (getState container w) ++ [EvNotify (DidChange s)].
Proof.
  cbv zeta. destruct (getState_spec container w) as ((s & Hs & _ & _) & _).
  unfold notifyDidChangeState. unfold mbind, M_bind.
  destruct (getState container w) as [[o w1] e1]. unfold_M. subst o.
  split; [done|]. by exists s.
Qed.

(** The webview as [changeRepository path] leaves it before it notifies. *)
Lemma changeRepository_parts (container : Container) (path : string) (w : GraphWebview) :
  ∃ w1, changeRepository container path w = notifyDidChangeState container w1
        ∧ repoDisposable w1 = repoDisposable w
        ∧ graphColumns w1 = graphColumns w
        ∧ (w1 = w ∧ (∃ r, selectedRepository w = Some r ∧ repo_path r = path)
           ∨ currentLog w1 = None
             ∧ selectedRepository w1
               = (if negb (String.eqb path "")
                  then find (λ r, String.eqb (repo_path r) path) (openRepositories container)
                  else None)).
Proof.
  set (sel' := if negb (String.eqb path "")
               then find (λ r, String.eqb (repo_path r) path) (openRepositories container)
               else None).
  unfold changeRepository. unfold mbind at 1, M_bind at 1. unfold gets at 1.
  destruct (selectedRepository w) as [r|] eqn:Hsel.
  - destruct (String.eqb_spec (repo_path r) path) as [Hp|Hp]; simpl negb; cbv iota.
    + exists w. split.
      { unfold mbind, M_bind, mret, M_ret.
        by destruct (notifyDidChangeState container w) as [[[] w2] e2]. }
      split; [done|]. split; [done|]. left. eauto.
    + exists (set_currentLog None (set_selectedRepository sel' w)). split.
      { unfold mbind, M_bind, modify, getRepos. fold sel'.
        by destruct (notifyDidChangeState container _) as [[[] w2] e2]. }
      split; [done|]. split; [done|]. by right.
  - exists (set_currentLog None (set_selectedRepository sel' w)). split.
    { unfold mbind, M_bind, modify, getRepos. fold sel'.
      by destruct (notifyDidChangeState container _) as [[[] w2] e2]. }
    split; [done|]. split; [done|]. by right.
Qed.

Lemma changeRepository_same_path (container : Container) (path : string)
    (w : GraphWebview) (r : Repository) :
  selectedRepository w = Some r → repo_path r = path →
  changeRepository container path w = notifyDidChangeState container w.
Proof.
  intros Hr Hpath. unfold changeRepository. unfold mbind at 1, M_bind at 1.
  unfold gets at 1. rewrite Hr, Hpath, String.eqb_refl. cbn [negb].
  unfold mbind, M_bind, mret, M_ret.
  by destruct (notifyDidChangeState container w) as [[[] w2] e2].
Qed.

Lemma changeRepository_open (container : Container) (path : string) (w : GraphWebview)
    (r : Repository) :
  r ∈ openRepositories container → repo_path r = path → path ≠ "" →
  ∃ w1 r', changeRepository container path w = notifyDidChangeState container w1
           ∧ repoDisposable w1 = repoDisposable w
           ∧ selectedRepository w1 = Some r'
           ∧ repo_path r' = path
           ∧ (r' ∈ openRepositories container ∨ selectedRepository w = Some r').
Proof.
  intros Hin Hpath Hne.
  destruct (changeRepository_parts container path w)
    as (w1 & Heq & Hdisp & _ & [[-> (r0 & Hr0 & Hp0)]|[_ Hsel]]).
  - exists w, r0. eauto 10.
  - destruct (String.eqb_spec path "") as [?|_]; [done|]. simpl in Hsel.
    destruct (find_exists (λ r, String.eqb (repo_path r) path)
                (openRepositories container) r Hin) as [r' Hr'].
    { by apply String.eqb_eq. }
    rewrite Hr' in Hsel. apply find_elem_of in Hr' as [Hin' Hp'].
    apply String.eqb_eq in Hp'. exists w1, r'. eauto 10.
Qed.

(** ** Choosing a repository from the page *)

(** X14 — A [SelectRepository] message with the path of an open repository
    ends with a repository of that path selected, and the last thing the
    webview sends is the state that names this path as the selected
    repository. *)
Theorem changeRepository_selects_open_repository (container : Container) (w : GraphWebview)
    (path : string) (r : Repository) :
  r ∈ openRepositories container → repo_path r = path → path ≠ "" →
  let out := changeRepository container path w in
  (∃ r', selectedRepository (after out) = Some r' ∧ repo_path r' = path)
  ∧ ∃ state, last (events out) = Some (EvNotify (DidChange state))
             ∧ st_selectedRepository state = Some path.
Proof.
  intros Hin Hpath Hne. cbv zeta.
  destruct (changeRepository_open container path w r Hin Hpath Hne)
    as (w1 & r' & -> & _ & Hsel & Hp & _).
  destruct (notifyDidChangeState_spec container w1) as (-> & s & Hs & ->).
  destruct (getState_spec container w1) as ((s' & Hs' & Hssel & _) & Hsome & _).
  destruct (Hsome r' Hsel) as (Hsel' & _).
  split; [by exists r'|].
  exists s. rewrite last_snoc. split; [done|].
  rewrite Hs in Hs'. injection Hs' as <-.
  rewrite Hssel, Hsel'; [by rewrite <- Hp|]. by intros Hnil; rewrite Hnil in Hin; apply elem_of_nil in Hin.
Qed.

Lemma changeRepository_selects_open_repository_witness :
  let out := changeRepository sampleContainer "/b" webviewOnA in
  repoB ∈ openRepositories sampleContainer
  ∧ selectedRepository webviewOnA = Some repoA
  ∧ (∃ r', selectedRepository (after out) = Some r' ∧ repo_path r' = "/b")
  ∧ ∃ state, last (events out) = Some (EvNotify (DidChange state))
             ∧ st_selectedRepository state = Some "/b".
Proof.
  cbv zeta. split; [right; left|]. split; [reflexivity|].
  apply (changeRepository_selects_open_repository sampleContainer webviewOnA "/b" repoB);
    [right; left|reflexivity|discriminate].
Defined.

(** X15 — Changing the repository from the page never moves the listener:
    after a [SelectRepository] message with the path of an open repository
    the webview holds the subscription it held before, and it has disposed
    nothing and subscribed to nothing, so it still listens to the repository
    selected first. *)
Theorem changeRepository_keeps_subscription (container : Container) (w : GraphWebview)
    (path : string) (r : Repository) :
  r ∈ openRepositories container → repo_path r = path → path ≠ "" →
  let out := changeRepository container path w in
  repoDisposable (after out) = repoDisposable w
  ∧ Forall (λ e, is_subscription e = false) (events out).
Proof.
  intros Hin Hpath Hne. cbv zeta.
  destruct (changeRepository_open container path w r Hin Hpath Hne)
    as (w1 & r' & -> & Hdisp & Hsel & _).
  destruct (notifyDidChangeState_spec container w1) as (-> & s & Hs & ->).
  destruct (getState_spec container w1) as (_ & Hsome & _).
  destruct (Hsome r' Hsel) as (_ & Hdisp' & Hev).
  split; [by rewrite Hdisp'|].
  apply Forall_app_2; [done|]. by repeat constructor.
Qed.

Lemma changeRepository_keeps_subscription_witness :
  let out := changeRepository sampleContainer "/a" webviewOnB in
  repoDisposable webviewOnB = Some {| listensTo := repoB; disposed := false |}
  ∧ selectedRepository (after out) = Some repoA
  ∧ repoDisposable (after out) = repoDisposable webviewOnB
  ∧ Forall (λ e, is_subscription e = false) (events out).
Proof.
  cbv zeta. split; [reflexivity|]. split; [reflexivity|].
  apply (changeRepository_keeps_subscription sampleContainer webviewOnB "/a" repoA);
    [left|reflexivity|discriminate].
Defined.


(** ** Commits and paging *)

(** X16 — Once [getCommits] has answered commits, asking again answers the
    same from the log the webview kept: the second call changes nothing and
    calls no collaborator. *)
Theorem getCommits_asks_once (container : Container) (w : GraphWebview) :
  let out := getCommits container w in
  result out ≠ None →
  getCommits container (after out) = (result out, after out, []).
Proof.
  destruct w as [sel cl disp dt t cols].
  unfold getCommits, getLog, getConfig. unfold_M.
  destruct sel as [r|]; simpl; [|done].
  destruct cl as [[[m|] ? ? ? ? ?]|]; simpl; [done..|].
  by destruct (git_getLog container (repo_uri r) _) as [[[m|] ? ? ? ? ?]|].
Qed.

Lemma getCommits_asks_once_witness :
  let out := getCommits sampleContainer
               (set_selectedRepository (Some repoA) freshWebview) in
  events out = [EvGitGetLog "file:///a" (Some 200)]
  ∧ getCommits sampleContainer (after out) = (result out, after out, []).
Proof.
  cbv zeta. split; [reflexivity|].
  apply (getCommits_asks_once sampleContainer
           (set_selectedRepository (Some repoA) freshWebview)).
  discriminate.
Defined.

Lemma notifyDidChangeCommits_spec (container : Container) (w : GraphWebview) :
  let out := notifyDidChangeCommits container w in
  after out = after (getCommits container w)
  ∧ ∃ commits data,
      events out = events (getCommits container w)
                   ++ [EvNotify (DidChangeCommits commits data)].
Proof.
  cbv zeta. unfold notifyDidChangeCommits. unfold mbind, M_bind.
  destruct (getCommits container w) as [[o w1] e1]. unfold_M.
  split; [done|]. by eexists _, _.
Qed.

(** The webview as [moreCommits limit] leaves it before it notifies, and what
    it logged until then. *)
Lemma moreCommits_parts (container : Container) (limit : option nat) (w : GraphWebview) :
  let asked := nullish limit (logLimit container) in
  ∃ w1 e1,
    after (moreCommits container limit w) = after (notifyDidChangeCommits container w1)
    ∧ events (moreCommits container limit w)
      = e1 ++ events (notifyDidChangeCommits container w1)
    ∧ (w1 = w ∧ e1 = []
         ∧ (∀ log, currentLog w = Some log → log_more log = None)
       ∨ ∃ log more,
           currentLog w = Some log ∧ log_more log = Some more
           ∧ e1 = [EvLogMore asked]
           ∧ (more asked = None ∧ w1 = w
              ∨ ∃ next, more asked = Some next ∧ w1 = set_currentLog (Some next) w)).
Proof.
  cbv zeta.
  unfold moreCommits, getConfig, logLimit, mbind, M_bind, gets, modify, emit, mret, M_ret,
    after, events.
  cbn beta iota zeta.
  destruct (currentLog w) as [[commits count lim hasMore cursor [more|]]|] eqn:Hcl.
  - destruct (more _) as [next|] eqn:Hnext.
    + exists (set_currentLog (Some next) w), [EvLogMore (nullish limit (logLimit container))].
      destruct (notifyDidChangeCommits container _) as [[[] w2] e2]. simpl.
      split; [done|]. split; [done|]. right. eexists _, more.
      split; [done|]. split; [done|]. split; [done|]. right. by exists next.
    + exists w, [EvLogMore (nullish limit (logLimit container))].
      destruct (notifyDidChangeCommits container _) as [[[] w2] e2]. simpl.
      split; [done|]. split; [done|]. right. eexists _, more.
      split; [done|]. split; [done|]. split; [done|]. by left.
  - exists w, [].
    destruct (notifyDidChangeCommits container _) as [[[] w2] e2]. simpl.
    split; [done|]. split; [done|]. left. split; [done|]. split; [done|].
    by intros log [= <-].
  - exists w, [].
    destruct (notifyDidChangeCommits container _) as [[[] w2] e2]. simpl.
    split; [done|]. split; [done|]. left. by split.
Qed.

Lemma getCommits_with_log (container : Container) (w : GraphWebview) (log : GitLog) :
  currentLog w = Some log →
  after (getCommits container w) = w ∧ events (getCommits container w) = [].
Proof.
  intros Hcl.
  destruct (getCommits_spec container w) as ([(-> & -> & _)|(r & l & _ & Hnone & _)] & _).
  - done.
  - by rewrite Hcl in Hnone.
Qed.

Lemma getCommits_held (container : Container) (w : GraphWebview) (log : GitLog) :
  currentLog w = Some log →
  getCommits container w = (shownFrom w log, w, []).
Proof.
  destruct w as [sel cl disp dt t cols]. simpl. intros ->.
  unfold getCommits, shownFrom. unfold_M.
  by destruct sel, log as [[m|] ? ? ? ? ?].
Qed.

(** X17 — [moreCommits] pages the log it holds and never loses it.  With a
    log at hand that has a [more], it calls [more] once, with
    [limit ?? pageLimit ?? defaultLimit] (so an explicit limit, be it 0,
    wins), and holds the log [more] answered afterwards, or the log it held
    when [more] answers none; with a log that has no [more] it calls nothing
    and keeps the log.  Nothing else of the webview changes, and the last
    thing sent is the commits notification, made from the log now held. *)
Theorem moreCommits_keeps_a_log (container : Container) (w : GraphWebview)
    (limit : option nat) (log : GitLog) :
  currentLog w = Some log →
  let out := moreCommits container limit w in
  let asked := nullish limit (logLimit container) in
  let held := match log_more log with
              | Some more => default log (more asked)
              | None => log
              end in
  let shown := shownFrom w held in
  after out = set_currentLog (Some held) w
  ∧ events out
    = match log_more log with Some _ => [EvLogMore asked] | None => [] end
      ++ [EvNotify (DidChangeCommits
                      (formatCommits
                         match shown with Some (_, commits) => commits | None => [] end)
                      (formatLog <$> (fst <$> shown)))].
Proof.
  intros Hcl. cbv zeta.
  unfold moreCommits, getConfig, logLimit, notifyDidChangeCommits,
    mbind, M_bind, gets, modify, emit, mret, M_ret, after, events.
  cbn beta iota zeta. rewrite Hcl.
  destruct log as [commits count lim hasMore cursor [more|]]; cbn [log_more].
  - destruct (more _) as [next|] eqn:Hnext; cbn [default from_option].
    + rewrite (getCommits_held container (set_currentLog (Some next) w) next eq_refl).
      by cbn.
    + rewrite (getCommits_held container w _ Hcl). cbn. by rewrite <- Hcl, set_currentLog_same.
  - rewrite (getCommits_held container w _ Hcl). cbn. by rewrite <- Hcl, set_currentLog_same.
Qed.

Lemma moreCommits_keeps_a_log_witness :
  let w := set_currentLog (Some shortLog) (set_selectedRepository (Some repoA) freshWebview) in
  let out := moreCommits sampleContainer (Some 0) w in
  after out = set_currentLog (Some longLog) w
  ∧ events out
    = [EvLogMore (Some 0);
       EvNotify (DidChangeCommits
                   (formatCommits
                      match shownFrom w longLog with
                      | Some (_, commits) => commits
                      | None => []
                      end)
                   (formatLog <$> (fst <$> shownFrom w longLog)))].
Proof.
  cbv zeta.
  apply (moreCommits_keeps_a_log sampleContainer
           (set_currentLog (Some shortLog)
              (set_selectedRepository (Some repoA) freshWebview))
           (Some 0) shortLog).
  reflexivity.
Defined.

(** ** Columns *)

(** X18 — A column change is stored and echoed.  [changeColumn(name, config)]
    writes the property [name] of the stored dictionary, an empty object when
    nothing is stored: afterwards [name] is an own property with the value
    [config], and every other own property is as it was.  The one exception
    is the name [__proto__] on a dictionary without such an own property:
    then no property is added, and the prototype of the dictionary is
    replaced by [config].  The object so changed is what is handed to the
    storage; what the storage then holds and what the configuration sent
    last to the page carries have its own properties; the selection and the
    log are untouched. *)
Theorem changeColumn_stored_and_echoed (container : Container) (w : GraphWebview)
    (name : string) (config : GraphColumnConfig) :
  let out := changeColumn container name config w in
  let before := default emptyObject (graphColumns w) in
  ∃ columns sent,
    events out = [EvStoreColumns columns; EvNotify (DidChangeConfig sent)]
    ∧ (name ≠ "__proto__" ∨ is_Some (own before !! name) →
       own columns !! name = Some config
       ∧ replacedPrototype columns = replacedPrototype before)
    ∧ (name = "__proto__" → own before !! name = None →
       own columns = own before ∧ replacedPrototype columns = Some config)
    ∧ (∀ other, other ≠ name → own columns !! other = own before !! other)
    ∧ (∃ stored, graphColumns (after out) = Some stored ∧ own stored = own columns)
    ∧ (∃ sentColumns, cfg_columns sent = Some sentColumns
                      ∧ own sentColumns = own columns)
    ∧ selectedRepository (after out) = selectedRepository w
    ∧ currentLog (after out) = currentLog w.
Proof.
  cbv zeta. unfold changeColumn, notifyDidChangeConfig, getConfig. unfold_M.
  eexists _, _. split; [done|].
  set (before := default emptyObject (graphColumns w)).
  unfold assignProperty.
  destruct (own before !! name) as [c|] eqn:Hown; [|destruct (String.eqb_spec name "__proto__")];
    simpl.
  - split; [intros _; by rewrite lookup_insert_eq|]. split; [done|].
    split; [intros other Hother; by rewrite lookup_insert_ne|].
    split; [by eexists|]. split; [by eexists|done].
  - split; [intros [?|[? [=]]]; done|]. split; [done|]. split; [done|].
    split; [by eexists|]. split; [by eexists|done].
  - split; [intros _; by rewrite lookup_insert_eq|]. split; [done|].
    split; [intros other Hother; by rewrite lookup_insert_ne|].
    split; [by eexists|]. split; [by eexists|done].
Qed.

(** ** One handler *)

Lemma onRepositoryChanged_parts (container : Container) (w : GraphWebview) :
  onRepositoryChanged container w
  = notifyDidChangeState container (set_currentLog None w).
Proof.
  unfold onRepositoryChanged, mbind, M_bind, modify.
  by destruct (notifyDidChangeState container _) as [[[] w2] e2].
Qed.

Lemma changeColumn_frame (container : Container) (name : string)
    (config : GraphColumnConfig) (w : GraphWebview) :
  selectedRepository (after (changeColumn container name config w)) = selectedRepository w
  ∧ currentLog (after (changeColumn container name config w)) = currentLog w.
Proof. unfold changeColumn, notifyDidChangeConfig, getConfig. by unfold_M. Qed.

Lemma moreCommits_selection (container : Container) (limit : option nat) (w : GraphWebview) :
  selectedRepository (after (moreCommits container limit w)) = selectedRepository w.
Proof.
  destruct (moreCommits_parts container limit w) as (w1 & e1 & -> & _ & Hparts).
  destruct (notifyDidChangeCommits_spec container w1) as (-> & _).
  destruct (getCommits_frame container w1) as (-> & _).
  by destruct Hparts as [(-> & _)|(? & ? & _ & _ & _ & [[_ ->]|(? & _ & ->)])].
Qed.

Lemma getState_selection (container : Container) (w : GraphWebview) (r : Repository) :
  selectedRepository (after (getState container w)) = Some r →
  selectedRepository w = Some r ∨ r ∈ openRepositories container.
Proof.
  destruct (getState_spec container w) as (_ & Hsome & Hnone & _).
  destruct (selectedRepository w) as [r0|] eqn:Hsel.
  - destruct (Hsome r0 eq_refl) as (-> & _). intros [= <-]. by left.
  - intros Hr. right. by apply Hnone.
Qed.

Lemma bootstrap_parts (container : Container) (w : GraphWebview) :
  after (react container Bootstrap w) = after (getState container w)
  ∧ events (react container Bootstrap w) = events (getState container w).
Proof.
  cbn [react]. unfold includeBootstrap, mbind, M_bind.
  destruct (getState container w) as [[o w1] e1]. unfold_M. by rewrite app_nil_r.
Qed.

(** X19 — A handler selects open repositories only, and never on its own
    account.  After one handler (a page message, a repository change or a
    bootstrap) the selected repository, if any, is the one selected before
    or one of the repositories that were open when the handler read them.
    And a repository once selected stays selected, whether it is still open
    or not, unless the handler is a [SelectRepository] message with another
    path. *)
Theorem handler_selects_open_repository (container : Container) (i : Input)
    (w : GraphWebview) :
  let out := react container i w in
  (∀ r, selectedRepository (after out) = Some r →
        selectedRepository w = Some r ∨ r ∈ openRepositories container)
  ∧ (∀ r, selectedRepository w = Some r →
        (∀ path, i = Message (SelectRepositoryCommand path) → repo_path r = path) →
        selectedRepository (after out) = Some r).
Proof.
  cbv zeta. destruct i as [[name config|limit|path|method]| |].
  - cbn [react onMessageReceived].
    destruct (changeColumn_frame container name config w) as [-> _]. auto.
  - cbn [react onMessageReceived]. rewrite moreCommits_selection. auto.
  - cbn [react onMessageReceived]. split.
    + destruct (changeRepository_parts container path w) as (w1 & -> & _ & _ & Hcase).
      destruct (notifyDidChangeState_spec container w1) as (-> & _).
      intros r Hr. apply getState_selection in Hr.
      destruct Hcase as [[-> _]|[_ Hsel]]; [done|].
      destruct Hr as [Hr|Hr]; [|by right]. right.
      rewrite Hr in Hsel. destruct (negb _); [|done].
      symmetry in Hsel. by apply find_elem_of in Hsel as [Hin _].
    + intros r Hr Hpath.
      rewrite (changeRepository_same_path container path w r Hr (Hpath path eq_refl)).
      destruct (notifyDidChangeState_spec container w) as (-> & _).
      destruct (getState_spec container w) as (_ & Hsome & _). by apply Hsome.
  - cbn [react onMessageReceived]. unfold_M. auto.
  - cbn [react]. rewrite onRepositoryChanged_parts.
    destruct (notifyDidChangeState_spec container (set_currentLog None w)) as (-> & _).
    split.
    + intros r Hr. by apply getState_selection in Hr.
    + intros r Hr _. destruct (getState_spec container (set_currentLog None w))
        as (_ & Hsome & _). by apply Hsome.
  - destruct (bootstrap_parts container w) as [-> _]. split.
    + intros r Hr. by apply getState_selection in Hr.
    + intros r Hr _. destruct (getState_spec container w) as (_ & Hsome & _).
      by apply Hsome.
Qed.

Lemma getState_log_cases (container : Container) (w : GraphWebview) (log : GitLog) :
  currentLog (after (getState container w)) = Some log →
  (∃ r, selectedRepository (after (getState container w)) = Some r
        ∧ git_getLog container (repo_uri r) (logLimit container) = Some log
        ∧ EvGitGetLog (repo_uri r) (logLimit container) ∈ events (getState container w))
  ∨ currentLog w = Some log
    ∧ ∀ r, selectedRepository w = Some r →
           selectedRepository (after (getState container w)) = Some r.
Proof.
  intros Hlog. destruct (getState_spec container w) as (_ & Hsome & _ & Hcl & _).
  destruct Hcl as [Hsame|(_ & r & log' & Hr & Hget & Hcl' & Hev)].
  - right. split; [by rewrite <- Hsame|]. intros r Hr. by apply Hsome.
  - left. rewrite Hcl' in Hlog. injection Hlog as <-. by exists r.
Qed.

(** X20 — The log a handler leaves is a log of the selection it leaves.  After
    one handler (a page message, a repository change or a bootstrap) the log
    held, if any, is either one this handler asked the provider for, with
    the uri of the repository selected at its end, or the log held before,
    or for a [MoreCommits] message what [more] of that log answered, and in
    these two cases a repository selected before is still the one selected.
    So a handler that changes the selection never keeps the log of the
    repository selected before. *)
Theorem handler_log_belongs_to_selection (container : Container) (i : Input)
    (w : GraphWebview) (log : GitLog) :
  let out := react container i w in
  currentLog (after out) = Some log →
  (∃ r, selectedRepository (after out) = Some r
        ∧ git_getLog container (repo_uri r) (logLimit container) = Some log
        ∧ EvGitGetLog (repo_uri r) (logLimit container) ∈ events out)
  ∨ (∃ previous,
       currentLog w = Some previous
       ∧ (log = previous
          ∨ ∃ limit more,
              i = Message (MoreCommitsCommand limit)
              ∧ log_more previous = Some more
              ∧ more (nullish limit (logLimit container)) = Some log)
       ∧ ∀ r, selectedRepository w = Some r → selectedRepository (after out) = Some r).
Proof.
  cbv zeta. destruct i as [[name config|limit|path|method]| |].
  - cbn [react onMessageReceived].
    destruct (changeColumn_frame container name config w) as [Hsel Hcl].
    rewrite Hcl, Hsel. intros Hlog. right. exists log. auto.
  - cbn [react onMessageReceived]. rewrite moreCommits_selection.
    destruct (moreCommits_parts container limit w) as (w1 & e1 & -> & -> & Hparts).
    destruct (notifyDidChangeCommits_spec container w1) as (-> & commits & data & ->).
    destruct (getCommits_spec container w1) as (Hgc & _).
    destruct Hparts as [(-> & -> & _)|(prev & more & Hcl & Hmore & -> & Hnext)].
    + destruct Hgc as [(-> & _)|(r & log' & Hr & Hnone & -> & [[-> _]|(Hget & -> & _)])].
      * intros Hlog. right. exists log. auto.
      * intros Hlog. by rewrite Hnone in Hlog.
      * intros [= <-]. left. exists r. split; [done|]. split; [done|]. left.
    + assert (Hkeep : ∀ l, currentLog w1 = Some l → after (getCommits container w1) = w1).
      { intros l Hl. by destruct (getCommits_with_log container w1 l Hl). }
      destruct Hnext as [[_ ->]|(next & Hnext & ->)].
      * rewrite (Hkeep prev Hcl), Hcl. intros [= <-]. right. exists prev. auto.
      * rewrite (Hkeep next eq_refl). intros [= <-]. right. exists prev.
        split; [done|]. split; [|done]. right. by exists limit, more.
  - cbn [react onMessageReceived].
    destruct (changeRepository_parts container path w) as (w1 & -> & _ & _ & Hcase).
    destruct (notifyDidChangeState_spec container w1) as (-> & s & _ & ->).
    intros Hlog. destruct (getState_log_cases container w1 log Hlog)
      as [(r & Hr & Hget & Hev)|[Hcl Hsel]].
    + left. exists r. split; [done|]. split; [done|]. apply elem_of_app. by left.
    + destruct Hcase as [[-> _]|[Hnone _]]; [|by rewrite Hnone in Hcl].
      right. exists log. auto.
  - cbn [react onMessageReceived]. unfold_M. intros Hlog. right. exists log. auto.
  - cbn [react]. rewrite onRepositoryChanged_parts.
    destruct (notifyDidChangeState_spec container (set_currentLog None w))
      as (-> & s & _ & ->).
    intros Hlog. destruct (getState_log_cases container _ log Hlog)
      as [(r & Hr & Hget & Hev)|[Hcl _]]; [|done].
    left. exists r. split; [done|]. split; [done|]. apply elem_of_app. by left.
  - destruct (bootstrap_parts container w) as [-> ->].
    intros Hlog. destruct (getState_log_cases container w log Hlog)
      as [(r & Hr & Hget & Hev)|[Hcl Hsel]].
    + left. by exists r.
    + right. exists log. auto.
Qed.

Lemma handler_log_belongs_to_selection_witness :
  let out := react sampleContainer (Message (SelectRepositoryCommand "/a")) webviewOnB in
  selectedRepository webviewOnB = Some repoB
  ∧ currentLog (after out) = Some shortLog
  ∧ ((∃ r, selectedRepository (after out) = Some r
           ∧ git_getLog sampleContainer (repo_uri r) (logLimit sampleContainer)
             = Some shortLog
           ∧ EvGitGetLog (repo_uri r) (logLimit sampleContainer) ∈ events out)
     ∨ (∃ previous,
          currentLog webviewOnB = Some previous
          ∧ (shortLog = previous
             ∨ ∃ limit more,
                 Message (SelectRepositoryCommand "/a") = Message (MoreCommitsCommand limit)
                 ∧ log_more previous = Some more
                 ∧ more (nullish limit (logLimit sampleContainer)) = Some shortLog)
          ∧ ∀ r, selectedRepository webviewOnB = Some r →
                 selectedRepository (after out) = Some r)).
Proof.
  cbv zeta. split; [reflexivity|]. split; [reflexivity|].
  apply (handler_log_belongs_to_selection sampleContainer
           (Message (SelectRepositoryCommand "/a")) webviewOnB shortLog).
  reflexivity.
Defined.

End GraphProperties.

(** * Properties of the theme colours *)

Section ThemeProperties.
Import Theme.
Context (getPropertyValue : string → string)
        (trim : string → string)
        (lighten darken opacity : string → QArith_base.Q → string)
        (className : string)
        (callback : bool).

Abbreviation log :=
  (initializeAndWatchThemeColors getPropertyValue trim lighten darken opacity
     className callback).

Abbreviation themed name := (computed getPropertyValue trim name).

Lemma foreground_values :
  let foreground :=
    or_else (themed "--vscode-editor-foreground") (themed "--vscode-foreground") in
  let view := or_else (themed "--vscode-sideBar-foreground") foreground in
  styleAfter log "--color-foreground" = Some foreground
  ∧ styleAfter log "--color-view-foreground" = Some view
  ∧ styleAfter log "--color-view-header-foreground"
    = Some (or_else (themed "--vscode-sideBarSectionHeader-foreground") view).
Proof.
  unfold initializeAndWatchThemeColors, onColorThemeChanged.
  destruct callback; (split; [vm_compute; reflexivity|split; vm_compute; reflexivity]).
Qed.

(** X21 — The foreground colours fall back in a chain.  After
    [initializeAndWatchThemeColors], [--color-foreground] is the editor
    foreground, or the foreground when that is empty; [--color-view-foreground]
    is the side bar foreground, or else [--color-foreground]; and
    [--color-view-header-foreground] is the section header foreground, or else
    [--color-view-foreground].  So each is the first non-empty colour of its
    list, and when [--color-foreground] is not empty neither are the two
    others. *)
Theorem foreground_fallback_chain :
  styleAfter log "--color-foreground"
  = Some (firstNonEmpty [themed "--vscode-editor-foreground"; themed "--vscode-foreground"])
  ∧ styleAfter log "--color-view-foreground"
    = Some (firstNonEmpty [themed "--vscode-sideBar-foreground";
                           themed "--vscode-editor-foreground";
                           themed "--vscode-foreground"])
  ∧ styleAfter log "--color-view-header-foreground"
    = Some (firstNonEmpty [themed "--vscode-sideBarSectionHeader-foreground";
                           themed "--vscode-sideBar-foreground";
                           themed "--vscode-editor-foreground";
                           themed "--vscode-foreground"])
  ∧ (styleAfter log "--color-foreground" ≠ Some "" →
     styleAfter log "--color-view-foreground" ≠ Some ""
     ∧ styleAfter log "--color-view-header-foreground" ≠ Some "").
Proof.
  destruct foreground_values as (-> & -> & ->).
  generalize (themed "--vscode-sideBarSectionHeader-foreground") as header.
  generalize (themed "--vscode-sideBar-foreground") as sideBar.
  generalize (themed "--vscode-editor-foreground") as editor.
  generalize (themed "--vscode-foreground") as foreground.
  intros foreground editor sideBar header. unfold or_else, firstNonEmpty.
  split; [done|]. split; [done|]. split; [done|].
  intros Hfg.
  destruct (String.eqb_spec sideBar "") as [->|Hs], (String.eqb_spec header "") as [->|Hh];
    split; try done; congruence.
Qed.

(** X22 — Two colours are always derived from others.  After
    [initializeAndWatchThemeColors], [--color-highlight] is the button
    background, and [--graph-panel-bg] is the background darkened by 5 in a
    light theme (a body class with [vscode-light] or
    [vscode-high-contrast-light]) and lightened by 5 otherwise, with the
    opacity factor [0.5] and [1]. *)
Theorem derived_theme_colours :
  let light := String_includes className "vscode-light"
               || String_includes className "vscode-high-contrast-light" in
  styleAfter log "--color-highlight" = styleAfter log "--color-button-background"
  ∧ styleAfter log "--graph-panel-bg"
    = styleAfter log (if light then "--color-background--darken-05"
                      else "--color-background--lighten-05")
  ∧ styleAfter log "--graph-theme-opacity-factor" = Some (if light then "0.5" else "1").
Proof.
  cbv zeta. unfold initializeAndWatchThemeColors, onColorThemeChanged.
  destruct (String_includes className "vscode-light"
            || String_includes className "vscode-high-contrast-light");
    destruct callback; (split; [vm_compute; reflexivity|split; vm_compute; reflexivity]).
Qed.

End ThemeProperties.
